(** * Relevance graph and record filter of the researcher network

    A shallow embedding of [lib/utils]: the tokenizer [splitByDelimiters],
    the relevance graph builder [calculateConnections], the record filter
    [filterResearchers] and its predicate evaluator [matchField], the
    loader [loadResearchersData] and [getUniqueValues]; and of the code of
    the components that calls them: the criteria the filter panel builds,
    the handlers of the page, the links and the counts of the network view
    and the score of the detail panel.

    JavaScript strings are sequences of UTF-16 code units, values are
    dynamically typed (the loader casts the parsed CSV rows, read with
    [dynamicTyping: true], to [Researcher[]]), objects live in a heap and
    are passed by reference, and a method call on a value that does not
    have the method raises a [TypeError]. *)

From stdpp Require Import gmap strings list fin_maps.
From Equations Require Import Equations.
From Stdlib Require Import NArith ZArith Sorting.Sorted.
From Stdlib Require QArith.

Set Default Proof Using "Type".

(** ** Strings *)

(** A string is its list of UTF-16 code units. *)
Abbreviation jsstring := (list N).

(** The code units of an ASCII literal. *)
Definition utf16 (s : string) : jsstring :=
  (λ a, Ascii.N_of_ascii a) <$> String.list_ascii_of_string s.

Definition COMMA : N := 44.            (* "," *)
Definition WIDE_COMMA : N := 0x3001.   (* "、" *)
Definition PIPE : N := 124.            (* "|" *)

(** The code units of [WhiteSpace] and [LineTerminator]: what [\s] matches
    and what [trim] removes. *)
Definition isWhiteSpace (c : N) : bool :=
  ((9 <=? c) && (c <=? 13) || (c =? 32) || (c =? 0xA0) || (c =? 0x1680)
   || (0x2000 <=? c) && (c <=? 0x200A) || (c =? 0x2028) || (c =? 0x2029)
   || (c =? 0x202F) || (c =? 0x205F) || (c =? 0x3000) || (c =? 0xFEFF))%N.

Fixpoint skipWhile (f : N → bool) (s : jsstring) : jsstring :=
  match s with
  | c :: rest => if f c then skipWhile f rest else s
  | [] => []
  end.

Fixpoint countWhile (f : N → bool) (s : jsstring) : nat :=
  match s with
  | c :: rest => if f c then S (countWhile f rest) else 0
  | [] => 0
  end.

(** [String.prototype.trim] *)
Definition trim (s : jsstring) : jsstring :=
  rev (skipWhile isWhiteSpace (rev (skipWhile isWhiteSpace s))).

(** A string is truthy when it is not empty. *)
Definition nonEmpty (s : jsstring) : bool :=
  match s with [] => false | _ :: _ => true end.

(** ** The regular expression [/,\s*|、/]

    [splitMatcher s] is the length of the match of the pattern at the start
    of [s], if there is one: a comma with the whole run of whitespace that
    follows it (the star is greedy and nothing comes after it), or one wide
    comma. *)
Definition splitMatcher (s : jsstring) : option nat :=
  match s with
  | c :: rest =>
      if (c =? COMMA)%N then Some (S (countWhile isWhiteSpace rest))
      else if (c =? WIDE_COMMA)%N then Some 1
      else None
  | [] => None
  end.

(** [String.prototype.split] with that pattern: [piece] holds, in reverse,
    the code units read since the last separator, and [s] is what is left
    to read. A match at the current position closes the piece and reading
    goes on after the match; otherwise the position advances by one. The
    pattern never matches the empty string, so the step the general
    algorithm takes for an empty match only advances here. *)
Equations? splitLoop (piece : jsstring) (s : jsstring) : list jsstring
  by wf (length s) lt :=
  splitLoop piece [] := [rev piece];
  splitLoop piece (c :: rest) with splitMatcher (c :: rest) := {
    | Some (S e) => rev piece :: splitLoop [] (drop e rest)
    | Some 0 => splitLoop (c :: piece) rest
    | None => splitLoop (c :: piece) rest }.
Proof. all: rewrite ?length_drop; simpl; lia. Qed.

Definition split_regex (s : jsstring) : list jsstring := splitLoop [] s.

(** [String.prototype.split] with a separator of one code unit. *)
Fixpoint splitOn (sep : N) (piece : jsstring) (s : jsstring) : list jsstring :=
  match s with
  | [] => [rev piece]
  | c :: rest =>
      if (c =? sep)%N then rev piece :: splitOn sep [] rest
      else splitOn sep (c :: piece) rest
  end.

(** [String.prototype.startsWith] *)
Fixpoint startsWith (s prefix : jsstring) : bool :=
  match prefix, s with
  | [], _ => true
  | p :: prefix', c :: s' => (c =? p)%N && startsWith s' prefix'
  | _ :: _, [] => false
  end.

(** [String.prototype.includes]: the search string occurs at some position. *)
Fixpoint includes (s search : jsstring) : bool :=
  startsWith s search ||
  match s with
  | [] => false
  | _ :: s' => includes s' search
  end.

(** ** Values *)

Inductive jsval :=
| JUndefined
| JNull
| JBool (b : bool)
| JNum (z : Z)
| JStr (s : jsstring).

Global Instance jsval_eq_dec : EqDecision jsval.
Proof. solve_decision. Defined.

(** [ToBoolean] *)
Definition truthy (v : jsval) : bool :=
  match v with
  | JUndefined | JNull => false
  | JBool b => b
  | JNum z => negb (z =? 0)%Z
  | JStr s => nonEmpty s
  end.

(** [a === b] *)
Definition strictEq (a b : jsval) : bool := bool_decide (a = b).

(** [a || b] *)
Definition jsOr (a b : jsval) : jsval := if truthy a then a else b.

(** ** Exceptions *)

Inductive error := TypeError.

Inductive result (A : Type) :=
| Ok (a : A)
| Throw (e : error).
Arguments Ok {A} a.
Arguments Throw {A} e.

Definition rbind {A B} (r : result A) (f : A → result B) : result B :=
  match r with
  | Ok a => f a
  | Throw e => Throw e
  end.

(** ** The tokenizer *)

(** [splitByDelimiters(str)]: a falsy argument gives the empty array; a
    string is split and the pieces that are blank are dropped; any other
    value has no [split] method. *)
Definition splitByDelimiters (str : jsval) : result (list jsstring) :=
  if negb (truthy str) then Ok []
  else match str with
       | JStr s =>
           Ok (List.filter (λ item, nonEmpty (trim item)) (split_regex s))
       | _ => Throw TypeError
       end.

(** ** Objects and the heap *)

Abbreviation loc := nat.

(** An entry of [connections]: [{ id, score }]. A score is a sum of at most
    as many small weights as there are tokens, far below 2^53, so the
    arithmetic on numbers is the arithmetic on integers. *)
Record Connection := mkConnection {
  c_id : jsval;
  c_score : Z
}.

(** [interface Researcher]. The field values are whatever the parser
    produced; [connections] is absent until the graph builder has run. *)
Record Researcher := mkResearcher {
  r_id : jsval;
  r_name : jsval;
  r_affiliation : jsval;
  r_program : jsval;
  r_theme : jsval;
  r_field : jsval;
  r_keywords : jsval;
  r_keytechnology : jsval;
  r_connections : option (list Connection)
}.

Definition withConnections (r : Researcher) (c : list Connection) : Researcher :=
  {| r_id := r_id r; r_name := r_name r; r_affiliation := r_affiliation r;
     r_program := r_program r; r_theme := r_theme r; r_field := r_field r;
     r_keywords := r_keywords r; r_keytechnology := r_keytechnology r;
     r_connections := Some c |}.

(** The three kinds of object the functions are handed: a researcher
    record, an array of references to records, and a criteria object with
    its own enumerable properties. *)
Inductive object :=
| ObjResearcher (r : Researcher)
| ObjArray (elems : list loc)
| ObjFilters (props : gmap string jsval).

Abbreviation heap := (gmap loc object).

(** ** Computations: a heap is threaded, an exception ends the run and
    leaves the heap as it was when it was raised *)

Definition M (A : Type) : Type := heap → result A * heap.

Definition ret {A} (a : A) : M A := λ h, (Ok a, h).

Definition bind {A B} (m : M A) (f : A → M B) : M B :=
  λ h, match m h with
       | (Ok a, h') => f a h'
       | (Throw e, h') => (Throw e, h')
       end.

Definition liftR {A} (r : result A) : M A := λ h, (r, h).

Notation "'let*' x ':=' m 'in' k" := (bind m (λ x, k))
  (at level 10, x name, m at level 100, k at level 200).
Notation "'let?' x ':=' r 'in' k" := (rbind r (λ x, k))
  (at level 10, x name, r at level 100, k at level 200).

(** Reading through a reference that does not hold an object of the
    expected kind is the [TypeError] of a property access on [undefined]. *)
Definition getArray (l : loc) : M (list loc) :=
  λ h, match h !! l with
       | Some (ObjArray elems) => (Ok elems, h)
       | _ => (Throw TypeError, h)
       end.

Definition getField (l : loc) (f : Researcher → jsval) : M jsval :=
  λ h, match h !! l with
       | Some (ObjResearcher r) => (Ok (f r), h)
       | _ => (Throw TypeError, h)
       end.

(** [researcher.connections = c] *)
Definition setConnections (l : loc) (c : list Connection) : M unit :=
  λ h, match h !! l with
       | Some (ObjResearcher r) =>
           (Ok (), <[l := ObjResearcher (withConnections r c)]> h)
       | _ => (Throw TypeError, h)
       end.

(** [filters.key]: a missing property reads as [undefined]. *)
Definition getFilter (l : loc) (key : string) : M jsval :=
  λ h, match h !! l with
       | Some (ObjFilters props) => (Ok (default JUndefined (props !! key)), h)
       | _ => (Throw TypeError, h)
       end.

(** [Object.keys(filters).length] *)
Definition countKeys (l : loc) : M nat :=
  λ h, match h !! l with
       | Some (ObjFilters props) => (Ok (size props), h)
       | _ => (Throw TypeError, h)
       end.

(** A new array at an address not in use. *)
Definition allocArray (elems : list loc) : M loc :=
  λ h, let l := fresh (dom h) in (Ok l, <[l := ObjArray elems]> h).

(** [array.forEach(callback)] *)
Fixpoint forEach {A} (l : list A) (callback : A → M unit) : M unit :=
  match l with
  | [] => ret ()
  | x :: l' => let* _ := callback x in forEach l' callback
  end.

(** [array.forEach(callback)] where the callback updates a local variable
    of the enclosing function, here passed along as [acc]. *)
Fixpoint forEachAcc {A S} (l : list A) (callback : S → A → M S) (acc : S) : M S :=
  match l with
  | [] => ret acc
  | x :: l' => let* acc' := callback acc x in forEachAcc l' callback acc'
  end.

(** [array.filter(callback)], without the allocation of the result. *)
Fixpoint filterM (l : list loc) (callback : loc → M bool) : M (list loc) :=
  match l with
  | [] => ret []
  | x :: l' =>
      let* keep := callback x in
      let* rest := filterM l' callback in
      ret (if keep then x :: rest else rest)
  end.

(** ** Sorting

    [Array.prototype.sort] is stable, and with a consistent comparator the
    stable sorted arrangement of an array is unique; insertion from the
    right computes it. [x] goes before the first [y] with
    [comparefn x y <= 0]. *)
Fixpoint insertSorted {A} (comparefn : A → A → Z) (x : A) (l : list A) : list A :=
  match l with
  | [] => [x]
  | y :: l' =>
      if (comparefn x y <=? 0)%Z then x :: l
      else y :: insertSorted comparefn x l'
  end.

Definition sort {A} (comparefn : A → A → Z) (l : list A) : list A :=
  foldr (insertSorted comparefn) [] l.

(** ** The relevance graph builder *)

(** [array.includes(tag)] on an array of strings *)
Definition arrayIncludes (tags : list jsstring) (tag : jsstring) : bool :=
  bool_decide (tag ∈ tags).

(** One of the four scoring loops:
    [mine.forEach(tag => { if (tag && others.includes(tag)) score += weight })] *)
Definition addMatches (weight : Z) (mine others : list jsstring) (score : Z) : Z :=
  fold_left
    (λ score tag,
       if nonEmpty tag && arrayIncludes others tag then (score + weight)%Z
       else score)
    mine score.

(** The score of one pair, from the token lists of both sides: fields 3,
    themes 2, keywords 1, technologies 1. The program lists are split by the
    caller and not read. *)
Definition pairScore (keywords keytechnology fields themes : list jsstring)
    (otherKeywords otherKeytechnology otherFields otherThemes : list jsstring) : Z :=
  let score := 0%Z in
  let score := addMatches 3 fields otherFields score in
  let score := addMatches 2 themes otherThemes score in
  let score := addMatches 1 keywords otherKeywords score in
  let score := addMatches 1 keytechnology otherKeytechnology score in
  score.

(** The body of the inner [forEach]; [connections] is the local array. *)
Definition visitOther (researcher : loc)
    (keywords keytechnology fields themes : list jsstring)
    (connections : list Connection) (otherResearcher : loc)
  : M (list Connection) :=
  let* rid := getField researcher r_id in
  let* oid := getField otherResearcher r_id in
  if strictEq rid oid then ret connections
  else
    let* v := getField otherResearcher r_keywords in
    let* otherKeywords := liftR (splitByDelimiters v) in
    let* v := getField otherResearcher r_keytechnology in
    let* otherKeytechnology := liftR (splitByDelimiters v) in
    let* v := getField otherResearcher r_field in
    let* otherFields := liftR (splitByDelimiters v) in
    let* v := getField otherResearcher r_theme in
    let* otherThemes := liftR (splitByDelimiters v) in
    let* v := getField otherResearcher r_program in
    let* otherPrograms := liftR (splitByDelimiters v) in
    let score :=
      pairScore keywords keytechnology fields themes
                otherKeywords otherKeytechnology otherFields otherThemes in
    if (0 <? score)%Z then
      let* oid := getField otherResearcher r_id in
      ret (connections ++ [mkConnection oid score])
    else ret connections.

(** [(a, b) => b.score - a.score] *)
Definition byScoreDesc (a b : Connection) : Z := (c_score b - c_score a)%Z.

(** The body of the outer [forEach]. *)
Definition visitResearcher (elems : list loc) (researcher : loc) : M unit :=
  let* v := getField researcher r_keywords in
  let* keywords := liftR (splitByDelimiters v) in
  let* v := getField researcher r_keytechnology in
  let* keytechnology := liftR (splitByDelimiters v) in
  let* v := getField researcher r_field in
  let* fields := liftR (splitByDelimiters v) in
  let* v := getField researcher r_theme in
  let* themes := liftR (splitByDelimiters v) in
  let* v := getField researcher r_program in
  let* programs := liftR (splitByDelimiters v) in
  let* connections :=
    forEachAcc elems (visitOther researcher keywords keytechnology fields themes) [] in
  setConnections researcher (sort byScoreDesc connections).

Definition calculateConnections (researchers : loc) : M unit :=
  let* elems := getArray researchers in
  forEach elems (visitResearcher elems).

(** ** The predicate evaluator *)

Definition AND_MARKER : jsstring := utf16 "AND:".

Definition matchField (fieldValue filterValue : jsval) : result bool :=
  if negb (truthy filterValue) || negb (truthy fieldValue)
  then Ok (negb (truthy filterValue))
  else
    let? fieldValues := splitByDelimiters fieldValue in
    match filterValue with
    | JStr fv =>
        if startsWith fv AND_MARKER then
          let filterValues := splitOn PIPE [] (drop 4 fv) in
          Ok (forallb (λ value, arrayIncludes fieldValues value) filterValues)
        else
          let filterValues := splitOn PIPE [] fv in
          Ok (existsb (λ value, arrayIncludes fieldValues value) filterValues)
    | _ => Throw TypeError
    end.

(** ** The record filter *)

Section record_filter.
(** [String.prototype.toLowerCase], the Unicode lower-casing of a string. *)
Variable toLowerCase : jsstring → jsstring.

(** [v && v.toLowerCase().includes(searchText.toLowerCase())], as the
    truth value the caller tests. *)
Definition textIncludes (v searchText : jsval) : result bool :=
  if truthy v then
    match v, searchText with
    | JStr s, JStr q => Ok (includes (toLowerCase s) (toLowerCase q))
    | _, _ => Throw TypeError
    end
  else Ok false.

(** [filters.key && !matchField(researcher.attr, filters.key)]: the record
    is read only when the criterion is truthy. *)
Definition failsCriterion (filters researcher : loc) (key : string)
    (attr : Researcher → jsval) : M bool :=
  let* criterion := getFilter filters key in
  if truthy criterion then
    let* v := getField researcher attr in
    let* m := liftR (matchField v criterion) in
    ret (negb m)
  else ret false.

(** The free-text test, run when [filters.theme || filters.affiliation]
    is truthy: [searchText] is the first truthy one of the two. *)
Definition textMatch (researcher : loc) (searchText : jsval) : M bool :=
  let* v := getField researcher r_name in
  let* inName := liftR (textIncludes v searchText) in
  if inName then ret true
  else
    let* v := getField researcher r_theme in
    let* inTheme := liftR (textIncludes v searchText) in
    if inTheme then ret true
    else
      let* v := getField researcher r_affiliation in
      liftR (textIncludes v searchText).

(** The callback of [researchers.filter]. *)
Definition keepResearcher (filters researcher : loc) : M bool :=
  let* th := getFilter filters "theme" in
  let* af := getFilter filters "affiliation" in
  let* textOk :=
    if truthy (jsOr th af)
    then textMatch researcher (jsOr (jsOr th af) (JStr []))
    else ret true in
  if negb textOk then ret false
  else
    let* fails := failsCriterion filters researcher "field" r_field in
    if fails then ret false
    else
      let* fails := failsCriterion filters researcher "keyword" r_keywords in
      if fails then ret false
      else
        let* fails :=
          failsCriterion filters researcher "keytechnology" r_keytechnology in
        if fails then ret false
        else
          let* fails := failsCriterion filters researcher "program" r_program in
          if fails then ret false
          else ret true.

Definition filterResearchers (researchers filters : loc) : M loc :=
  let* n := countKeys filters in
  if (n =? 0)%nat then ret researchers
  else
    let* elems := getArray researchers in
    let* kept := filterM elems (keepResearcher filters) in
    allocArray kept.
End record_filter.

(** ** Vocabulary of the statements *)

(** *** Splitting on the delimiters, as a relation

    A plain string has no occurrence of a delimiter; a separator is a wide
    comma, or a comma together with all the whitespace that directly follows
    it; [Pieces s ps] cuts [s] at its separators, left to right. *)
Definition plain (p : jsstring) : Prop :=
  Forall (λ c, c ≠ COMMA ∧ c ≠ WIDE_COMMA) p.

Inductive Separator : jsstring → jsstring → Prop :=
| Separator_comma ws rest :
    Forall (λ c, isWhiteSpace c = true) ws →
    (∀ c, head rest = Some c → isWhiteSpace c = false) →
    Separator (COMMA :: ws) rest
| Separator_wide rest :
    Separator [WIDE_COMMA] rest.

Inductive Pieces : jsstring → list jsstring → Prop :=
| Pieces_last p :
    plain p → Pieces p [p]
| Pieces_more p d rest ps :
    plain p → Separator d rest → Pieces rest ps →
    Pieces (p ++ d ++ rest) (p :: ps).

(** The pieces that are kept, not trimmed. *)
Definition keptPieces (ps : list jsstring) : list jsstring :=
  List.filter (λ p, nonEmpty (trim p)) ps.

(** The pieces trimmed, the empty ones left out. *)
Definition trimmedPieces (ps : list jsstring) : list jsstring :=
  List.filter nonEmpty (trim <$> ps).

(** *** Scores *)

(** The tokens of an attribute value; nothing when it cannot be split. *)
Definition tokens (v : jsval) : list jsstring :=
  match splitByDelimiters v with
  | Ok l => l
  | Throw _ => []
  end.

(** A value the tokenizer accepts: a string, or a falsy value. *)
Definition splittable (v : jsval) : Prop :=
  ∃ l, splitByDelimiters v = Ok l.

(** A string, or absent. *)
Definition stringOrAbsent (v : jsval) : Prop :=
  v = JUndefined ∨ ∃ s, v = JStr s.

(** The score the builder computes for the ordered pair [(a, b)]. *)
Definition scoreToward (a b : Researcher) : Z :=
  pairScore (tokens (r_keywords a)) (tokens (r_keytechnology a))
            (tokens (r_field a)) (tokens (r_theme a))
            (tokens (r_keywords b)) (tokens (r_keytechnology b))
            (tokens (r_field b)) (tokens (r_theme b)).

(** The score contributed by one attribute of weight [w]. *)
Definition attributeScore (w : Z) (attr : Researcher → jsval) (a b : Researcher) : Z :=
  addMatches w (tokens (attr a)) (tokens (attr b)) 0.

(** The number of tags of [mine], counted with repetition, that are
    members of [others]. *)
Definition sharedCount (mine others : list jsstring) : Z :=
  Z.of_nat (length (filter (λ t, t ∈ others) mine)).

(** How many times [t] occurs in a token list, and the list without it. *)
Definition occurrences (t : jsstring) (l : list jsstring) : Z :=
  Z.of_nat (length (filter (λ x, x = t) l)).

Definition without (t : jsstring) (l : list jsstring) : list jsstring :=
  filter (λ x, x ≠ t) l.

(** The weighted sum of the claim: 3 per field tag, 2 per theme tag, 1 per
    keyword, 1 per technology; the program lists do not occur. *)
Definition relevance (a b : Researcher) : Z :=
  (3 * sharedCount (tokens (r_field a)) (tokens (r_field b))
   + 2 * sharedCount (tokens (r_theme a)) (tokens (r_theme b))
   + 1 * sharedCount (tokens (r_keywords a)) (tokens (r_keywords b))
   + 1 * sharedCount (tokens (r_keytechnology a)) (tokens (r_keytechnology b)))%Z.

(** No token list of the record has a repeated tag. *)
Definition noRepeats (r : Researcher) : Prop :=
  NoDup (tokens (r_field r)) ∧ NoDup (tokens (r_theme r)) ∧
  NoDup (tokens (r_keywords r)) ∧ NoDup (tokens (r_keytechnology r)) ∧
  NoDup (tokens (r_program r)).

(** The entry the builder pushes for [b] while working on [a], if any. *)
Definition edge (a b : Researcher) : option Connection :=
  if strictEq (r_id a) (r_id b) then None
  else if (0 <? scoreToward a b)%Z then Some (mkConnection (r_id b) (scoreToward a b))
  else None.

(** The local array [connections] at the end of the inner loop, and after
    the sort. *)
Definition pushed (a : Researcher) (others : list Researcher) : list Connection :=
  omap (edge a) others.

Definition connectionsOf (a : Researcher) (others : list Researcher) : list Connection :=
  sort byScoreDesc (pushed a others).

(** The same entries with the weighted sum of the claim as score. *)
Definition relevantPeers (a : Researcher) (others : list Researcher) : list Connection :=
  omap (λ b, if strictEq (r_id a) (r_id b) then None
             else if (0 <? relevance a b)%Z
                  then Some (mkConnection (r_id b) (relevance a b))
                  else None) others.

(** *** Heaps *)

(** The records the array elements refer to. *)
Definition recordsAt (h : heap) (elems : list loc) (rs : list Researcher) : Prop :=
  Forall2 (λ l r, h !! l = Some (ObjResearcher r)) elems rs.

(** The five attributes the builder splits can be split. *)
Definition readable (r : Researcher) : Prop :=
  splittable (r_keywords r) ∧ splittable (r_keytechnology r) ∧
  splittable (r_field r) ∧ splittable (r_theme r) ∧ splittable (r_program r).

(** Every field but [connections] is a string or absent. *)
Definition wellTyped (r : Researcher) : Prop :=
  stringOrAbsent (r_id r) ∧ stringOrAbsent (r_name r) ∧
  stringOrAbsent (r_affiliation r) ∧ stringOrAbsent (r_program r) ∧
  stringOrAbsent (r_theme r) ∧ stringOrAbsent (r_field r) ∧
  stringOrAbsent (r_keywords r) ∧ stringOrAbsent (r_keytechnology r).

(** Two records differ at most in [connections]. *)
Definition sameData (a b : Researcher) : Prop :=
  withConnections a [] = withConnections b [].

(** The array elements refer to records with the data of [rs]. *)
Definition dataAt (h : heap) (elems : list loc) (rs : list Researcher) : Prop :=
  Forall2 (λ l r, ∃ r', h !! l = Some (ObjResearcher r') ∧ sameData r r') elems rs.

(** What the builder leaves at an address it has visited. *)
Definition annotate (rs : list Researcher) (o : object) : object :=
  match o with
  | ObjResearcher r => ObjResearcher (withConnections r (connectionsOf r rs))
  | _ => o
  end.

(** The heap after the builder has visited the addresses in [visited]. *)
Definition graphHeap (h : heap) (rs : list Researcher) (visited : list loc) : heap :=
  map_imap (λ l o, Some (if bool_decide (l ∈ visited) then annotate rs o else o)) h.

(** *** Expressions *)

(** The pieces of a pipe-delimited list: joined with the separator they
    give the expression back, and none of them contains the separator. *)
Fixpoint joinWith (sep : N) (ps : list jsstring) : jsstring :=
  match ps with
  | [] => []
  | [p] => p
  | p :: ps' => p ++ sep :: joinWith sep ps'
  end.

Definition PipeList (e : jsstring) (xs : list jsstring) : Prop :=
  xs ≠ [] ∧ joinWith PIPE xs = e ∧ Forall (λ x, PIPE ∉ x) xs.

(** *** Sample records *)

(** A record with the given id and attribute strings, no name and no
    affiliation, not yet visited by the builder. *)
Definition sample (id field theme keywords keytechnology program : string)
  : Researcher :=
  {| r_id := JStr (utf16 id); r_name := JUndefined; r_affiliation := JUndefined;
     r_program := JStr (utf16 program); r_theme := JStr (utf16 theme);
     r_field := JStr (utf16 field); r_keywords := JStr (utf16 keywords);
     r_keytechnology := JStr (utf16 keytechnology); r_connections := None |}.

(** *** Order of the entries *)

(** The earlier entry has at least the score of the later one. *)
Definition scoreNotBelow (a b : Connection) : Prop := (c_score b ≤ c_score a)%Z.

(** The entries of score [k]. *)
Definition withScore (k : Z) (conns : list Connection) : list Connection :=
  filter (λ e, c_score e = k) conns.

(** *** Criteria *)

Definition criteriaKeys : list string :=
  ["field"; "keyword"; "keytechnology"; "program"; "theme"; "affiliation"].

(** The value of a criterion: [undefined] when the key is missing. *)
Definition criterionOf (props : gmap string jsval) (key : string) : jsval :=
  default JUndefined (props !! key).

(** A criterion is present when it is truthy: a non-empty string. *)
Definition present (v : jsval) : Prop := truthy v = true.

(** Every value of the criteria object is a string or [undefined]. *)
Definition typedCriteria (props : gmap string jsval) : Prop :=
  ∀ key, stringOrAbsent (criterionOf props key).

(** The record an address holds, if it holds one. *)
Definition recordOf (h : heap) (l : loc) : option Researcher :=
  match h !! l with
  | Some (ObjResearcher r) => Some r
  | _ => None
  end.

(** What a run of the filter returns: the elements of the returned array,
    or the exception. *)
Definition outcome (x : result loc * heap) : result (list loc) :=
  match x with
  | (Ok out, h') =>
      match h' !! out with
      | Some (ObjArray elems) => Ok elems
      | _ => Throw TypeError
      end
  | (Throw e, _) => Throw e
  end.

(** [array.filter] with a callback that reads but does not write. *)
Fixpoint filterR (l : list loc) (callback : loc → result bool) : result (list loc) :=
  match l with
  | [] => Ok []
  | x :: l' =>
      let? keep := callback x in
      let? rest := filterR l' callback in
      Ok (if keep then x :: rest else rest)
  end.

Section filter_vocabulary.
Variable toLowerCase : jsstring → jsstring.

(** [v] is a string that contains [q] when both are lower-cased. *)
Definition containsCI (v : jsval) (q : jsstring) : Prop :=
  ∃ s pre post, v = JStr s ∧ toLowerCase s = pre ++ toLowerCase q ++ post.

(** The free-text check: active when a theme or an affiliation criterion
    is present, with the first present one of the two as the query. *)
Definition passesFreeText (props : gmap string jsval) (r : Researcher) : Prop :=
  present (criterionOf props "theme") ∨ present (criterionOf props "affiliation") →
  ∃ q, jsOr (criterionOf props "theme") (criterionOf props "affiliation") = JStr q ∧
       (containsCI (r_name r) q ∨ containsCI (r_theme r) q
        ∨ containsCI (r_affiliation r) q).

(** An attribute check: when the criterion is present, the predicate
    evaluator accepts the raw attribute. *)
Definition passesAttribute (props : gmap string jsval) (key : string)
    (attr : Researcher → jsval) (r : Researcher) : Prop :=
  present (criterionOf props key) →
  matchField (attr r) (criterionOf props key) = Ok true.

Definition Passes (props : gmap string jsval) (r : Researcher) : Prop :=
  passesFreeText props r ∧
  passesAttribute props "field" r_field r ∧
  passesAttribute props "keyword" r_keywords r ∧
  passesAttribute props "keytechnology" r_keytechnology r ∧
  passesAttribute props "program" r_program r.

(** The callback of the filter as a function of the criteria and of the
    record at the address, for the proofs: it reads and never writes. *)
Definition fieldOf (o : option Researcher) (attr : Researcher → jsval) : result jsval :=
  match o with
  | Some r => Ok (attr r)
  | None => Throw TypeError
  end.

Definition failsPure (criterion : jsval) (o : option Researcher)
    (attr : Researcher → jsval) : result bool :=
  if truthy criterion then
    let? v := fieldOf o attr in
    let? m := matchField v criterion in
    Ok (negb m)
  else Ok false.

Definition textMatchPure (o : option Researcher) (searchText : jsval) : result bool :=
  let? v := fieldOf o r_name in
  let? inName := textIncludes toLowerCase v searchText in
  if inName then Ok true
  else
    let? v := fieldOf o r_theme in
    let? inTheme := textIncludes toLowerCase v searchText in
    if inTheme then Ok true
    else
      let? v := fieldOf o r_affiliation in
      textIncludes toLowerCase v searchText.

Definition keepPure (crit : string → jsval) (o : option Researcher) : result bool :=
  let th := crit "theme" in
  let af := crit "affiliation" in
  let? textOk :=
    if truthy (jsOr th af)
    then textMatchPure o (jsOr (jsOr th af) (JStr []))
    else Ok true in
  if negb textOk then Ok false
  else
    let? fails := failsPure (crit "field") o r_field in
    if fails then Ok false
    else
      let? fails := failsPure (crit "keyword") o r_keywords in
      if fails then Ok false
      else
        let? fails := failsPure (crit "keytechnology") o r_keytechnology in
        if fails then Ok false
        else
          let? fails := failsPure (crit "program") o r_program in
          if fails then Ok false
          else Ok true.
End filter_vocabulary.

(** A lower-casing of the ASCII letters, for the examples. *)
Definition asciiLower (s : jsstring) : jsstring :=
  (λ c, if (65 <=? c)%N && (c <=? 90)%N then (c + 32)%N else c) <$> s.

(** *** Sample heaps *)

(** An array at address 0 of the records at addresses 1, 2, ... *)
Definition heapOf (rs : list Researcher) : heap :=
  <[0 := ObjArray (seq 1 (length rs))]>
    (list_to_map (zip (seq 1 (length rs)) (ObjResearcher <$> rs))).

(** The [connections] of the record at an address. *)
Definition connectionsAt (h : heap) (l : loc) : option (list Connection) :=
  match h !! l with
  | Some (ObjResearcher r) => r_connections r
  | _ => None
  end.

(** The heap a run leaves. *)
Definition heapAfter {A} (x : result A * heap) : heap := snd x.

(** A record of Kumamoto and a record of Tokyo, in an array at address 0
    with the criteria [{ affiliation: "kuma" }] at address 9. *)
Definition kumamotoRecords : list Researcher :=
  [ {| r_id := JStr (utf16 "1"); r_name := JStr (utf16 "A");
       r_affiliation := JStr (utf16 "Kumamoto Univ.");
       r_program := JUndefined; r_theme := JStr (utf16 "T");
       r_field := JStr (utf16 "X"); r_keywords := JUndefined;
       r_keytechnology := JUndefined; r_connections := None |};
    {| r_id := JStr (utf16 "2"); r_name := JStr (utf16 "B");
       r_affiliation := JStr (utf16 "Tokyo Univ.");
       r_program := JUndefined; r_theme := JStr (utf16 "T");
       r_field := JStr (utf16 "X"); r_keywords := JUndefined;
       r_keytechnology := JUndefined; r_connections := None |} ].

Definition kumamotoHeap : heap :=
  <[9 := ObjFilters {[ "affiliation" := JStr (utf16 "kuma") ]}]>
    (heapOf kumamotoRecords).

(** No criterion of the six is present. *)
Definition noConstraint (crit : string → jsval) : Prop :=
  ∀ key, key ∈ criteriaKeys → truthy (crit key) = false.

(** The records [rs] in an array at address 0 and the criteria [props] at
    address 9. *)
Definition filterHeap (rs : list Researcher) (props : gmap string jsval) : heap :=
  <[9 := ObjFilters props]> (heapOf rs).

(** A computation that gives the heap back as it found it. *)
Definition readOnly {A} (m : M A) : Prop := ∀ h, snd (m h) = h.

(** Two criterion values constrain alike: they are equal, or both falsy. *)
Definition sameConstraint (c1 c2 : jsval) : Prop :=
  c1 = c2 ∨ (truthy c1 = false ∧ truthy c2 = false).

(** ** The unique values of an attribute *)

(** [keyof Researcher] *)
Inductive fieldKey :=
| KId | KName | KAffiliation | KProgram | KTheme | KField | KKeywords
| KKeytechnology | KConnections.

(** [researcher[field]]: a primitive value, or the [connections] array. *)
Inductive property :=
| PValue (v : jsval)
| PArray (c : list Connection).

Definition propertyOf (field : fieldKey) (r : Researcher) : property :=
  match field with
  | KId => PValue (r_id r)
  | KName => PValue (r_name r)
  | KAffiliation => PValue (r_affiliation r)
  | KProgram => PValue (r_program r)
  | KTheme => PValue (r_theme r)
  | KField => PValue (r_field r)
  | KKeywords => PValue (r_keywords r)
  | KKeytechnology => PValue (r_keytechnology r)
  | KConnections =>
      match r_connections r with
      | Some c => PArray c
      | None => PValue JUndefined
      end
  end.

Definition getProperty (l : loc) (field : fieldKey) : M property :=
  λ h, match h !! l with
       | Some (ObjResearcher r) => (Ok (propertyOf field r), h)
       | _ => (Throw TypeError, h)
       end.

(** [['keywords', 'keytechnology', 'field', 'program', 'theme'].includes(field)] *)
Definition isMultiValued (field : fieldKey) : bool :=
  match field with
  | KKeywords | KKeytechnology | KField | KProgram | KTheme => true
  | _ => false
  end.

(** [values.add(x)] on a [Set], kept as the list of its elements in the
    order they were first added. *)
Definition setAdd (x : jsstring) (values : list jsstring) : list jsstring :=
  if bool_decide (x ∈ values) then values else values ++ [x].

(** [items.forEach(item => { if (item) values.add(item.trim()) })] *)
Definition addTrimmed (items values : list jsstring) : list jsstring :=
  fold_left
    (λ values item, if nonEmpty item then setAdd (trim item) values else values)
    items values.

(** The body of the [forEach] of [getUniqueValues]; [values] is the set.
    The property is read once: nothing writes between the reads of the
    source. *)
Definition collectValues (field : fieldKey) (values : list jsstring)
    (researcher : loc) : M (list jsstring) :=
  let* p := getProperty researcher field in
  match p with
  | PValue (JStr s) =>
      if isMultiValued field then
        let* items := liftR (splitByDelimiters (JStr s)) in
        ret (addTrimmed items values)
      else if truthy (JStr s) then ret (setAdd (trim s) values)
      else ret values
  | _ => ret values
  end.

(** The order of [<] on strings: by code units, a proper prefix first. *)
Fixpoint stringLt (x y : jsstring) : bool :=
  match x, y with
  | _, [] => false
  | [], _ :: _ => true
  | a :: x', b :: y' => (a <? b)%N || ((a =? b)%N && stringLt x' y')
  end.

(** The comparison [sort()] makes without a comparator, on strings. *)
Definition compareStrings (x y : jsstring) : Z :=
  if stringLt x y then (-1)%Z else if stringLt y x then 1%Z else 0%Z.

Definition getUniqueValues (researchers : loc) (field : fieldKey)
  : M (list jsstring) :=
  let* elems := getArray researchers in
  let* values := forEachAcc elems (collectValues field) [] in
  ret (sort compareStrings values).

(** The values one record adds: the trimmed tokens of a string attribute
    that is multi-valued, the trimmed string itself when it is not empty
    for the other attributes. *)
Definition valuesOf (field : fieldKey) (r : Researcher) : list jsstring :=
  match propertyOf field r with
  | PValue (JStr s) =>
      if isMultiValued field then trim <$> tokens (JStr s)
      else if nonEmpty s then [trim s] else []
  | _ => []
  end.

(** The options the filter panel offers:
    [["", ...values].filter(v => v.trim() !== "")] *)
Definition filterOptions (values : list jsstring) : list jsstring :=
  List.filter (λ v, nonEmpty (trim v)) ([] :: values).

(** Strictly ascending in the order of strings. *)
Definition ascending (l : list jsstring) : Prop :=
  StronglySorted (λ x y, stringLt x y = true) l.

(** ** The filter panel *)

Inductive FilterMode := AND | OR.

(** [keyof FilterOption] *)
Inductive filterKey := FField | FKeyword | FKeytechnology | FProgram.

(** [interface FilterOption]: the options ticked, per attribute. *)
Record FilterOption := mkFilterOption {
  fo_field : list jsstring;
  fo_keyword : list jsstring;
  fo_keytechnology : list jsstring;
  fo_program : list jsstring
}.

(** [interface FilterModes] *)
Record FilterModes := mkFilterModes {
  fm_field : FilterMode;
  fm_keyword : FilterMode;
  fm_keytechnology : FilterMode;
  fm_program : FilterMode
}.

(** [prev[field]] *)
Definition selectedOf (field : filterKey) (prev : FilterOption) : list jsstring :=
  match field with
  | FField => fo_field prev
  | FKeyword => fo_keyword prev
  | FKeytechnology => fo_keytechnology prev
  | FProgram => fo_program prev
  end.

(** [{ ...prev, [field]: l }] *)
Definition withSelected (field : filterKey) (l : list jsstring) (prev : FilterOption)
  : FilterOption :=
  match field with
  | FField => mkFilterOption l (fo_keyword prev) (fo_keytechnology prev) (fo_program prev)
  | FKeyword => mkFilterOption (fo_field prev) l (fo_keytechnology prev) (fo_program prev)
  | FKeytechnology => mkFilterOption (fo_field prev) (fo_keyword prev) l (fo_program prev)
  | FProgram => mkFilterOption (fo_field prev) (fo_keyword prev) (fo_keytechnology prev) l
  end.

(** The state update of [handleMultiFilterChange(field, option)]: an option
    that is ticked is removed, one that is not is added at the end. *)
Definition handleMultiFilterChange (field : filterKey) (option : jsstring)
    (prev : FilterOption) : FilterOption :=
  let current := selectedOf field prev in
  if arrayIncludes current option then
    withSelected field
      (List.filter (λ item, negb (bool_decide (item = option))) current) prev
  else
    withSelected field (current ++ [option]) prev.

(** One value of [convertToLegacyFilter]: the ticked options joined with
    "|", after "AND:" in the AND mode; the empty string when none is
    ticked. [joinWith PIPE] is [Array.prototype.join("|")]. *)
Definition legacyValue (mode : FilterMode) (selected : list jsstring) : jsstring :=
  if (0 <? length selected)%nat then
    match mode with
    | AND => AND_MARKER ++ joinWith PIPE selected
    | OR => joinWith PIPE selected
    end
  else [].

(** The entries of the object [convertToLegacyFilter] returns, in order. *)
Definition convertToLegacyFilter (multiFilters : FilterOption)
    (filterModes : FilterModes) (searchText : jsstring) : list (string * jsstring) :=
  [ ("field", legacyValue (fm_field filterModes) (fo_field multiFilters));
    ("keyword", legacyValue (fm_keyword filterModes) (fo_keyword multiFilters));
    ("keytechnology",
      legacyValue (fm_keytechnology filterModes) (fo_keytechnology multiFilters));
    ("program", legacyValue (fm_program filterModes) (fo_program multiFilters)) ]
  ++ (if nonEmpty searchText
      then [("theme", searchText); ("affiliation", searchText)]
      else []).

(** [Object.fromEntries(Object.entries(legacyFilters).filter(([_, v]) => v !== ""))]:
    the keys of the entries are distinct, so no entry overrides another. *)
Definition cleanFilters (entries : list (string * jsstring)) : gmap string jsval :=
  list_to_map
    ((λ e, (e.1, JStr e.2)) <$> List.filter (λ e, nonEmpty e.2) entries).

(** The criteria object the panel hands to [onFilterChange]. *)
Definition panelCriteria (multiFilters : FilterOption) (filterModes : FilterModes)
    (searchText : jsstring) : gmap string jsval :=
  cleanFilters (convertToLegacyFilter multiFilters filterModes searchText).

(** ** Selecting a researcher (the page) *)

(** [researcher.connections]: the array, or [undefined]. *)
Definition getConnections (l : loc) : M (option (list Connection)) :=
  λ h, match h !! l with
       | Some (ObjResearcher r) => (Ok (r_connections r), h)
       | _ => (Throw TypeError, h)
       end.

(** [array.find(r => r.id === id)] *)
Fixpoint findById (elems : list loc) (id : jsval) : M (option loc) :=
  match elems with
  | [] => ret None
  | r :: elems' =>
      let* rid := getField r r_id in
      if strictEq rid id then ret (Some r) else findById elems' id
  end.

(** [array.map(callback)], without the allocation of the result. *)
Fixpoint mapM {A B} (l : list A) (callback : A → M B) : M (list B) :=
  match l with
  | [] => ret []
  | x :: l' =>
      let* y := callback x in
      let* rest := mapM l' callback in
      ret (y :: rest)
  end.

(** [handleSelectResearcher(id)] of the page, with the array the state
    variable [filteredResearchers] refers to; the result is the array handed
    to [setRelatedResearchers]. [connections.sort(...)] sorts the array of
    the selected record in place. *)
Definition handleSelectResearcher (filteredResearchers : loc) (id : jsval)
  : M (list loc) :=
  let* elems := getArray filteredResearchers in
  let* selectedResearcher := findById elems id in
  match selectedResearcher with
  | None => ret []
  | Some selected =>
      let* connections := getConnections selected in
      match connections with
      | None => ret []
      | Some c =>
          let sorted := sort byScoreDesc c in
          let* _ := setConnections selected sorted in
          let relatedIds := c_id <$> sorted in
          let* found := mapM relatedIds (findById elems) in
          ret (omap (λ r, r) found)
      end
  end.

(** The id of the record at an address. *)
Definition idAt (h : heap) (l : loc) : option jsval := r_id <$> recordOf h l.

(** The first address of [elems] whose record has the id. *)
Definition firstWithId (h : heap) (elems : list loc) (id : jsval) : option loc :=
  List.find (λ l, bool_decide (idAt h l = Some id)) elems.

(** The records as the builder leaves them. *)
Definition built (rs : list Researcher) : list Researcher :=
  (λ r, withConnections r (connectionsOf r rs)) <$> rs.

(** Three records, the criteria [{ program: "P" }] at address 9, and the
    heap after the builder and then the filter have run: the filtered array
    is at address 10. *)
Definition shownRecords : list Researcher :=
  [sample "1" "X" "" "a,b" "" "P"; sample "2" "" "" "a" "" "Q";
   sample "3" "X" "" "" "" "P"].

Definition shownHeap : heap :=
  heapAfter (filterResearchers asciiLower 0 9
    (heapAfter (calculateConnections 0
      (filterHeap shownRecords {[ "program" := JStr (utf16 "P") ]})))).

(** ** The network view *)

(** A link of the drawing: [{ source, target, value }]. *)
Record Link := mkLink {
  source : jsval;
  target : jsval;
  value : Z
}.

(** [visibleResearcherIds.has(id)]: the set is built from the array of the
    ids and only asked for membership. *)
Definition setHas (ids : list jsval) (id : jsval) : bool := bool_decide (id ∈ ids).

(** The inner [forEach]: an entry of score 2 or more whose peer is shown
    is pushed as a link from [id]. *)
Definition addLinks (visibleResearcherIds : list jsval) (id : jsval)
    (connections : list Connection) (pushedLinks : list Link) : list Link :=
  fold_left
    (λ pushedLinks connection,
       if (2 <=? c_score connection)%Z && setHas visibleResearcherIds (c_id connection)
       then pushedLinks ++ [mkLink id (c_id connection) (c_score connection)]
       else pushedLinks)
    connections pushedLinks.

(** The body of the outer [forEach]; [pushedLinks] is the local array
    [links]. *)
Definition visitNode (visibleResearcherIds : list jsval) (pushedLinks : list Link)
    (researcher : loc) : M (list Link) :=
  let* connections := getConnections researcher in
  match connections with
  | Some c =>
      let* id := getField researcher r_id in
      if setHas visibleResearcherIds id
      then ret (addLinks visibleResearcherIds id c pushedLinks)
      else ret pushedLinks
  | None => ret pushedLinks
  end.

(** The array [links] the drawing is made from: [nodes] are copies of the
    records, and [visibleResearcherIds] the set of their ids. *)
Definition links (researchers : loc) : M (list Link) :=
  let* elems := getArray researchers in
  let* visibleResearcherIds := mapM elems (λ n, getField n r_id) in
  forEachAcc elems (visitNode visibleResearcherIds) [].

(** [researcher.connections?.filter(c => c.score >= 2).length || 0] *)
Definition strongCount (connections : option (list Connection)) : Z :=
  match connections with
  | Some c => Z.of_nat (length (List.filter (λ c, (2 <=? c_score c)%Z) c))
  | None => 0
  end.

(** [connectionCount]: the sum over the records, divided by 2. The sum is
    an integer far below 2^53, so the quotient is the exact rational. *)
Definition connectionCount (researchers : loc) : M QArith_base.Q :=
  let* elems := getArray researchers in
  let* count :=
    forEachAcc elems
      (λ count researcher,
         let* connections := getConnections researcher in
         ret (count + strongCount connections)%Z)
      0%Z in
  ret (QArith_base.Qdiv (QArith_base.inject_Z count) (QArith_base.inject_Z 2)).

(** The links that start at one record. *)
Definition linksFrom (ids : list jsval) (r : Researcher) : list Link :=
  match r_connections r with
  | Some c =>
      if setHas ids (r_id r) then
        (λ e, mkLink (r_id r) (c_id e) (c_score e))
          <$> List.filter (λ e, (2 <=? c_score e)%Z && setHas ids (c_id e)) c
      else []
  | None => []
  end.

(** The number of pairs of records, each pair taken once, whose relevance
    is 2 or more. *)
Fixpoint strongPairs (rs : list Researcher) : nat :=
  match rs with
  | [] => 0
  | r :: rs' => length (List.filter (λ b, (2 <=? relevance r b)%Z) rs') + strongPairs rs'
  end.

(** Two records with entries written by hand: the first has an entry of
    score 3 to the second, one of score 5 to a record that is not in the
    array, and one of score 1. *)
Definition linkedRecords : list Researcher :=
  [ withConnections (sample "1" "" "" "" "" "")
      [ mkConnection (JStr (utf16 "2")) 3; mkConnection (JStr (utf16 "9")) 5;
        mkConnection (JStr (utf16 "2")) 1 ];
    sample "2" "" "" "" "" "" ].

(** The heap after the builder has run on [shownRecords]. *)
Definition builtHeap : heap :=
  heapAfter (calculateConnections 0 (heapOf shownRecords)).

(** The entries of score 2 or more of a record. *)
Definition strongEntries (r : Researcher) : nat :=
  Z.to_nat (strongCount (r_connections r)).

(** ** The loader *)

(** [try { body } catch (error) { handler }] *)
Definition tryCatch {A} (body : M A) (handler : error → M A) : M A :=
  λ h, match body h with
       | (Ok a, h') => (Ok a, h')
       | (Throw e, h') => handler e h'
       end.

Section loader.
(** The fetch of the CSV file and its parse, whatever they do: they end
    with an exception, or with the array [data] of the parsed rows. *)
Variable fetchAndParse : M loc.

(** [loadResearchersData()]; the messages written to the console are left
    out. *)
Definition loadResearchersData : M loc :=
  tryCatch
    (let* data := fetchAndParse in
     let* _ := calculateConnections data in
     ret data)
    (λ error, allocArray []).
End loader.

(** Between two heaps only the [connections] of records have changed. *)
Definition onlyConnections (h h' : heap) : Prop :=
  ∀ l, h' !! l = h !! l ∨
       ∃ r c, h !! l = Some (ObjResearcher r) ∧
              h' !! l = Some (ObjResearcher (withConnections r c)).

(** A computation that writes nothing but [connections]. *)
Definition annotates {A} (m : M A) : Prop := ∀ h, onlyConnections h (snd (m h)).

(** Rows as the parser leaves them with [dynamicTyping]: the keywords of
    the second row are the number 2024. *)
Definition parsedRows : list Researcher :=
  [ sample "1" "X" "" "a" "" "P";
    {| r_id := JNum 2; r_name := JStr (utf16 "B"); r_affiliation := JUndefined;
       r_program := JStr (utf16 "P"); r_theme := JUndefined;
       r_field := JStr (utf16 "X"); r_keywords := JNum 2024;
       r_keytechnology := JUndefined; r_connections := None |} ].

(** ** The panel and the filter together *)

(** [filterModes[field]] *)
Definition modeOf (field : filterKey) (filterModes : FilterModes) : FilterMode :=
  match field with
  | FField => fm_field filterModes
  | FKeyword => fm_keyword filterModes
  | FKeytechnology => fm_keytechnology filterModes
  | FProgram => fm_program filterModes
  end.

(** The attribute of a record that the criterion of a panel key is matched
    against, and the key of that criterion. *)
Definition attributeOf (field : filterKey) : Researcher → jsval :=
  match field with
  | FField => r_field
  | FKeyword => r_keywords
  | FKeytechnology => r_keytechnology
  | FProgram => r_program
  end.

Definition criterionKey (field : filterKey) : string :=
  match field with
  | FField => "field"
  | FKeyword => "keyword"
  | FKeytechnology => "keytechnology"
  | FProgram => "program"
  end.

(** An attribute value satisfies a selection: nothing is ticked, or all
    ticked options (AND), or one of them (OR), are among its tokens. *)
Definition satisfies (mode : FilterMode) (selected : list jsstring) (v : jsval) : Prop :=
  selected = [] ∨
  match mode with
  | AND => ∀ x, x ∈ selected → x ∈ tokens v
  | OR => ∃ x, x ∈ selected ∧ x ∈ tokens v
  end.

(** A selection whose expression can be read back: no option is empty or
    contains "|", and in the OR mode the first does not start with "AND:". *)
Definition encodable (mode : FilterMode) (selected : list jsstring) : Prop :=
  Forall (λ x, x ≠ [] ∧ PIPE ∉ x) selected ∧
  (mode = OR → ∀ x rest, head selected = Some x → x ≠ AND_MARKER ++ rest).

(** ** The selected node and its neighbours *)

(** The score the detail panel shows beside a related researcher:
    [researcher.connections?.find(c => c.id === related.id)], then
    [connection?.score || 0]. *)
Definition displayedScore (researcher related : loc) : M Z :=
  let* connections := getConnections researcher in
  let* id := getField related r_id in
  let connection :=
    match connections with
    | Some c => List.find (λ c, strictEq (c_id c) id) c
    | None => None
    end in
  ret (match connection with
       | Some c => if truthy (JNum (c_score c)) then c_score c else 0%Z
       | None => 0%Z
       end).

(** The ids of the nodes the drawing highlights around the selected one,
    computed when [selectedResearcherId] is set:
    [selectedNode?.connections?.filter(...)?.map(c => c.id) || []]. *)
Definition relatedIds (researchers : loc) (selectedResearcherId : jsval)
  : M (list jsval) :=
  let* elems := getArray researchers in
  let* visibleResearcherIds := mapM elems (λ n, getField n r_id) in
  let* selectedNode := findById elems selectedResearcherId in
  match selectedNode with
  | None => ret []
  | Some node =>
      let* connections := getConnections node in
      match connections with
      | Some c =>
          ret (c_id <$> List.filter
                 (λ c, (2 <=? c_score c)%Z && setHas visibleResearcherIds (c_id c)) c)
      | None => ret []
      end
  end.

(** ** A change of the criteria (the page) *)

(** The state of the page that the handlers read and set. A handler sees
    the values of the render it was made in; its calls of the setters
    give the values of the next one. *)
Record PageState := mkPageState {
  researchers : loc;
  filteredResearchers : loc;
  selectedResearcherId : jsval;
  relatedResearchers : list loc
}.

(** [array.some(r => r.id === id)] *)
Fixpoint someById (elems : list loc) (id : jsval) : M bool :=
  match elems with
  | [] => ret false
  | r :: elems' =>
      let* rid := getField r r_id in
      if strictEq rid id then ret true else someById elems' id
  end.

Section page.
Variable toLowerCase : jsstring → jsstring.

(** [handleFilterChange(filters)]: the state after the calls of the
    setters. [handleSelectResearcher] reads [filteredResearchers], the
    array of the render the handlers were made in, and sets the selected id
    and the related researchers. *)
Definition handleFilterChange (st : PageState) (filters : loc) : M PageState :=
  let* filtered := filterResearchers toLowerCase (researchers st) filters in
  if truthy (selectedResearcherId st) then
    let* elems := getArray filtered in
    let* found := someById elems (selectedResearcherId st) in
    if negb found then
      ret (mkPageState (researchers st) filtered JNull [])
    else
      let* related :=
        handleSelectResearcher (filteredResearchers st) (selectedResearcherId st) in
      ret (mkPageState (researchers st) filtered (selectedResearcherId st) related)
  else
    ret (mkPageState (researchers st) filtered (selectedResearcherId st)
                     (relatedResearchers st)).
End page.

(** * Proofs *)

(** ** The tokenizer *)

Lemma splitLoop_cons piece c rest :
  splitLoop piece (c :: rest) =
  match splitMatcher (c :: rest) with
  | Some (S e) => rev piece :: splitLoop [] (drop e rest)
  | _ => splitLoop (c :: piece) rest
  end.
Proof.
  simp splitLoop.
  destruct (splitMatcher (c :: rest)) as [[|e]|]; simp splitLoop; reflexivity.
Qed.


Lemma countWhile_run ws rest :
  Forall (λ c, isWhiteSpace c = true) ws →
  (∀ c, head rest = Some c → isWhiteSpace c = false) →
  countWhile isWhiteSpace (ws ++ rest) = length ws.
Proof.
  intros Hws Hrest. induction Hws as [|c ws Hc _ IH]; simpl.
  - destruct rest as [|c rest]; [done|]. simpl. by rewrite (Hrest c).
  - by rewrite Hc, IH.
Qed.

Lemma countWhile_spec s :
  let n := countWhile isWhiteSpace s in
  Forall (λ c, isWhiteSpace c = true) (take n s) ∧
  (∀ c, head (drop n s) = Some c → isWhiteSpace c = false).
Proof.
  induction s as [|c s [IH1 IH2]]; simpl.
  - split; [constructor|]. intros c [=].
  - destruct (isWhiteSpace c) eqn:Hc; simpl.
    + split; [by constructor|done].
    + split; [constructor|]. intros c' [= <-]. done.
Qed.

Lemma splitLoop_plain p piece :
  plain p → splitLoop piece p = [rev piece ++ p].
Proof.
  intros Hp. revert piece. induction Hp as [|c p [Hc1 Hc2] _ IH]; intros piece.
  - simp splitLoop. by rewrite app_nil_r.
  - rewrite splitLoop_cons. simpl.
    apply N.eqb_neq in Hc1, Hc2. rewrite Hc1, Hc2, IH. simpl.
    by rewrite <- app_assoc.
Qed.

Lemma splitLoop_separator d rest piece :
  Separator d rest →
  splitLoop piece (d ++ rest) = rev piece :: splitLoop [] rest.
Proof.
  intros [ws rest' Hws Hrest | rest']; simpl; rewrite splitLoop_cons; simpl.
  - rewrite countWhile_run by done. by rewrite drop_app_length.
  - done.
Qed.

Lemma splitLoop_Pieces s ps :
  Pieces s ps → ∀ piece, ∃ p ps', ps = p :: ps' ∧ splitLoop piece s = (rev piece ++ p) :: ps'.
Proof.
  induction 1 as [p Hp | p d rest ps Hp Hd _ IH]; intros piece.
  - exists p, []. by rewrite splitLoop_plain.
  - exists p, ps. split; [done|].
    destruct (IH []) as (p1 & ps1 & -> & Hrest).
    clear IH. revert piece. induction Hp as [|c p [Hc1 Hc2] _ IHp]; intros piece.
    + simpl. rewrite splitLoop_separator, Hrest by done. by rewrite app_nil_r.
    + simpl. rewrite splitLoop_cons. simpl.
      apply N.eqb_neq in Hc1, Hc2. rewrite Hc1, Hc2, IHp. simpl.
      by rewrite <- app_assoc.
Qed.

(** The relation determines the pieces: they are those of [split]. *)
Lemma Pieces_split_regex s ps : Pieces s ps → split_regex s = ps.
Proof.
  intros H. destruct (splitLoop_Pieces s ps H []) as (p & ps' & -> & Heq).
  exact Heq.
Qed.

Lemma first_delimiter s :
  plain s ∨ ∃ p c rest, s = p ++ c :: rest ∧ plain p ∧ (c = COMMA ∨ c = WIDE_COMMA).
Proof.
  induction s as [|c s IH]; [left; constructor|].
  destruct (decide (c = COMMA)) as [->|Hc1].
  { right. exists [], COMMA, s. repeat split; [constructor|by left]. }
  destruct (decide (c = WIDE_COMMA)) as [->|Hc2].
  { right. exists [], WIDE_COMMA, s. repeat split; [constructor|by right]. }
  destruct IH as [Hs | (p & c' & rest & -> & Hp & Hc')].
  - left. by constructor.
  - right. exists (c :: p), c', rest. repeat split; [by constructor|done].
Qed.

(** Every string can be cut. *)
Lemma Pieces_total s : ∃ ps, Pieces s ps.
Proof.
  remember (length s) as n eqn:Hn. revert s Hn.
  induction n as [n IH] using lt_wf_ind. intros s ->.
  assert (∀ s', length s' < length s → ∃ ps, Pieces s' ps) as IH'.
  { intros s' Hlt. by eapply IH. }
  clear IH.
  destruct (first_delimiter s) as [Hs | (p & c & rest & -> & Hp & [-> | ->])].
  - exists [s]. by constructor.
  - pose proof (countWhile_spec rest) as [Hws Hrest]. simpl in Hws, Hrest.
    set (n := countWhile isWhiteSpace rest) in *.
    destruct (IH' (drop n rest)) as [ps Hps].
    { rewrite !length_app, length_drop. simpl. lia. }
    exists (p :: ps).
    replace (p ++ COMMA :: rest)
      with (p ++ (COMMA :: take n rest) ++ drop n rest)
      by (simpl; by rewrite take_drop).
    constructor; [done| |done]. by constructor.
  - destruct (IH' rest) as [ps Hps].
    { rewrite !length_app. simpl. lia. }
    exists (p :: ps).
    change (p ++ WIDE_COMMA :: rest) with (p ++ [WIDE_COMMA] ++ rest).
    constructor; [done|constructor|done].
Qed.

Lemma splitByDelimiters_string s :
  splitByDelimiters (JStr s) = Ok (keptPieces (split_regex s)).
Proof.
  destruct s as [|c s]; [reflexivity|]. reflexivity.
Qed.

Lemma plain_utf16_A_space : plain (utf16 "A ").
Proof. repeat constructor; discriminate. Qed.

Lemma plain_utf16_B : plain (utf16 "B").
Proof. repeat constructor; discriminate. Qed.

Lemma Pieces_A_space_comma_B :
  Pieces (utf16 "A ,B") [utf16 "A "; utf16 "B"].
Proof.
  change (utf16 "A ,B") with (utf16 "A " ++ [COMMA] ++ utf16 "B").
  constructor.
  - exact plain_utf16_A_space.
  - constructor; [constructor|]. intros c [= <-]. reflexivity.
  - constructor. exact plain_utf16_B.
Qed.

Lemma keptPieces_trimmed ps :
  Forall (λ p, trim p = p) ps → keptPieces ps = trimmedPieces ps.
Proof.
  unfold keptPieces, trimmedPieces. induction 1 as [|p ps Hp _ IH]; [done|].
  csimpl. by rewrite Hp, IH.
Qed.

Lemma splitMatcher_not_empty s : splitMatcher s ≠ Some 0.
Proof.
  destruct s as [|c s]; simpl; [done|].
  destruct (c =? COMMA)%N; [done|]. by destruct (c =? WIDE_COMMA)%N.
Qed.

(** C2 (as amended): for every string, the tokenizer returns, in order, the
    pieces between separators whose trimmed form is not empty, each piece as
    it stands in the input (not trimmed); a separator is a wide comma or a
    comma with all the whitespace that directly follows it. When no piece
    starts or ends with whitespace these are the trimmed pieces. The empty string
    and an undefined input give the empty sequence, and the tokens of
    "A, B、C" are "A", "B", "C". *)
Theorem splitByDelimiters_keeps_pieces_untrimmed :
  (∀ s, ∃ ps, Pieces s ps) ∧
  (∀ s ps, Pieces s ps → splitByDelimiters (JStr s) = Ok (keptPieces ps)) ∧
  (∀ s ps, Pieces s ps → Forall (λ p, trim p = p) ps →
           splitByDelimiters (JStr s) = Ok (trimmedPieces ps)) ∧
  splitByDelimiters (JStr []) = Ok [] ∧
  splitByDelimiters JUndefined = Ok [] ∧
  splitByDelimiters (JStr (utf16 "A, B" ++ [WIDE_COMMA] ++ utf16 "C"))
  = Ok [utf16 "A"; utf16 "B"; utf16 "C"].
Proof.
  split; [exact Pieces_total|].
  split; [|split; [|repeat split; reflexivity]].
  - intros s ps Hps. rewrite splitByDelimiters_string.
    by rewrite (Pieces_split_regex s ps Hps).
  - intros s ps Hps Htrim. rewrite splitByDelimiters_string.
    by rewrite (Pieces_split_regex s ps Hps), keptPieces_trimmed.
Qed.

Lemma splitByDelimiters_keeps_pieces_untrimmed_witness :
  splitByDelimiters (JStr (utf16 "A ,B")) = Ok [utf16 "A "; utf16 "B"].
Proof.
  exact (proj1 (proj2 splitByDelimiters_keeps_pieces_untrimmed)
           (utf16 "A ,B") [utf16 "A "; utf16 "B"] Pieces_A_space_comma_B).
Defined.

(** C2 (as stated) fails: with a space before the comma, the first token of
    "A ,B" keeps its trailing space, so the result is not the sequence of
    trimmed pieces. *)
Lemma splitByDelimiters_trimmed_counterexample :
  Pieces (utf16 "A ,B") [utf16 "A "; utf16 "B"] ∧
  trimmedPieces [utf16 "A "; utf16 "B"] = [utf16 "A"; utf16 "B"] ∧
  splitByDelimiters (JStr (utf16 "A ,B")) = Ok [utf16 "A "; utf16 "B"] ∧
  splitByDelimiters (JStr (utf16 "A ,B"))
  ≠ Ok (trimmedPieces [utf16 "A "; utf16 "B"]).
Proof.
  split; [exact Pieces_A_space_comma_B|].
  split; [reflexivity|]. split; [reflexivity|].
  vm_compute. discriminate.
Qed.

(** ** The predicate evaluator *)

Lemma startsWith_spec s prefix :
  startsWith s prefix = true ↔ ∃ rest, s = prefix ++ rest.
Proof.
  revert s. induction prefix as [|p prefix IH]; intros s.
  - split; [intros _; by exists s|by destruct s].
  - destruct s as [|c s]; simpl.
    + split; [done|]. intros [rest [=]].
    + rewrite andb_true_iff, N.eqb_eq, IH. split.
      * intros [-> [rest ->]]. eauto.
      * intros [rest [= -> ->]]. eauto.
Qed.

Lemma splitOn_no_sep sep x piece :
  sep ∉ x → splitOn sep piece x = [rev piece ++ x].
Proof.
  revert piece. induction x as [|c x IH]; intros piece Hx; simpl.
  - by rewrite app_nil_r.
  - rewrite not_elem_of_cons in Hx. destruct Hx as [Hc Hx].
    destruct (N.eqb_spec c sep) as [->|_]; [done|].
    rewrite IH by done. simpl. by rewrite <- app_assoc.
Qed.

Lemma splitOn_sep sep x rest piece :
  sep ∉ x →
  splitOn sep piece (x ++ sep :: rest) = (rev piece ++ x) :: splitOn sep [] rest.
Proof.
  revert piece. induction x as [|c x IH]; intros piece Hx; simpl.
  - by rewrite N.eqb_refl, app_nil_r.
  - rewrite not_elem_of_cons in Hx. destruct Hx as [Hc Hx].
    destruct (N.eqb_spec c sep) as [->|_]; [done|].
    rewrite IH by done. simpl. by rewrite <- app_assoc.
Qed.

Lemma splitOn_joinWith sep xs :
  xs ≠ [] → Forall (λ x, sep ∉ x) xs → splitOn sep [] (joinWith sep xs) = xs.
Proof.
  intros Hne Hxs. induction Hxs as [|x xs Hx Hxs IH]; [done|].
  destruct xs as [|y xs].
  - simpl. by rewrite splitOn_no_sep.
  - change (joinWith sep (x :: y :: xs)) with (x ++ sep :: joinWith sep (y :: xs)).
    rewrite splitOn_sep by done. by rewrite IH.
Qed.

Lemma elem_of_rev (x : N) (l : jsstring) : x ∈ rev l ↔ x ∈ l.
Proof. rewrite !list_elem_of_In. symmetry. apply in_rev. Qed.

Lemma splitOn_pieces sep s piece :
  sep ∉ piece →
  let xs := splitOn sep piece s in
  xs ≠ [] ∧ joinWith sep xs = rev piece ++ s ∧ Forall (λ x, sep ∉ x) xs.
Proof.
  revert piece. induction s as [|c s IH]; intros piece Hp; simpl.
  - rewrite app_nil_r. repeat split; [done|]. constructor; [|constructor].
    by rewrite elem_of_rev.
  - destruct (N.eqb_spec c sep) as [->|Hc].
    + destruct (IH [] (not_elem_of_nil _)) as (Hne & Hjoin & Hall).
      split; [done|]. split; [|constructor; [by rewrite elem_of_rev|done]].
      destruct (splitOn sep [] s) as [|y ys] eqn:Hs; [done|].
      change (rev piece ++ sep :: joinWith sep (y :: ys) = rev piece ++ sep :: s).
      by rewrite Hjoin.
    + destruct (IH (c :: piece)) as (Hne & Hjoin & Hall).
      { rewrite not_elem_of_cons. split; [congruence|done]. }
      repeat split; [done| |done].
      rewrite Hjoin. simpl. by rewrite <- app_assoc.
Qed.

(** Every expression is a pipe-delimited list, in one way. *)
Lemma PipeList_splitOn e : PipeList e (splitOn PIPE [] e).
Proof. exact (splitOn_pieces PIPE e [] (not_elem_of_nil _)). Qed.

Lemma PipeList_unique e xs : PipeList e xs → splitOn PIPE [] e = xs.
Proof. intros (Hne & <- & Hall). by apply splitOn_joinWith. Qed.

Lemma forallb_arrayIncludes tags xs :
  forallb (λ x, arrayIncludes tags x) xs = true ↔ ∀ x, x ∈ xs → x ∈ tags.
Proof.
  rewrite forallb_forall. unfold arrayIncludes.
  split; intros H x Hx.
  - apply list_elem_of_In in Hx. specialize (H x Hx).
    by apply bool_decide_eq_true in H.
  - apply list_elem_of_In in Hx. apply bool_decide_eq_true. by apply H.
Qed.

Lemma existsb_arrayIncludes tags xs :
  existsb (λ x, arrayIncludes tags x) xs = true ↔ ∃ x, x ∈ xs ∧ x ∈ tags.
Proof.
  rewrite existsb_exists. unfold arrayIncludes.
  split; intros (x & Hx & Hin); exists x.
  - split; [by apply list_elem_of_In|by apply bool_decide_eq_true in Hin].
  - split; [by apply list_elem_of_In|by apply bool_decide_eq_true].
Qed.

Lemma tokens_Ok v l : splitByDelimiters v = Ok l → tokens v = l.
Proof. unfold tokens. by intros ->. Qed.

Lemma stringOrAbsent_splittable v : stringOrAbsent v → splittable v.
Proof.
  intros [-> | [s ->]]; [by exists []|].
  eexists. apply splitByDelimiters_string.
Qed.

Lemma splittable_tokens v : splittable v → splitByDelimiters v = Ok (tokens v).
Proof. intros [l Hl]. by rewrite (tokens_Ok v l Hl). Qed.

Lemma truthy_string_nonempty e : e ≠ [] → truthy (JStr e) = true.
Proof. by destruct e. Qed.

Lemma matchField_absent_value v e :
  e ≠ [] → truthy v = false → matchField v (JStr e) = Ok false.
Proof.
  intros He Hv. unfold matchField.
  rewrite (truthy_string_nonempty e He), Hv. reflexivity.
Qed.

Lemma matchField_and v e rest :
  truthy v = true → splittable v → e = AND_MARKER ++ rest →
  matchField v (JStr e)
  = Ok (forallb (λ x, arrayIncludes (tokens v) x) (splitOn PIPE [] rest)).
Proof.
  intros Hv Hs ->. unfold matchField.
  rewrite Hv, (splittable_tokens v Hs). simpl.
  replace (startsWith _ _) with true; [done|].
  symmetry. apply startsWith_spec. by exists rest.
Qed.

Lemma matchField_or v e :
  truthy v = true → splittable v → e ≠ [] → (¬ ∃ rest, e = AND_MARKER ++ rest) →
  matchField v (JStr e)
  = Ok (existsb (λ x, arrayIncludes (tokens v) x) (splitOn PIPE [] e)).
Proof.
  intros Hv Hs He Hno. unfold matchField.
  rewrite Hv, (truthy_string_nonempty e He), (splittable_tokens v Hs). simpl.
  destruct (startsWith e AND_MARKER) eqn:Hsw; [|done].
  apply startsWith_spec in Hsw. done.
Qed.

(** C3: for an attribute value that is a string or absent and a non-empty
    expression, [matchField] is false when the value is empty or absent;
    otherwise, with S the tokens of the value, an expression that starts
    with "AND:" matches iff every element of the rest, split on "|", is a
    member of S, and any other expression matches iff at least one of its
    elements, split on "|", is a member of S. Membership is equality of
    strings: a tag that merely contains the element does not count. *)
Theorem matchField_spec :
  (∀ (v : jsval) (e : jsstring),
     stringOrAbsent v → e ≠ [] →
     (truthy v = false → matchField v (JStr e) = Ok false) ∧
     (truthy v = true →
        (∀ rest required,
           e = AND_MARKER ++ rest → PipeList rest required →
           ∃ b, matchField v (JStr e) = Ok b ∧
                (b = true ↔ ∀ x, x ∈ required → x ∈ tokens v)) ∧
        ((¬ ∃ rest, e = AND_MARKER ++ rest) →
           ∀ allowed, PipeList e allowed →
           ∃ b, matchField v (JStr e) = Ok b ∧
                (b = true ↔ ∃ x, x ∈ allowed ∧ x ∈ tokens v)))) ∧
  (∀ e, ∃ xs, PipeList e xs) ∧
  matchField (JStr (utf16 "X,Y,Z")) (JStr (utf16 "AND:X|Y")) = Ok true ∧
  matchField (JStr (utf16 "X,Y,Z")) (JStr (utf16 "AND:X|W")) = Ok false ∧
  matchField (JStr (utf16 "X,Y")) (JStr (utf16 "X|W")) = Ok true ∧
  matchField (JStr (utf16 "X,Y")) (JStr (utf16 "W|V")) = Ok false ∧
  matchField (JStr (utf16 "XY,Z")) (JStr (utf16 "X")) = Ok false.
Proof.
  split; [|split; [|repeat split; reflexivity]].
  - intros v e Hv He. split; [by apply matchField_absent_value|].
    intros Htruthy. apply stringOrAbsent_splittable in Hv. split.
    + intros rest required Hrest Hlist. eexists. split.
      * by apply (matchField_and v e rest).
      * rewrite (PipeList_unique rest required Hlist).
        apply forallb_arrayIncludes.
    + intros Hno allowed Hlist. eexists. split.
      * by apply matchField_or.
      * rewrite (PipeList_unique e allowed Hlist).
        apply existsb_arrayIncludes.
  - intros e. exists (splitOn PIPE [] e). apply PipeList_splitOn.
Qed.

Lemma matchField_spec_witness :
  ∃ b, matchField (JStr (utf16 "X,Y,Z")) (JStr (utf16 "AND:X|Y")) = Ok b ∧
       (b = true ↔
        ∀ x, x ∈ [utf16 "X"; utf16 "Y"] → x ∈ tokens (JStr (utf16 "X,Y,Z"))).
Proof.
  refine (proj1 (proj2 (proj1 matchField_spec
            (JStr (utf16 "X,Y,Z")) (utf16 "AND:X|Y") _ _) eq_refl)
            (utf16 "X|Y") [utf16 "X"; utf16 "Y"] eq_refl _).
  - right. by eexists.
  - discriminate.
  - split; [discriminate|]. split; [reflexivity|].
    repeat constructor; compute_done.
Defined.

(** ** Scores *)

Lemma addMatches_cons w t mine others score :
  addMatches w (t :: mine) others score
  = addMatches w mine others
      (if nonEmpty t && arrayIncludes others t then score + w else score)%Z.
Proof. reflexivity. Qed.

Lemma addMatches_acc w mine others score :
  addMatches w mine others score = (score + addMatches w mine others 0)%Z.
Proof.
  revert score. induction mine as [|t mine IH]; intros score.
  - simpl. lia.
  - rewrite !addMatches_cons.
    destruct (nonEmpty t && arrayIncludes others t).
    + rewrite (IH (score + w)%Z), (IH (0 + w)%Z). lia.
    + apply IH.
Qed.

Lemma nonEmpty_true (t : jsstring) : nonEmpty t = true ↔ t ≠ [].
Proof. by destruct t. Qed.

Lemma trim_nil : trim [] = [].
Proof. reflexivity. Qed.

(** No token is the empty string. *)
Lemma tokens_nonEmpty v t : t ∈ tokens v → t ≠ [].
Proof.
  unfold tokens, splitByDelimiters.
  destruct (negb (truthy v)); [by intros ?%elem_of_nil|].
  destruct v; try by intros ?%elem_of_nil.
  intros Ht. apply list_elem_of_In, filter_In in Ht. destruct Ht as [_ Ht].
  intros ->. by rewrite trim_nil in Ht.
Qed.

Lemma addMatches_sharedCount w mine others :
  Forall (λ t, t ≠ []) mine →
  addMatches w mine others 0 = (w * sharedCount mine others)%Z.
Proof.
  unfold sharedCount. induction 1 as [|t mine Ht _ IH].
  - simpl. lia.
  - rewrite addMatches_cons, addMatches_acc, IH, filter_cons.
    apply nonEmpty_true in Ht. rewrite Ht. unfold arrayIncludes. simpl.
    destruct (decide (t ∈ others)) as [Hin|Hin].
    + rewrite bool_decide_eq_true_2 by done. simpl length. lia.
    + rewrite bool_decide_eq_false_2 by done. lia.
Qed.

Lemma tokens_Forall_nonEmpty v : Forall (λ t, t ≠ []) (tokens v).
Proof. apply Forall_forall. intros t. apply tokens_nonEmpty. Qed.

Lemma pairScore_sum kw kt fs th kw' kt' fs' th' :
  pairScore kw kt fs th kw' kt' fs' th'
  = (addMatches 3 fs fs' 0 + addMatches 2 th th' 0
     + addMatches 1 kw kw' 0 + addMatches 1 kt kt' 0)%Z.
Proof.
  unfold pairScore.
  rewrite (addMatches_acc 1 kt), (addMatches_acc 1 kw), (addMatches_acc 2 th).
  lia.
Qed.

Lemma scoreToward_attributes a b :
  scoreToward a b
  = (attributeScore 3 r_field a b + attributeScore 2 r_theme a b
     + attributeScore 1 r_keywords a b + attributeScore 1 r_keytechnology a b)%Z.
Proof. apply pairScore_sum. Qed.

Lemma attributeScore_sharedCount w attr a b :
  attributeScore w attr a b
  = (w * sharedCount (tokens (attr a)) (tokens (attr b)))%Z.
Proof. apply addMatches_sharedCount, tokens_Forall_nonEmpty. Qed.

(** The score of the code is the weighted sum. *)
Lemma scoreToward_relevance a b : scoreToward a b = relevance a b.
Proof.
  rewrite scoreToward_attributes, !attributeScore_sharedCount. reflexivity.
Qed.


Lemma pushed_relevantPeers a others : pushed a others = relevantPeers a others.
Proof.
  unfold pushed, relevantPeers. apply list_omap_ext, Forall_Forall2_diag.
  apply Forall_forall. intros b _. unfold edge.
  by rewrite scoreToward_relevance.
Qed.

(** *** Repeated tags *)


(** The occurrences of a tag that is a member of the other list add the
    weight once each. *)
Lemma addMatches_tag w t mine others :
  t ≠ [] → t ∈ others →
  addMatches w mine others 0
  = (w * occurrences t mine + addMatches w (without t mine) others 0)%Z.
Proof.
  intros Ht Hin. unfold occurrences, without.
  induction mine as [|x mine IH]; [simpl; lia|].
  rewrite addMatches_cons, addMatches_acc, IH, !filter_cons.
  destruct (decide (x = t)) as [->|Hx].
  - rewrite decide_False by (intros H; by apply H).
    apply nonEmpty_true in Ht. unfold arrayIncludes.
    rewrite Ht, bool_decide_eq_true_2 by done.
    cbn [andb length]. rewrite Nat2Z.inj_succ. lia.
  - rewrite decide_True by done. rewrite (addMatches_cons w x).
    destruct (nonEmpty x && arrayIncludes others x); [|lia].
    rewrite (addMatches_acc w _ _ (0 + w)%Z). lia.
Qed.

(** Only membership in the other list is consulted. *)
Lemma addMatches_membership w mine others others' score :
  (∀ x, x ∈ others ↔ x ∈ others') →
  addMatches w mine others score = addMatches w mine others' score.
Proof.
  intros Hsame. revert score. induction mine as [|t mine IH]; intros score.
  - reflexivity.
  - rewrite !addMatches_cons, IH. unfold arrayIncludes.
    by rewrite (bool_decide_ext _ _ (Hsame t)).
Qed.

(** *** Symmetry without repeated tags *)

Lemma sharedCount_sym mine others :
  NoDup mine → NoDup others → sharedCount mine others = sharedCount others mine.
Proof.
  intros Hm Ho. unfold sharedCount. f_equal.
  apply Permutation_length, NoDup_Permutation.
  - by apply NoDup_filter.
  - by apply NoDup_filter.
  - intros x. rewrite !list_elem_of_filter. tauto.
Qed.

Lemma sharedCount_subset mine others :
  (∀ t, t ∈ mine → t ∈ others) → sharedCount mine others = Z.of_nat (length mine).
Proof.
  intros Hsub. unfold sharedCount. do 2 f_equal.
  induction mine as [|t mine IH]; [done|].
  rewrite filter_cons_True by (apply Hsub; left).
  f_equal. apply IH. intros x Hx. apply Hsub. by right.
Qed.

Lemma relevance_sym a b :
  NoDup (tokens (r_field a)) → NoDup (tokens (r_theme a)) →
  NoDup (tokens (r_keywords a)) → NoDup (tokens (r_keytechnology a)) →
  NoDup (tokens (r_field b)) → NoDup (tokens (r_theme b)) →
  NoDup (tokens (r_keywords b)) → NoDup (tokens (r_keytechnology b)) →
  relevance a b = relevance b a.
Proof.
  intros. unfold relevance.
  rewrite (sharedCount_sym (tokens (r_field a))) by done.
  rewrite (sharedCount_sym (tokens (r_theme a))) by done.
  rewrite (sharedCount_sym (tokens (r_keywords a))) by done.
  rewrite (sharedCount_sym (tokens (r_keytechnology a))) by done.
  reflexivity.
Qed.

(** C6: within one scored attribute, a tag that occurs k times in A's token
    list and is a member of B's token list adds k times the weight to A's
    score toward B (the rest of the score is what A's list without that tag
    scores), and the attribute's score is the same toward any B' whose
    token list has the same members, whatever their multiplicity. The score
    of the pair is the sum of the four attribute scores with weights
    3, 2, 1, 1. *)
Theorem repeated_tag_contribution :
  (∀ (w : Z) (attr : Researcher → jsval) (a b : Researcher) (t : jsstring),
     t ∈ tokens (attr b) →
     attributeScore w attr a b
     = (w * occurrences t (tokens (attr a))
        + addMatches w (without t (tokens (attr a))) (tokens (attr b)) 0)%Z) ∧
  (∀ (w : Z) (attr : Researcher → jsval) (a b b' : Researcher),
     (∀ x, x ∈ tokens (attr b) ↔ x ∈ tokens (attr b')) →
     attributeScore w attr a b = attributeScore w attr a b') ∧
  (∀ a b,
     scoreToward a b
     = (attributeScore 3 r_field a b + attributeScore 2 r_theme a b
        + attributeScore 1 r_keywords a b
        + attributeScore 1 r_keytechnology a b)%Z) ∧
  scoreToward (sample "1" "" "" "X,X,Y" "" "") (sample "2" "" "" "X" "" "") = 2%Z ∧
  scoreToward (sample "1" "" "" "X,X,Y" "" "") (sample "2" "" "" "X,X,X" "" "") = 2%Z ∧
  scoreToward (sample "2" "" "" "X,X,X" "" "") (sample "1" "" "" "X,X,Y" "" "") = 3%Z.
Proof.
  split; [|split; [|split; [|repeat split; reflexivity]]].
  - intros w attr a b t Ht. unfold attributeScore.
    apply addMatches_tag; [|done]. by apply (tokens_nonEmpty (attr b)).
  - intros w attr a b b' Hsame. unfold attributeScore.
    by apply addMatches_membership.
  - exact scoreToward_attributes.
Qed.

Lemma repeated_tag_contribution_witness :
  attributeScore 1 r_keywords
    (sample "1" "" "" "X,X,Y" "" "") (sample "2" "" "" "X,X,X" "" "")
  = (1 * occurrences (utf16 "X")
           (tokens (r_keywords (sample "1" "" "" "X,X,Y" "" "")))
     + addMatches 1
         (without (utf16 "X") (tokens (r_keywords (sample "1" "" "" "X,X,Y" "" ""))))
         (tokens (r_keywords (sample "2" "" "" "X,X,X" "" ""))) 0)%Z ∧
  attributeScore 1 r_keywords
    (sample "1" "" "" "X,X,Y" "" "") (sample "2" "" "" "X,X,X" "" "")
  = attributeScore 1 r_keywords
      (sample "1" "" "" "X,X,Y" "" "") (sample "3" "" "" "X" "" "").
Proof.
  split.
  - apply (proj1 repeated_tag_contribution 1%Z r_keywords). compute_done.
  - apply (proj1 (proj2 repeated_tag_contribution) 1%Z r_keywords).
    intros x. vm_compute tokens.
    rewrite !elem_of_cons, elem_of_nil. tauto.
Defined.

(** C7: when no token list of either record has a repeated tag, the score
    from A toward B equals the score from B toward A; and for two records
    whose field token lists have no repeats and the same members, the field
    contribution is the same from both sides: the weight times the number
    of tags. *)
Theorem score_symmetric_without_repeats :
  (∀ a b, noRepeats a → noRepeats b → scoreToward a b = scoreToward b a) ∧
  (∀ a b,
     NoDup (tokens (r_field a)) → NoDup (tokens (r_field b)) →
     (∀ t, t ∈ tokens (r_field a) ↔ t ∈ tokens (r_field b)) →
     attributeScore 3 r_field a b = attributeScore 3 r_field b a ∧
     sharedCount (tokens (r_field a)) (tokens (r_field b))
     = sharedCount (tokens (r_field b)) (tokens (r_field a)) ∧
     attributeScore 3 r_field a b
     = (3 * Z.of_nat (length (tokens (r_field a))))%Z).
Proof.
  split.
  - intros a b (Ha1 & Ha2 & Ha3 & Ha4 & _) (Hb1 & Hb2 & Hb3 & Hb4 & _).
    rewrite !scoreToward_relevance. by apply relevance_sym.
  - intros a b Ha Hb Hsame. rewrite !attributeScore_sharedCount.
    rewrite (sharedCount_sym _ _ Ha Hb). repeat split.
    rewrite <- (sharedCount_sym _ _ Ha Hb).
    rewrite sharedCount_subset; [done|]. intros t. apply Hsame.
Qed.

Lemma score_symmetric_without_repeats_witness :
  scoreToward (sample "1" "X,Y" "T" "k1,k2" "" "P")
              (sample "2" "Y" "T" "k2,k3" "" "P")
  = scoreToward (sample "2" "Y" "T" "k2,k3" "" "P")
                (sample "1" "X,Y" "T" "k1,k2" "" "P").
Proof.
  apply (proj1 score_symmetric_without_repeats);
    repeat split; vm_compute tokens; compute_done.
Defined.

(** ** Sorting *)

Section sorting.
Local Abbreviation before := scoreNotBelow.

Lemma insertSorted_Permutation x l :
  insertSorted byScoreDesc x l ≡ₚ x :: l.
Proof.
  induction l as [|y l IH]; simpl; [done|].
  destruct (byScoreDesc x y <=? 0)%Z; [done|].
  rewrite IH. apply Permutation_swap.
Qed.

Lemma sort_Permutation l : sort byScoreDesc l ≡ₚ l.
Proof.
  induction l as [|x l IH]; simpl; [done|].
  by rewrite insertSorted_Permutation, IH.
Qed.

Lemma insertSorted_sorted x l :
  StronglySorted before l → StronglySorted before (insertSorted byScoreDesc x l).
Proof.
  induction 1 as [|y l Hl IH Hy]; simpl.
  - repeat constructor.
  - unfold byScoreDesc at 1.
    destruct (Z.leb_spec (c_score y - c_score x) 0) as [Hle|Hgt].
    + constructor; [by constructor|].
      constructor; [unfold scoreNotBelow; lia|].
      eapply Forall_impl; [exact Hy|]. unfold scoreNotBelow. simpl. intros z Hz. lia.
    + constructor; [done|].
      rewrite insertSorted_Permutation.
      constructor; [unfold scoreNotBelow; lia|done].
Qed.

Lemma sort_sorted l : StronglySorted before (sort byScoreDesc l).
Proof.
  induction l as [|x l IH]; simpl; [constructor|].
  by apply insertSorted_sorted.
Qed.

(** Stability: the entries of any one score keep their order. *)
Lemma insertSorted_stable k x l :
  withScore k (insertSorted byScoreDesc x l) = withScore k (x :: l).
Proof.
  unfold withScore. induction l as [|y l IH]; simpl; [done|].
  unfold byScoreDesc at 1.
  destruct (Z.leb_spec (c_score y - c_score x) 0) as [Hle|Hgt]; [done|].
  rewrite (filter_cons _ y), IH, !filter_cons.
  destruct (decide (c_score y = k)), (decide (c_score x = k)); try done.
  lia.
Qed.

Lemma sort_stable k l : withScore k (sort byScoreDesc l) = withScore k l.
Proof.
  induction l as [|x l IH]; simpl; [done|].
  rewrite insertSorted_stable. unfold withScore in *.
  by rewrite !filter_cons, IH.
Qed.
End sorting.

(** ** The entries of one record *)

Lemma edge_Some a b e :
  edge a b = Some e →
  r_id a ≠ r_id b ∧ c_id e = r_id b ∧ c_score e = scoreToward a b ∧ (0 < c_score e)%Z.
Proof.
  unfold edge, strictEq. case_bool_decide as Hid; [done|].
  destruct (Z.ltb_spec 0 (scoreToward a b)); [|done].
  by intros [= <-].
Qed.

Lemma pushed_ids_sublist a others :
  (c_id <$> pushed a others) `sublist_of` (r_id <$> others).
Proof.
  unfold pushed. induction others as [|b others IH]; csimpl; [done|].
  destruct (edge a b) as [e|] eqn:He.
  - apply edge_Some in He as (_ & Hid & _). csimpl.
    rewrite Hid. by constructor.
  - by constructor.
Qed.

Lemma elem_of_connectionsOf a others e :
  e ∈ connectionsOf a others ↔ ∃ b, b ∈ others ∧ edge a b = Some e.
Proof.
  unfold connectionsOf, pushed.
  by rewrite sort_Permutation, list_elem_of_omap.
Qed.

Lemma connectionsOf_no_self a others e :
  e ∈ connectionsOf a others → c_id e ≠ r_id a.
Proof.
  intros (b & _ & He)%elem_of_connectionsOf.
  apply edge_Some in He as (Hne & -> & _). congruence.
Qed.

Lemma connectionsOf_positive a others e :
  e ∈ connectionsOf a others → (0 < c_score e)%Z.
Proof.
  intros (b & _ & He)%elem_of_connectionsOf. by apply edge_Some in He as (_ & _ & _ & ?).
Qed.

Lemma connectionsOf_NoDup a others :
  NoDup (r_id <$> others) → NoDup (c_id <$> connectionsOf a others).
Proof.
  intros Hids. unfold connectionsOf. rewrite sort_Permutation.
  eapply sublist_NoDup; [exact Hids|]. apply pushed_ids_sublist.
Qed.

(** Entries of one score stand in the order of their peers in the input. *)
Lemma connectionsOf_stable a others k :
  (c_id <$> withScore k (connectionsOf a others)) `sublist_of` (r_id <$> others).
Proof.
  unfold connectionsOf. rewrite sort_stable.
  transitivity (c_id <$> pushed a others); [|apply pushed_ids_sublist].
  apply fmap_sublist. unfold withScore. apply sublist_filter.
Qed.

Lemma connectionsOf_sorted a others :
  StronglySorted scoreNotBelow (connectionsOf a others).
Proof. apply sort_sorted. Qed.

Lemma connectionsOf_relevantPeers a others :
  connectionsOf a others ≡ₚ relevantPeers a others.
Proof.
  unfold connectionsOf. by rewrite sort_Permutation, pushed_relevantPeers.
Qed.

(** ** Running the builder *)

Lemma bind_Ok {A B} (m : M A) (k : A → M B) h a h' :
  m h = (Ok a, h') → bind m k h = k a h'.
Proof. unfold bind. by intros ->. Qed.

Lemma bind_getField {B} l f (k : jsval → M B) h r :
  h !! l = Some (ObjResearcher r) → bind (getField l f) k h = k (f r) h.
Proof. intros Hl. unfold bind, getField. by rewrite Hl. Qed.

Lemma bind_liftR_Ok {A B} (r : result A) a (k : A → M B) h :
  r = Ok a → bind (liftR r) k h = k a h.
Proof. by intros ->. Qed.

Lemma bind_split {B} v (k : list jsstring → M B) h :
  splittable v → bind (liftR (splitByDelimiters v)) k h = k (tokens v) h.
Proof. intros Hv. apply bind_liftR_Ok. by apply splittable_tokens. Qed.

Lemma sameData_fields a b :
  sameData a b →
  r_id a = r_id b ∧ r_name a = r_name b ∧ r_affiliation a = r_affiliation b ∧
  r_program a = r_program b ∧ r_theme a = r_theme b ∧ r_field a = r_field b ∧
  r_keywords a = r_keywords b ∧ r_keytechnology a = r_keytechnology b.
Proof.
  unfold sameData. intros H.
  repeat split;
    [ apply (f_equal r_id) in H | apply (f_equal r_name) in H
    | apply (f_equal r_affiliation) in H | apply (f_equal r_program) in H
    | apply (f_equal r_theme) in H | apply (f_equal r_field) in H
    | apply (f_equal r_keywords) in H | apply (f_equal r_keytechnology) in H ];
    exact H.
Qed.

Lemma sameData_refl a : sameData a a.
Proof. reflexivity. Qed.

Lemma sameData_withConnections a c : sameData a (withConnections a c).
Proof. reflexivity. Qed.

Lemma withConnections_sameData a b c :
  sameData a b → withConnections b c = withConnections a c.
Proof.
  intros H. apply sameData_fields in H as (?&?&?&?&?&?&?&?).
  unfold withConnections. by f_equal.
Qed.

Lemma visitOther_run h l lo a a' b b' conns :
  h !! l = Some (ObjResearcher a') → sameData a a' →
  h !! lo = Some (ObjResearcher b') → sameData b b' → readable b →
  visitOther l (tokens (r_keywords a)) (tokens (r_keytechnology a))
             (tokens (r_field a)) (tokens (r_theme a)) conns lo h
  = (Ok (conns ++ option_list (edge a b)), h).
Proof.
  intros Hl Ha Hlo Hb (Hkw & Hkt & Hf & Hth & Hp).
  apply sameData_fields in Ha as (Ha & _).
  apply sameData_fields in Hb as (Hb1 & _ & _ & Hb4 & Hb5 & Hb6 & Hb7 & Hb8).
  unfold visitOther, edge.
  rewrite (bind_getField _ _ _ _ _ Hl), (bind_getField _ _ _ _ _ Hlo).
  rewrite <- Ha, <- Hb1.
  destruct (strictEq (r_id a) (r_id b)).
  { unfold ret. by rewrite app_nil_r. }
  rewrite (bind_getField _ _ _ _ _ Hlo), <- Hb7, (bind_split _ _ _ Hkw).
  rewrite (bind_getField _ _ _ _ _ Hlo), <- Hb8, (bind_split _ _ _ Hkt).
  rewrite (bind_getField _ _ _ _ _ Hlo), <- Hb6, (bind_split _ _ _ Hf).
  rewrite (bind_getField _ _ _ _ _ Hlo), <- Hb5, (bind_split _ _ _ Hth).
  rewrite (bind_getField _ _ _ _ _ Hlo), <- Hb4, (bind_split _ _ _ Hp).
  fold (scoreToward a b).
  destruct (0 <? scoreToward a b)%Z.
  - rewrite (bind_getField _ _ _ _ _ Hlo), <- Hb1. reflexivity.
  - unfold ret. by rewrite app_nil_r.
Qed.

Lemma innerLoop_run h l a a' elems rs conns :
  h !! l = Some (ObjResearcher a') → sameData a a' →
  dataAt h elems rs → Forall readable rs →
  forEachAcc elems
    (visitOther l (tokens (r_keywords a)) (tokens (r_keytechnology a))
                (tokens (r_field a)) (tokens (r_theme a))) conns h
  = (Ok (conns ++ pushed a rs), h).
Proof.
  intros Hl Ha Hdata Hread. revert conns.
  induction Hdata as [|lo b elems rs (b' & Hlo & Hb) _ IH]; intros conns.
  - simpl. unfold ret. by rewrite app_nil_r.
  - apply Forall_cons in Hread as [Hb_read Hread].
    simpl. rewrite (bind_Ok _ _ _ _ _ (visitOther_run h l lo a a' b b' conns Hl Ha Hlo Hb Hb_read)).
    rewrite IH by done. unfold pushed. csimpl.
    destruct (edge a b); simpl; by rewrite <- ?app_assoc, ?app_nil_r.
Qed.

Lemma visitResearcher_run h l a a' elems rs :
  h !! l = Some (ObjResearcher a') → sameData a a' → readable a →
  dataAt h elems rs → Forall readable rs →
  visitResearcher elems l h
  = (Ok (), <[l := ObjResearcher (withConnections a (connectionsOf a rs))]> h).
Proof.
  intros Hl Ha (Hkw & Hkt & Hf & Hth & Hp) Hdata Hread.
  pose proof (sameData_fields _ _ Ha) as (_ & _ & _ & H4 & H5 & H6 & H7 & H8).
  unfold visitResearcher.
  rewrite (bind_getField _ _ _ _ _ Hl), <- H7, (bind_split _ _ _ Hkw).
  rewrite (bind_getField _ _ _ _ _ Hl), <- H8, (bind_split _ _ _ Hkt).
  rewrite (bind_getField _ _ _ _ _ Hl), <- H6, (bind_split _ _ _ Hf).
  rewrite (bind_getField _ _ _ _ _ Hl), <- H5, (bind_split _ _ _ Hth).
  rewrite (bind_getField _ _ _ _ _ Hl), <- H4, (bind_split _ _ _ Hp).
  rewrite (bind_Ok _ _ _ _ _ (innerLoop_run h l a a' elems rs [] Hl Ha Hdata Hread)).
  unfold setConnections. rewrite Hl. simpl.
  by rewrite (withConnections_sameData a a').
Qed.

Lemma graphHeap_lookup h rs visited l :
  graphHeap h rs visited !! l
  = (λ o, if bool_decide (l ∈ visited) then annotate rs o else o) <$> h !! l.
Proof.
  unfold graphHeap. rewrite map_lookup_imap. by destruct (h !! l).
Qed.

Lemma graphHeap_nil h rs : graphHeap h rs [] = h.
Proof.
  apply map_eq. intros l. rewrite graphHeap_lookup.
  rewrite bool_decide_eq_false_2 by apply not_elem_of_nil.
  by destruct (h !! l).
Qed.

Lemma graphHeap_ext h rs visited visited' :
  (∀ l, l ∈ visited ↔ l ∈ visited') →
  graphHeap h rs visited = graphHeap h rs visited'.
Proof.
  intros Hsame. apply map_eq. intros l. rewrite !graphHeap_lookup.
  by rewrite (bool_decide_ext _ _ (Hsame l)).
Qed.

Lemma graphHeap_record h rs visited l a :
  h !! l = Some (ObjResearcher a) →
  ∃ a', graphHeap h rs visited !! l = Some (ObjResearcher a') ∧ sameData a a'.
Proof.
  intros Hl. rewrite graphHeap_lookup, Hl. simpl.
  destruct (bool_decide (l ∈ visited)); eauto using sameData_refl.
  eexists. split; [done|]. apply sameData_withConnections.
Qed.

Lemma graphHeap_dataAt h rs0 visited elems rs :
  recordsAt h elems rs → dataAt (graphHeap h rs0 visited) elems rs.
Proof.
  intros Hrec. eapply Forall2_impl; [exact Hrec|].
  intros l a Hl. by apply graphHeap_record.
Qed.

Lemma graphHeap_visit h rs visited l a :
  h !! l = Some (ObjResearcher a) →
  <[l := ObjResearcher (withConnections a (connectionsOf a rs))]>
    (graphHeap h rs visited)
  = graphHeap h rs (l :: visited).
Proof.
  intros Hl. apply map_eq. intros l0.
  destruct (decide (l = l0)) as [<-|Hne].
  - rewrite lookup_insert_eq, graphHeap_lookup, Hl.
    rewrite bool_decide_eq_true_2 by left. reflexivity.
  - rewrite lookup_insert_ne, !graphHeap_lookup by done.
    erewrite (bool_decide_ext (l0 ∈ l :: visited)); [done|].
    rewrite elem_of_cons. split; [intros [->|?]; done|by right].
Qed.

Lemma outerLoop_run h elems rs todo visited :
  recordsAt h elems rs → Forall readable rs →
  (∀ l, l ∈ todo → ∃ a, h !! l = Some (ObjResearcher a) ∧ readable a) →
  forEach todo (visitResearcher elems) (graphHeap h rs visited)
  = (Ok (), graphHeap h rs (todo ++ visited)).
Proof.
  intros Hrec Hread. revert visited.
  induction todo as [|l todo IH]; intros visited Htodo; [done|].
  destruct (Htodo l) as (a & Hl & Ha); [left|].
  destruct (graphHeap_record h rs visited l a Hl) as (a' & Hl' & Hsame).
  simpl.
  rewrite (bind_Ok _ _ _ _ _
             (visitResearcher_run _ l a a' elems rs Hl' Hsame Ha
                (graphHeap_dataAt h rs visited elems rs Hrec) Hread)).
  rewrite (graphHeap_visit h rs visited l a Hl).
  rewrite IH by (intros l0 Hl0; apply Htodo; by right).
  f_equal. apply graphHeap_ext. intros l0.
  rewrite !elem_of_app, !elem_of_cons, elem_of_app. tauto.
Qed.

Lemma recordsAt_lookup h elems rs l :
  recordsAt h elems rs → l ∈ elems →
  ∃ a, a ∈ rs ∧ h !! l = Some (ObjResearcher a).
Proof.
  intros Hrec Hl. apply list_elem_of_lookup in Hl as [i Hi].
  destruct (Forall2_lookup_l _ _ _ _ _ Hrec Hi) as (a & Ha & Hla).
  exists a. split; [|done]. by eapply list_elem_of_lookup_2.
Qed.

(** The builder runs to the end on readable records and leaves each record
    of the array with its sorted entries; nothing else changes. *)
Lemma calculateConnections_run h researchers elems rs :
  h !! researchers = Some (ObjArray elems) →
  recordsAt h elems rs → Forall readable rs →
  calculateConnections researchers h = (Ok (), graphHeap h rs elems).
Proof.
  intros Harr Hrec Hread. unfold calculateConnections.
  unfold bind at 1. unfold getArray. rewrite Harr.
  rewrite <- (graphHeap_nil h rs) at 1.
  rewrite (outerLoop_run h elems rs elems [] Hrec Hread).
  - by rewrite app_nil_r.
  - intros l Hl. destruct (recordsAt_lookup h elems rs l Hrec Hl) as (a & Ha & Hla).
    exists a. split; [done|]. by eapply (proj1 (Forall_forall _ _) Hread).
Qed.

Lemma graphHeap_visited h rs elems l a :
  l ∈ elems → h !! l = Some (ObjResearcher a) →
  graphHeap h rs elems !! l
  = Some (ObjResearcher (withConnections a (connectionsOf a rs))).
Proof.
  intros Hl Hla. rewrite graphHeap_lookup, Hla.
  by rewrite bool_decide_eq_true_2.
Qed.

Lemma graphHeap_other h rs elems l :
  l ∉ elems → graphHeap h rs elems !! l = h !! l.
Proof.
  intros Hl. rewrite graphHeap_lookup, bool_decide_eq_false_2 by done.
  by destruct (h !! l).
Qed.

(** ** Computations that only read *)

Lemma readOnly_ret {A} (a : A) : readOnly (ret a).
Proof. by intros h. Qed.

Lemma readOnly_liftR {A} (r : result A) : readOnly (liftR r).
Proof. by intros h. Qed.

Lemma readOnly_bind {A B} (m : M A) (k : A → M B) :
  readOnly m → (∀ a, readOnly (k a)) → readOnly (bind m k).
Proof.
  intros Hm Hk h. unfold bind. specialize (Hm h).
  destruct (m h) as [[a|e] h']; simpl in Hm; subst h'; [apply Hk|done].
Qed.

Lemma readOnly_getField l attr : readOnly (getField l attr).
Proof. intros h. unfold getField. by destruct (h !! l) as [[]|]. Qed.

Lemma readOnly_getFilter l key : readOnly (getFilter l key).
Proof. intros h. unfold getFilter. by destruct (h !! l) as [[]|]. Qed.

Lemma readOnly_getArray l : readOnly (getArray l).
Proof. intros h. unfold getArray. by destruct (h !! l) as [[]|]. Qed.

Lemma readOnly_countKeys l : readOnly (countKeys l).
Proof. intros h. unfold countKeys. by destruct (h !! l) as [[]|]. Qed.

Lemma readOnly_if {A} (b : bool) (m1 m2 : M A) :
  readOnly m1 → readOnly m2 → readOnly (if b then m1 else m2).
Proof. by destruct b. Qed.

Create HintDb readonly.
#[local] Hint Resolve readOnly_ret readOnly_liftR readOnly_getField
  readOnly_getFilter readOnly_getArray readOnly_countKeys : readonly.
#[local] Hint Extern 2 (readOnly (bind _ _)) =>
  apply readOnly_bind; [|intros ?] : readonly.
#[local] Hint Extern 2 (readOnly (if _ then _ else _)) =>
  apply readOnly_if : readonly.

Lemma readOnly_forEachAcc {A S} (l : list A) (callback : S → A → M S) acc :
  (∀ acc x, readOnly (callback acc x)) → readOnly (forEachAcc l callback acc).
Proof.
  intros Hcb. revert acc. induction l as [|x l IH]; intros acc; simpl;
    auto 10 with readonly.
Qed.

Lemma readOnly_visitOther l kw kt fs th conns lo :
  readOnly (visitOther l kw kt fs th conns lo).
Proof. unfold visitOther. auto 40 with readonly. Qed.

(** ** Runs of the builder that complete *)

Lemma bind_Ok_inv {A B} (m : M A) (k : A → M B) h b h' :
  bind m k h = (Ok b, h') → ∃ a h1, m h = (Ok a, h1) ∧ k a h1 = (Ok b, h').
Proof.
  unfold bind. destruct (m h) as [[a|e] h1]; [|done]. intros Hk. by exists a, h1.
Qed.

Lemma getField_Ok_inv l attr h v h' r :
  h !! l = Some (ObjResearcher r) →
  getField l attr h = (Ok v, h') → v = attr r ∧ h' = h.
Proof. unfold getField. intros ->. by intros [= <- <-]. Qed.

Lemma split_Ok_inv v h toks h' :
  liftR (splitByDelimiters v) h = (Ok toks, h') → splittable v ∧ h' = h.
Proof. unfold liftR. intros [= Hv <-]. split; [by exists toks|done]. Qed.

Lemma readable_sameData a a' : sameData a a' → readable a' → readable a.
Proof.
  intros (_ & _ & _ & H4 & H5 & H6 & H7 & H8)%sameData_fields. unfold readable.
  by rewrite H4, H5, H6, H7, H8.
Qed.

Lemma visitResearcher_Ok_inv elems l h h' a :
  h !! l = Some (ObjResearcher a) →
  visitResearcher elems l h = (Ok (), h') →
  readable a ∧ ∃ c, h' = <[l := ObjResearcher (withConnections a c)]> h.
Proof.
  intros Hl Hrun. unfold visitResearcher in Hrun.
  apply bind_Ok_inv in Hrun as (v1 & h1 & Hv1 & Hrun).
  apply (getField_Ok_inv _ _ _ _ _ a Hl) in Hv1 as [-> ->].
  apply bind_Ok_inv in Hrun as (kw & h1 & [Hkw ->]%split_Ok_inv & Hrun).
  apply bind_Ok_inv in Hrun as (v2 & h1 & Hv2 & Hrun).
  apply (getField_Ok_inv _ _ _ _ _ a Hl) in Hv2 as [-> ->].
  apply bind_Ok_inv in Hrun as (kt & h1 & [Hkt ->]%split_Ok_inv & Hrun).
  apply bind_Ok_inv in Hrun as (v3 & h1 & Hv3 & Hrun).
  apply (getField_Ok_inv _ _ _ _ _ a Hl) in Hv3 as [-> ->].
  apply bind_Ok_inv in Hrun as (fs & h1 & [Hf ->]%split_Ok_inv & Hrun).
  apply bind_Ok_inv in Hrun as (v4 & h1 & Hv4 & Hrun).
  apply (getField_Ok_inv _ _ _ _ _ a Hl) in Hv4 as [-> ->].
  apply bind_Ok_inv in Hrun as (th & h1 & [Hth ->]%split_Ok_inv & Hrun).
  apply bind_Ok_inv in Hrun as (v5 & h1 & Hv5 & Hrun).
  apply (getField_Ok_inv _ _ _ _ _ a Hl) in Hv5 as [-> ->].
  apply bind_Ok_inv in Hrun as (ps & h1 & [Hp ->]%split_Ok_inv & Hrun).
  apply bind_Ok_inv in Hrun as (conns & h1 & Hinner & Hrun).
  pose proof (readOnly_forEachAcc elems (visitOther l kw kt fs th) []
                (λ acc x, readOnly_visitOther l kw kt fs th acc x) h) as Hro.
  rewrite Hinner in Hro. simpl in Hro. subst h1.
  unfold setConnections in Hrun. rewrite Hl in Hrun.
  injection Hrun as <-. split; [done|]. by eexists.
Qed.

Lemma outerLoop_Ok_inv (h : heap) elems todo (hc hc' : heap) :
  (∀ l a, h !! l = Some (ObjResearcher a) →
          ∃ a', hc !! l = Some (ObjResearcher a') ∧ sameData a a') →
  (∀ l, l ∈ todo → ∃ a, h !! l = Some (ObjResearcher a)) →
  forEach todo (visitResearcher elems) hc = (Ok (), hc') →
  ∀ l a, l ∈ todo → h !! l = Some (ObjResearcher a) → readable a.
Proof.
  revert hc. induction todo as [|l0 todo IH]; intros hc Hinv Htodo Hrun l a Hl Hla.
  { by apply elem_of_nil in Hl. }
  simpl in Hrun. apply bind_Ok_inv in Hrun as ([] & h1 & Hstep & Hrest).
  destruct (Htodo l0) as (a0 & Hla0); [left|].
  destruct (Hinv l0 a0 Hla0) as (a0' & Hl0 & Hsame).
  destruct (visitResearcher_Ok_inv elems l0 hc h1 a0' Hl0 Hstep) as (Hread & c & ->).
  apply elem_of_cons in Hl as [-> | Hl].
  - assert (a = a0) as -> by congruence. by apply (readable_sameData a0 a0').
  - eapply (IH (<[l0 := ObjResearcher (withConnections a0' c)]> hc)); try done.
    + intros l1 a1 Hla1. destruct (decide (l0 = l1)) as [<-|Hne].
      * rewrite lookup_insert_eq. eexists. split; [done|].
        assert (a1 = a0) as -> by congruence.
        unfold sameData in *. by rewrite Hsame.
      * rewrite lookup_insert_ne by done. by apply Hinv.
    + intros l1 Hl1. apply Htodo. by right.
Qed.

(** A run of the builder that completes has split every attribute of every
    record of the array. *)
Lemma calculateConnections_Ok_readable h researchers elems rs h' :
  h !! researchers = Some (ObjArray elems) →
  recordsAt h elems rs →
  calculateConnections researchers h = (Ok (), h') →
  Forall readable rs.
Proof.
  intros Harr Hrec Hrun. unfold calculateConnections in Hrun.
  apply bind_Ok_inv in Hrun as (elems' & h1 & Hget & Hrun).
  unfold getArray in Hget. rewrite Harr in Hget. injection Hget as <- <-.
  pose proof (outerLoop_Ok_inv h elems elems h h') as Hall.
  apply Forall_forall. intros a Ha.
  apply list_elem_of_lookup in Ha as [i Hi].
  destruct (Forall2_lookup_r _ _ _ _ _ Hrec Hi) as (l & Hl & Hla).
  apply (Hall) with (l := l); try done.
  - intros l1 a1 Hla1. exists a1. split; [done|apply sameData_refl].
  - intros l1 Hl1. destruct (recordsAt_lookup h elems rs l1 Hrec Hl1) as (a1 & _ & ?).
    by exists a1.
  - by eapply list_elem_of_lookup_2.
Qed.

(** ** The relevance graph *)

Lemma calculateConnections_entries h researchers elems rs :
  h !! researchers = Some (ObjArray elems) →
  recordsAt h elems rs → Forall readable rs →
  ∃ h', calculateConnections researchers h = (Ok (), h') ∧
    (∀ l, l ∉ elems → h' !! l = h !! l) ∧
    ∀ l a, l ∈ elems → h !! l = Some (ObjResearcher a) →
      h' !! l = Some (ObjResearcher (withConnections a (connectionsOf a rs))).
Proof.
  intros Harr Hrec Hread. exists (graphHeap h rs elems).
  split; [by apply calculateConnections_run|].
  split; [apply graphHeap_other|]. intros l a. apply graphHeap_visited.
Qed.

Lemma calculateConnections_completed h researchers elems rs h' :
  h !! researchers = Some (ObjArray elems) →
  recordsAt h elems rs →
  calculateConnections researchers h = (Ok (), h') →
  ∀ l a, l ∈ elems → h !! l = Some (ObjResearcher a) →
    h' !! l = Some (ObjResearcher (withConnections a (connectionsOf a rs))).
Proof.
  intros Harr Hrec Hrun.
  pose proof (calculateConnections_Ok_readable _ _ _ _ _ Harr Hrec Hrun) as Hread.
  rewrite (calculateConnections_run h researchers elems rs Harr Hrec Hread) in Hrun.
  injection Hrun as <-. intros l a. apply graphHeap_visited.
Qed.

Lemma calculateConnections_total h researchers elems rs :
  h !! researchers = Some (ObjArray elems) →
  recordsAt h elems rs → Forall readable rs →
  ∃ h', calculateConnections researchers h = (Ok (), h').
Proof.
  intros Harr Hrec Hread. eexists. by apply calculateConnections_run.
Qed.

Lemma readable_sample id fs th kw kt p : readable (sample id fs th kw kt p).
Proof.
  repeat split; apply stringOrAbsent_splittable; right; by eexists.
Qed.

(** C1: on an array of records whose attributes the tokenizer accepts the
    builder completes, and after every run that completes the
    entries it stores for a record A are, up to their order, one entry
    (id of B, score) for every other record B (id different from A's) whose
    score is positive, where the score is 3 per field tag of A that is a
    member of B's field tokens, 2 per theme tag, 1 per keyword and 1 per
    technology tag, counted with repetition in A's lists; the program
    attribute does not enter the score. One shared field tag and nothing
    else scores 3; one shared field tag and one shared keyword score 4. *)
Theorem calculateConnections_scores :
  (∀ h researchers elems rs,
     h !! researchers = Some (ObjArray elems) →
     recordsAt h elems rs →
     (Forall readable rs → ∃ h', calculateConnections researchers h = (Ok (), h')) ∧
     (∀ h', calculateConnections researchers h = (Ok (), h') →
        ∀ l a, l ∈ elems → h !! l = Some (ObjResearcher a) →
          ∃ conns,
            h' !! l = Some (ObjResearcher (withConnections a conns)) ∧
            conns ≡ₚ relevantPeers a rs)) ∧
  (∀ a b, scoreToward a b = relevance a b) ∧
  (∀ a a' b b',
     r_field a = r_field a' → r_theme a = r_theme a' →
     r_keywords a = r_keywords a' → r_keytechnology a = r_keytechnology a' →
     r_field b = r_field b' → r_theme b = r_theme b' →
     r_keywords b = r_keywords b' → r_keytechnology b = r_keytechnology b' →
     scoreToward a b = scoreToward a' b') ∧
  (∀ a b,
     sharedCount (tokens (r_field a)) (tokens (r_field b)) = 1%Z →
     sharedCount (tokens (r_theme a)) (tokens (r_theme b)) = 0%Z →
     sharedCount (tokens (r_keytechnology a)) (tokens (r_keytechnology b)) = 0%Z →
     (sharedCount (tokens (r_keywords a)) (tokens (r_keywords b)) = 0%Z →
      scoreToward a b = 3%Z) ∧
     (sharedCount (tokens (r_keywords a)) (tokens (r_keywords b)) = 1%Z →
      scoreToward a b = 4%Z)) ∧
  connectionsAt
    (heapAfter (calculateConnections 0
       (heapOf [sample "1" "X,Y" "" "" "" ""; sample "2" "Y,Z" "" "" "" ""]))) 1
  = Some [mkConnection (JStr (utf16 "2")) 3] ∧
  connectionsAt
    (heapAfter (calculateConnections 0
       (heapOf [sample "1" "X,Y" "" "k1" "" ""; sample "2" "Y,Z" "" "k2,k1" "" ""]))) 1
  = Some [mkConnection (JStr (utf16 "2")) 4] ∧
  connectionsAt
    (heapAfter (calculateConnections 0
       (heapOf [sample "1" "" "" "" "" "P"; sample "2" "" "" "" "" "P"]))) 1
  = Some [].
Proof.
  split; [|split; [|split; [|split; [|repeat split; reflexivity]]]].
  - intros h researchers elems rs Harr Hrec.
    split; [by apply (calculateConnections_total h researchers elems rs)|].
    intros h' Hrun l a Hl Hla.
    exists (connectionsOf a rs).
    split; [by apply (calculateConnections_completed h researchers elems rs h')|].
    apply connectionsOf_relevantPeers.
  - exact scoreToward_relevance.
  - intros a a' b b' Hf Hth Hkw Hkt Hf' Hth' Hkw' Hkt'. unfold scoreToward.
    by rewrite Hf, Hth, Hkw, Hkt, Hf', Hth', Hkw', Hkt'.
  - intros a b Hf Hth Hkt. rewrite scoreToward_relevance. unfold relevance.
    rewrite Hf, Hth, Hkt. split; intros ->; reflexivity.
Qed.

Lemma calculateConnections_scores_witness :
  ∃ h',
    calculateConnections 0
      (heapOf [sample "1" "X,Y" "" "k1" "" ""; sample "2" "Y,Z" "" "k2,k1" "" ""])
    = (Ok (), h') ∧
    ∀ l a,
      l ∈ [1; 2] →
      heapOf [sample "1" "X,Y" "" "k1" "" ""; sample "2" "Y,Z" "" "k2,k1" "" ""] !! l
      = Some (ObjResearcher a) →
      ∃ conns,
        h' !! l = Some (ObjResearcher (withConnections a conns)) ∧
        conns ≡ₚ relevantPeers a
                  [sample "1" "X,Y" "" "k1" "" ""; sample "2" "Y,Z" "" "k2,k1" "" ""].
Proof.
  destruct (proj1 calculateConnections_scores
              (heapOf [sample "1" "X,Y" "" "k1" "" ""; sample "2" "Y,Z" "" "k2,k1" "" ""])
              0 [1; 2]
              [sample "1" "X,Y" "" "k1" "" ""; sample "2" "Y,Z" "" "k2,k1" "" ""])
    as [Htotal Hscores].
  - reflexivity.
  - repeat constructor.
  - destruct Htotal as [h' Hrun].
    + repeat constructor; apply readable_sample.
    + exists h'. split; [exact Hrun|]. exact (Hscores h' Hrun).
Defined.

(** C5: on an array of records with pairwise distinct ids, the builder
    completes when the tokenizer accepts the attributes of the records, and
    after every run that completes every record's [connections] has no entry with
    the record's own id, no two entries with the same peer id, only
    strictly positive scores, is sorted by non-increasing score, and its
    entries of any one score stand in the order of their peers in the
    input array. *)
Theorem calculateConnections_invariants h researchers elems rs :
  h !! researchers = Some (ObjArray elems) →
  recordsAt h elems rs →
  NoDup (r_id <$> rs) →
  (Forall readable rs → ∃ h', calculateConnections researchers h = (Ok (), h')) ∧
  (∀ h', calculateConnections researchers h = (Ok (), h') →
     ∀ l a, l ∈ elems → h !! l = Some (ObjResearcher a) →
       ∃ conns,
         h' !! l = Some (ObjResearcher (withConnections a conns)) ∧
         (∀ e, e ∈ conns → c_id e ≠ r_id a) ∧
         NoDup (c_id <$> conns) ∧
         (∀ e, e ∈ conns → (0 < c_score e)%Z) ∧
         StronglySorted scoreNotBelow conns ∧
         (∀ k, (c_id <$> withScore k conns) `sublist_of` (r_id <$> rs))).
Proof.
  intros Harr Hrec Hids.
  split; [by apply (calculateConnections_total h researchers elems rs)|].
  intros h' Hrun l a Hl Hla.
  exists (connectionsOf a rs).
  split; [by apply (calculateConnections_completed h researchers elems rs h')|].
  split; [apply connectionsOf_no_self|].
  split; [by apply connectionsOf_NoDup|].
  split; [apply connectionsOf_positive|].
  split; [apply connectionsOf_sorted|].
  intros k. apply connectionsOf_stable.
Qed.

Lemma calculateConnections_invariants_witness :
  ∃ h',
    calculateConnections 0
      (heapOf [sample "1" "X" "" "a,b" "" "P"; sample "2" "" "" "a" "" "P";
               sample "3" "X" "" "" "" "P"; sample "4" "" "" "b" "" "P"])
    = (Ok (), h') ∧
    ∀ l a,
      l ∈ [1; 2; 3; 4] →
      heapOf [sample "1" "X" "" "a,b" "" "P"; sample "2" "" "" "a" "" "P";
              sample "3" "X" "" "" "" "P"; sample "4" "" "" "b" "" "P"] !! l
      = Some (ObjResearcher a) →
      ∃ conns,
        h' !! l = Some (ObjResearcher (withConnections a conns)) ∧
        (∀ e, e ∈ conns → c_id e ≠ r_id a) ∧
        NoDup (c_id <$> conns) ∧
        (∀ e, e ∈ conns → (0 < c_score e)%Z) ∧
        StronglySorted scoreNotBelow conns ∧
        (∀ k, (c_id <$> withScore k conns)
              `sublist_of`
              (r_id <$> [sample "1" "X" "" "a,b" "" "P"; sample "2" "" "" "a" "" "P";
                         sample "3" "X" "" "" "" "P"; sample "4" "" "" "b" "" "P"])).
Proof.
  destruct (calculateConnections_invariants
              (heapOf [sample "1" "X" "" "a,b" "" "P"; sample "2" "" "" "a" "" "P";
                       sample "3" "X" "" "" "" "P"; sample "4" "" "" "b" "" "P"])
              0 [1; 2; 3; 4]
              [sample "1" "X" "" "a,b" "" "P"; sample "2" "" "" "a" "" "P";
               sample "3" "X" "" "" "" "P"; sample "4" "" "" "b" "" "P"])
    as [Htotal Hinv].
  - reflexivity.
  - repeat constructor.
  - compute_done.
  - destruct Htotal as [h' Hrun].
    + repeat constructor; apply readable_sample.
    + exists h'. split; [exact Hrun|]. exact (Hinv h' Hrun).
Defined.

(** ** Running the filter *)

Lemma getField_pure l attr h :
  getField l attr h = (fieldOf (recordOf h l) attr, h).
Proof.
  unfold getField, recordOf. by destruct (h !! l) as [[]|].
Qed.

Lemma bind_pure {A B} (m : M A) (k : A → M B) h r :
  m h = (r, h) →
  bind m k h = match r with Ok a => k a h | Throw e => (Throw e, h) end.
Proof. unfold bind. intros ->. by destruct r. Qed.

Lemma bind_getFilter {B} l key (k : jsval → M B) h props :
  h !! l = Some (ObjFilters props) →
  bind (getFilter l key) k h = k (criterionOf props key) h.
Proof. intros Hl. unfold bind, getFilter. by rewrite Hl. Qed.

Section filter_runs.
Variable toLowerCase : jsstring → jsstring.

Lemma textMatch_pure l searchText h :
  textMatch toLowerCase l searchText h
  = (textMatchPure toLowerCase (recordOf h l) searchText, h).
Proof.
  unfold textMatch, textMatchPure.
  rewrite (bind_pure _ _ _ _ (getField_pure l r_name h)).
  destruct (fieldOf (recordOf h l) r_name) as [v1|]; [|done]. simpl.
  unfold bind at 1, liftR at 1.
  destruct (textIncludes toLowerCase v1 searchText) as [[|]|]; [done| |done].
  simpl.
  rewrite (bind_pure _ _ _ _ (getField_pure l r_theme h)).
  destruct (fieldOf (recordOf h l) r_theme) as [v2|]; [|done]. simpl.
  unfold bind at 1, liftR at 1.
  destruct (textIncludes toLowerCase v2 searchText) as [[|]|]; [done| |done].
  simpl.
  rewrite (bind_pure _ _ _ _ (getField_pure l r_affiliation h)).
  by destruct (fieldOf (recordOf h l) r_affiliation).
Qed.

Lemma failsCriterion_pure filters l key attr h props :
  h !! filters = Some (ObjFilters props) →
  failsCriterion filters l key attr h
  = (failsPure (criterionOf props key) (recordOf h l) attr, h).
Proof.
  intros Hf. unfold failsCriterion, failsPure.
  rewrite (bind_getFilter _ _ _ _ _ Hf).
  destruct (truthy (criterionOf props key)); [|done].
  rewrite (bind_pure _ _ _ _ (getField_pure l attr h)).
  destruct (fieldOf (recordOf h l) attr) as [v|]; [|done]. simpl.
  unfold bind, liftR. by destruct (matchField v (criterionOf props key)).
Qed.

Lemma keepResearcher_pure filters l h props :
  h !! filters = Some (ObjFilters props) →
  keepResearcher toLowerCase filters l h
  = (keepPure toLowerCase (criterionOf props) (recordOf h l), h).
Proof.
  intros Hf. unfold keepResearcher, keepPure.
  rewrite !(bind_getFilter _ _ _ _ _ Hf).
  set (th := criterionOf props "theme").
  set (af := criterionOf props "affiliation").
  assert ((if truthy (jsOr th af)
           then textMatch toLowerCase l (jsOr (jsOr th af) (JStr []))
           else ret true) h
          = ((if truthy (jsOr th af)
              then textMatchPure toLowerCase (recordOf h l)
                     (jsOr (jsOr th af) (JStr []))
              else Ok true), h)) as Htext.
  { destruct (truthy (jsOr th af)); [apply textMatch_pure|done]. }
  rewrite (bind_pure _ _ _ _ Htext). clear Htext.
  destruct (if truthy (jsOr th af) then _ else _) as [[|]|]; [|done|done].
  simpl.
  rewrite (bind_pure _ _ _ _ (failsCriterion_pure filters l _ _ h props Hf)).
  destruct (failsPure (criterionOf props "field") _ _) as [[|]|]; [done| |done].
  simpl.
  rewrite (bind_pure _ _ _ _ (failsCriterion_pure filters l _ _ h props Hf)).
  destruct (failsPure (criterionOf props "keyword") _ _) as [[|]|]; [done| |done].
  simpl.
  rewrite (bind_pure _ _ _ _ (failsCriterion_pure filters l _ _ h props Hf)).
  destruct (failsPure (criterionOf props "keytechnology") _ _) as [[|]|];
    [done| |done].
  simpl.
  rewrite (bind_pure _ _ _ _ (failsCriterion_pure filters l _ _ h props Hf)).
  by destruct (failsPure (criterionOf props "program") _ _) as [[|]|].
Qed.

Lemma filterM_pure elems callback pure h :
  (∀ l, callback l h = (pure l, h)) →
  filterM elems callback h = (filterR elems pure, h).
Proof.
  intros Hcb. induction elems as [|l elems IH]; [done|].
  simpl. rewrite (bind_pure _ _ _ _ (Hcb l)).
  destruct (pure l) as [keep|]; [|done]. simpl.
  rewrite (bind_pure _ _ _ _ IH).
  by destruct (filterR elems pure).
Qed.

(** The filter returns the input array when the criteria object has no
    key, and otherwise a new array of the elements the callback keeps. *)
Lemma filterResearchers_run researchers filters h elems props :
  h !! researchers = Some (ObjArray elems) →
  h !! filters = Some (ObjFilters props) →
  filterResearchers toLowerCase researchers filters h
  = if (size props =? 0)%nat then (Ok researchers, h)
    else match filterR elems
                 (λ l, keepPure toLowerCase (criterionOf props) (recordOf h l)) with
         | Ok kept => (Ok (fresh (dom h)), <[fresh (dom h) := ObjArray kept]> h)
         | Throw e => (Throw e, h)
         end.
Proof.
  intros Harr Hf. unfold filterResearchers.
  unfold bind at 1, countKeys. rewrite Hf.
  destruct (size props =? 0)%nat; [done|].
  unfold bind at 1, getArray. rewrite Harr.
  rewrite (bind_pure _ _ _ _
             (filterM_pure elems _ _ h
                (λ l, keepResearcher_pure filters l h props Hf))).
  by destruct (filterR elems _).
Qed.

Lemma filterResearchers_outcome researchers filters h elems props :
  h !! researchers = Some (ObjArray elems) →
  h !! filters = Some (ObjFilters props) →
  outcome (filterResearchers toLowerCase researchers filters h)
  = if (size props =? 0)%nat then Ok elems
    else filterR elems
           (λ l, keepPure toLowerCase (criterionOf props) (recordOf h l)).
Proof.
  intros Harr Hf. rewrite (filterResearchers_run _ _ _ elems props Harr Hf).
  destruct (size props =? 0)%nat; simpl; [by rewrite Harr|].
  destruct (filterR elems _); simpl; [|done].
  by rewrite lookup_insert_eq.
Qed.
End filter_runs.

(** ** The filter on typed input *)

Lemma includes_spec s q :
  includes s q = true ↔ ∃ pre post, s = pre ++ q ++ post.
Proof.
  induction s as [|c s IH].
  - change (includes [] q) with (startsWith [] q || false).
    rewrite orb_false_r, startsWith_spec. split.
    + intros [rest Hrest]. by exists [], rest.
    + intros (pre & post & Heq). symmetry in Heq.
      apply app_eq_nil in Heq as [-> Heq]. by exists post.
  - change (includes (c :: s) q) with (startsWith (c :: s) q || includes s q).
    rewrite orb_true_iff, startsWith_spec, IH. split.
    + intros [[rest Hrest] | (pre & post & ->)].
      * by exists [], rest.
      * by exists (c :: pre), post.
    + intros ([|c' pre] & post & Heq).
      * left. by exists post.
      * right. injection Heq as -> ->. by exists pre, post.
Qed.

Lemma wellTyped_readable r : wellTyped r → readable r.
Proof.
  intros (_ & _ & _ & Hp & Hth & Hf & Hkw & Hkt).
  repeat split; by apply stringOrAbsent_splittable.
Qed.

Lemma matchField_typed v c :
  splittable v → stringOrAbsent c → ∃ b, matchField v c = Ok b.
Proof.
  intros Hv Hc. unfold matchField.
  destruct Hc as [-> | [fv ->]]; [by eexists|].
  destruct (negb (truthy (JStr fv)) || negb (truthy v)); [by eexists|].
  rewrite (splittable_tokens v Hv). simpl.
  destruct (startsWith fv AND_MARKER); by eexists.
Qed.

Section filter_typed.
Variable toLowerCase : jsstring → jsstring.
Hypothesis toLowerCase_empty : ∀ s, toLowerCase s = [] ↔ s = [].

Lemma textIncludes_typed v q :
  stringOrAbsent v → q ≠ [] →
  ∃ b, textIncludes toLowerCase v (JStr q) = Ok b ∧
       (b = true ↔ containsCI toLowerCase v q).
Proof using toLowerCase_empty.
  intros [-> | [s ->]] Hq.
  - exists false. split; [done|]. split; [done|].
    by intros (s & pre & post & [=] & _).
  - destruct s as [|c s].
    + exists false. split; [done|]. split; [done|].
      intros (s & pre & post & [= <-] & Heq). exfalso.
      rewrite (proj2 (toLowerCase_empty []) eq_refl) in Heq.
      symmetry in Heq. apply app_eq_nil in Heq as [_ Heq].
      apply app_eq_nil in Heq as [Heq _].
      apply Hq. by apply toLowerCase_empty.
    + eexists. split; [reflexivity|]. rewrite includes_spec. split.
      * intros (pre & post & Heq). by exists (c :: s), pre, post.
      * intros (s' & pre & post & [= <-] & Heq). by exists pre, post.
Qed.

Lemma textMatchPure_typed r q :
  wellTyped r → q ≠ [] →
  ∃ b, textMatchPure toLowerCase (Some r) (JStr q) = Ok b ∧
       (b = true ↔ containsCI toLowerCase (r_name r) q
                   ∨ containsCI toLowerCase (r_theme r) q
                   ∨ containsCI toLowerCase (r_affiliation r) q).
Proof using toLowerCase_empty.
  intros (_ & Hname & Haff & _ & Hth & _) Hq. unfold textMatchPure. simpl.
  destruct (textIncludes_typed _ q Hname Hq) as (b1 & -> & H1).
  destruct (textIncludes_typed _ q Hth Hq) as (b2 & Hb2 & H2).
  destruct (textIncludes_typed _ q Haff Hq) as (b3 & Hb3 & H3).
  simpl. destruct b1.
  { exists true. split; [done|]. split; [|done]. intros _. left. by apply H1. }
  rewrite Hb2. simpl. destruct b2.
  { exists true. split; [done|]. split; [|done]. intros _. right. left. by apply H2. }
  rewrite Hb3. exists b3. split; [done|]. rewrite H3. split; [tauto|].
  intros [Hc | [Hc | Hc]]; [| |done].
  - by apply H1 in Hc.
  - by apply H2 in Hc.
Qed.

Lemma truthy_jsOr a b : truthy (jsOr a b) = truthy a || truthy b.
Proof. unfold jsOr. by destruct (truthy a) eqn:Ha; [rewrite Ha|]. Qed.

Lemma truthy_typed v :
  stringOrAbsent v → truthy v = true → ∃ q, v = JStr q ∧ q ≠ [].
Proof.
  intros [-> | [q ->]] Hv; [done|]. exists q. split; [done|]. by intros ->.
Qed.

Lemma freeText_typed props r :
  wellTyped r → typedCriteria props →
  ∃ b,
    (if truthy (jsOr (criterionOf props "theme") (criterionOf props "affiliation"))
     then textMatchPure toLowerCase (Some r)
            (jsOr (jsOr (criterionOf props "theme")
                        (criterionOf props "affiliation")) (JStr []))
     else Ok true) = Ok b ∧
    (b = true ↔ passesFreeText toLowerCase props r).
Proof using toLowerCase_empty.
  intros Hr Hprops. unfold passesFreeText, present.
  set (th := criterionOf props "theme").
  set (af := criterionOf props "affiliation").
  assert (stringOrAbsent (jsOr th af)) as Htyped.
  { unfold jsOr. destruct (truthy th); apply Hprops. }
  pose proof (truthy_jsOr th af) as Hor.
  destruct (truthy (jsOr th af)) eqn:Hactive.
  - destruct (truthy_typed _ Htyped Hactive) as (q & Hq & Hne).
    rewrite Hq. replace (jsOr (JStr q) (JStr [])) with (JStr q)
      by (unfold jsOr; by rewrite <- Hq, Hactive).
    destruct (textMatchPure_typed r q Hr Hne) as (b & Hb & Hiff).
    exists b. split; [done|]. rewrite Hiff. split.
    + intros Hc _. by exists q.
    + intros Hc. destruct Hc as (q' & [= <-] & Hc); [|done].
      symmetry in Hor. by apply orb_true_iff in Hor.
  - exists true. split; [done|]. split; [|done]. intros _ Hc.
    symmetry in Hor. apply orb_false_iff in Hor as [H1 H2].
    destruct Hc; congruence.
Qed.

Lemma failsPure_typed c r attr :
  splittable (attr r) → stringOrAbsent c →
  ∃ b, failsPure c (Some r) attr = Ok b ∧
       (b = false ↔ (present c → matchField (attr r) c = Ok true)).
Proof.
  intros Hv Hc. unfold failsPure, present.
  destruct (truthy c) eqn:Hactive.
  - simpl. destruct (matchField_typed (attr r) c Hv Hc) as (m & ->). simpl.
    exists (negb m). split; [done|].
    destruct m; simpl; (split; [done|]); [done|].
    intros H. by specialize (H eq_refl).
  - exists false. by repeat split.
Qed.

Lemma keepPure_typed props r :
  wellTyped r → typedCriteria props →
  ∃ b, keepPure toLowerCase (criterionOf props) (Some r) = Ok b ∧
       (b = true ↔ Passes toLowerCase props r).
Proof using toLowerCase_empty.
  intros Hr Hprops.
  pose proof (wellTyped_readable r Hr) as (Hkw & Hkt & Hf & _ & Hp).
  destruct (freeText_typed props r Hr Hprops) as (bt & Ht & Hbt).
  destruct (failsPure_typed (criterionOf props "field") r r_field Hf (Hprops _))
    as (b1 & H1 & Hb1).
  destruct (failsPure_typed (criterionOf props "keyword") r r_keywords Hkw (Hprops _))
    as (b2 & H2 & Hb2).
  destruct (failsPure_typed (criterionOf props "keytechnology") r r_keytechnology
              Hkt (Hprops _)) as (b3 & H3 & Hb3).
  destruct (failsPure_typed (criterionOf props "program") r r_program Hp (Hprops _))
    as (b4 & H4 & Hb4).
  unfold keepPure, Passes. rewrite Ht. simpl.
  destruct bt; simpl.
  2: { exists false. split; [done|]. split; [done|]. intros (Hc & _).
       by apply Hbt in Hc. }
  rewrite H1. simpl. destruct b1.
  { exists false. split; [done|]. split; [done|]. intros (_ & Hc & _).
    by apply Hb1 in Hc. }
  rewrite H2. simpl. destruct b2.
  { exists false. split; [done|]. split; [done|]. intros (_ & _ & Hc & _).
    by apply Hb2 in Hc. }
  rewrite H3. simpl. destruct b3.
  { exists false. split; [done|]. split; [done|]. intros (_ & _ & _ & Hc & _).
    by apply Hb3 in Hc. }
  rewrite H4. simpl. destruct b4.
  { exists false. split; [done|]. split; [done|]. intros (_ & _ & _ & _ & Hc).
    by apply Hb4 in Hc. }
  exists true. split; [done|]. split; [|done]. intros _.
  split; [by apply Hbt|]. unfold passesAttribute.
  split; [by apply (proj1 Hb1)|]. split; [by apply (proj1 Hb2)|].
  split; [by apply (proj1 Hb3)|by apply (proj1 Hb4)].
Qed.
End filter_typed.

Lemma filterR_Ok elems callback keep :
  (∀ l, l ∈ elems → callback l = Ok (keep l)) →
  filterR elems callback = Ok (List.filter keep elems).
Proof.
  induction elems as [|l elems IH]; intros Hcb; [done|].
  simpl. rewrite (Hcb l) by left. simpl.
  rewrite IH by (intros l' Hl'; apply Hcb; by right). simpl.
  by destruct (keep l).
Qed.

Lemma filter_id {A} (keep : A → bool) (l : list A) :
  (∀ x, x ∈ l → keep x = true) → List.filter keep l = l.
Proof.
  induction l as [|x l IH]; intros Hall; [done|].
  simpl. rewrite (Hall x) by left. f_equal. apply IH.
  intros y Hy. apply Hall. by right.
Qed.

Lemma recordOf_Some h l r : h !! l = Some (ObjResearcher r) → recordOf h l = Some r.
Proof. unfold recordOf. by intros ->. Qed.

Lemma criterionOf_empty key : criterionOf ∅ key = JUndefined.
Proof. unfold criterionOf. by rewrite lookup_empty. Qed.

Lemma asciiLower_empty s : asciiLower s = [] ↔ s = [].
Proof. unfold asciiLower. by destruct s. Qed.

(** C4: on an array of well-typed records and typed criteria, the filter
    returns, in order, the elements whose record passes every active check:
    when a theme or affiliation criterion is present, the name, the theme or
    the affiliation contains the query (the first present one of the two)
    case-insensitively; and for each present criterion among field, keyword,
    keytechnology, program, [matchField] accepts the record's raw attribute.
    A record of "Kumamoto Univ." is kept by [{ affiliation: "kuma" }]. *)
Theorem filterResearchers_includes :
  (∀ toLowerCase : jsstring → jsstring,
     (∀ s, toLowerCase s = [] ↔ s = []) →
     ∀ h researchers filters elems rs props,
       h !! researchers = Some (ObjArray elems) →
       h !! filters = Some (ObjFilters props) →
       recordsAt h elems rs → Forall wellTyped rs → typedCriteria props →
       ∃ keep : loc → bool,
         outcome (filterResearchers toLowerCase researchers filters h)
         = Ok (List.filter keep elems) ∧
         ∀ l r, l ∈ elems → h !! l = Some (ObjResearcher r) →
                (keep l = true ↔ Passes toLowerCase props r)) ∧
  (∀ toLowerCase : jsstring → jsstring,
     (∀ s, Forall (λ c, (c < 128)%N) s → toLowerCase s = asciiLower s) →
     outcome (filterResearchers toLowerCase 0 9 kumamotoHeap) = Ok [1]).
Proof.
  split.
  - intros toLowerCase Hlower h researchers filters elems rs props
      Harr Hf Hrec Htyped Hprops.
    set (keep := λ l, match keepPure toLowerCase (criterionOf props) (recordOf h l) with
                      | Ok b => b
                      | Throw _ => false
                      end).
    assert (∀ l r, l ∈ elems → h !! l = Some (ObjResearcher r) →
              keepPure toLowerCase (criterionOf props) (recordOf h l) = Ok (keep l) ∧
              (keep l = true ↔ Passes toLowerCase props r)) as Hkeep.
    { intros l r Hl Hlr. unfold keep. rewrite (recordOf_Some h l r Hlr).
      destruct (recordsAt_lookup h elems rs l Hrec Hl) as (r' & Hr' & Hlr').
      assert (r' = r) as -> by congruence.
      assert (wellTyped r) as Hr by (by eapply (proj1 (Forall_forall _ _) Htyped)).
      by destruct (keepPure_typed toLowerCase Hlower props r Hr Hprops)
        as (b & -> & Hb). }
    exists keep. split; [|intros l r Hl Hlr; by apply (Hkeep l r)].
    rewrite (filterResearchers_outcome _ _ _ _ elems props Harr Hf).
    destruct (size props =? 0)%nat eqn:Hsize.
    + apply Nat.eqb_eq, map_size_empty_iff in Hsize. subst props.
      rewrite filter_id; [done|]. intros l Hl.
      destruct (recordsAt_lookup h elems rs l Hrec Hl) as (r & _ & Hlr).
      apply (Hkeep l r Hl Hlr). unfold Passes, passesFreeText, passesAttribute, present.
      rewrite !criterionOf_empty. simpl. repeat split; try done.
      by intros [|].
    + apply filterR_Ok. intros l Hl.
      destruct (recordsAt_lookup h elems rs l Hrec Hl) as (r & _ & Hlr).
      by apply (Hkeep l r).
  - intros toLowerCase Hascii.
    rewrite (filterResearchers_outcome _ 0 9 kumamotoHeap [1; 2]
               {[ "affiliation" := JStr (utf16 "kuma") ]}) by reflexivity.
    vm_compute.
    rewrite !Hascii by (repeat constructor).
    reflexivity.
Qed.

Lemma filterResearchers_includes_witness :
  ∃ keep : loc → bool,
    outcome (filterResearchers asciiLower 0 9 kumamotoHeap)
    = Ok (List.filter keep [1; 2]) ∧
    ∀ l r, l ∈ [1; 2] → kumamotoHeap !! l = Some (ObjResearcher r) →
           (keep l = true
            ↔ Passes asciiLower {[ "affiliation" := JStr (utf16 "kuma") ]} r).
Proof.
  apply (proj1 filterResearchers_includes asciiLower asciiLower_empty
           kumamotoHeap 0 9 [1; 2] kumamotoRecords).
  - reflexivity.
  - reflexivity.
  - repeat constructor.
  - unfold kumamotoRecords.
    repeat (apply Forall_cons; split); [| |apply Forall_nil];
      unfold wellTyped, stringOrAbsent; simpl; naive_solver.
  - intros key. unfold criterionOf.
    destruct (decide (key = "affiliation")) as [->|Hne].
    + right. by eexists.
    + left. by rewrite lookup_singleton_ne.
Defined.

(** ** What the filter leaves unchanged *)

Section filter_frame.
Variable toLowerCase : jsstring → jsstring.

Lemma readOnly_textMatch l searchText :
  readOnly (textMatch toLowerCase l searchText).
Proof. unfold textMatch. auto 20 with readonly. Qed.

Lemma readOnly_failsCriterion filters l key attr :
  readOnly (failsCriterion filters l key attr).
Proof. unfold failsCriterion. auto 20 with readonly. Qed.

Lemma readOnly_keepResearcher filters l :
  readOnly (keepResearcher toLowerCase filters l).
Proof.
  unfold keepResearcher.
  auto 40 using readOnly_textMatch, readOnly_failsCriterion with readonly.
Qed.

Lemma readOnly_filterM elems callback :
  (∀ l, readOnly (callback l)) → readOnly (filterM elems callback).
Proof.
  intros Hcb. induction elems as [|l elems IH]; simpl; auto 10 with readonly.
Qed.

(** Every object of the heap is where it was, as it was, after a run. *)
Lemma filterResearchers_subseteq researchers filters h :
  h ⊆ heapAfter (filterResearchers toLowerCase researchers filters h).
Proof.
  unfold heapAfter, filterResearchers, bind at 1.
  pose proof (readOnly_countKeys filters h) as Hkeys.
  destruct (countKeys filters h) as [[n|e] h1]; simpl in Hkeys; subst h1; [|done].
  destruct (n =? 0)%nat; [done|].
  unfold bind at 1.
  pose proof (readOnly_getArray researchers h) as Harr.
  destruct (getArray researchers h) as [[elems|e] h1]; simpl in Harr; subst h1;
    [|done].
  unfold bind at 1.
  pose proof (readOnly_filterM elems _ (readOnly_keepResearcher filters) h) as Hf.
  destruct (filterM elems _ h) as [[kept|e] h1]; simpl in Hf; subst h1; [|done].
  simpl. apply insert_subseteq, not_elem_of_dom, is_fresh.
Qed.

Lemma failsPure_absent c o attr : truthy c = false → failsPure c o attr = Ok false.
Proof. unfold failsPure. by intros ->. Qed.

Lemma keepPure_noConstraint crit o :
  noConstraint crit → keepPure toLowerCase crit o = Ok true.
Proof.
  intros Hno. unfold keepPure.
  rewrite truthy_jsOr.
  rewrite (Hno "theme"), (Hno "affiliation") by compute_done. simpl.
  rewrite !failsPure_absent by (apply Hno; compute_done). reflexivity.
Qed.

Lemma filterResearchers_noConstraint researchers filters h elems props :
  h !! researchers = Some (ObjArray elems) →
  h !! filters = Some (ObjFilters props) →
  noConstraint (criterionOf props) →
  outcome (filterResearchers toLowerCase researchers filters h) = Ok elems.
Proof.
  intros Harr Hf Hno.
  rewrite (filterResearchers_outcome _ _ _ _ elems props Harr Hf).
  destruct (size props =? 0)%nat; [done|].
  rewrite (filterR_Ok elems _ (λ _, true)).
  - by rewrite filter_id.
  - intros l _. by apply keepPure_noConstraint.
Qed.
End filter_frame.

(** C8: the filter does not change any object of the heap it is run in:
    after the call, whether it returned or threw, the input array, every
    record (with its [connections]) and the criteria object are what they
    were; at most one new array has been added. When no key of the criteria
    object has a defined value, the array it returns has the elements of
    the input, in order; and when the criteria object has no key at all, it
    returns the input array itself and the heap is the same. *)
Theorem filterResearchers_frame (toLowerCase : jsstring → jsstring) :
  (∀ researchers filters h,
     h ⊆ heapAfter (filterResearchers toLowerCase researchers filters h)) ∧
  (∀ researchers filters h elems props,
     h !! researchers = Some (ObjArray elems) →
     h !! filters = Some (ObjFilters props) →
     (∀ key, criterionOf props key = JUndefined) →
     outcome (filterResearchers toLowerCase researchers filters h) = Ok elems) ∧
  (∀ researchers filters h elems,
     h !! researchers = Some (ObjArray elems) →
     h !! filters = Some (ObjFilters ∅) →
     filterResearchers toLowerCase researchers filters h = (Ok researchers, h)).
Proof.
  split; [apply filterResearchers_subseteq|]. split.
  - intros researchers filters h elems props Harr Hf Hundef.
    apply (filterResearchers_noConstraint _ _ _ _ _ props Harr Hf).
    intros key _. by rewrite Hundef.
  - intros researchers filters h elems Harr Hf.
    by rewrite (filterResearchers_run _ _ _ _ elems ∅ Harr Hf).
Qed.

Lemma filterResearchers_frame_witness :
  outcome (filterResearchers asciiLower 0 9
             (filterHeap kumamotoRecords {[ "field" := JUndefined ]}))
  = Ok [1; 2] ∧
  filterResearchers asciiLower 0 9 (filterHeap kumamotoRecords ∅)
  = (Ok 0, filterHeap kumamotoRecords ∅).
Proof.
  split.
  - apply (proj1 (proj2 (filterResearchers_frame asciiLower)) 0 9 _ [1; 2]
             {[ "field" := JUndefined ]}); [reflexivity|reflexivity|].
    intros key. unfold criterionOf.
    destruct (decide (key = "field")) as [->|Hne]; [done|].
    by rewrite lookup_singleton_ne.
  - by apply (proj2 (proj2 (filterResearchers_frame asciiLower)) 0 9 _ [1; 2]).
Defined.

(** ** Empty criteria *)

Lemma matchField_empty_expression v : matchField v (JStr []) = Ok true.
Proof. reflexivity. Qed.

Lemma filterR_ext elems callback1 callback2 :
  (∀ l, callback1 l = callback2 l) →
  filterR elems callback1 = filterR elems callback2.
Proof.
  intros Hext. induction elems as [|l elems IH]; [done|].
  simpl. by rewrite Hext, IH.
Qed.

Lemma recordOf_insert_filters h filters props l :
  recordOf (<[filters := ObjFilters props]> h) l
  = if decide (filters = l) then None else recordOf h l.
Proof.
  unfold recordOf. destruct (decide (filters = l)) as [<-|Hne].
  - by rewrite lookup_insert_eq.
  - by rewrite lookup_insert_ne.
Qed.

Section empty_criteria.
Variable toLowerCase : jsstring → jsstring.

Local Abbreviation agree := sameConstraint.

Lemma failsPure_agree c1 c2 o attr :
  agree c1 c2 → failsPure c1 o attr = failsPure c2 o attr.
Proof.
  intros [-> | [H1 H2]]; [done|]. by rewrite !failsPure_absent.
Qed.

Lemma keepPure_agree crit1 crit2 o :
  (∀ key, key ∈ criteriaKeys → agree (crit1 key) (crit2 key)) →
  keepPure toLowerCase crit1 o = keepPure toLowerCase crit2 o.
Proof.
  intros Hagree. unfold keepPure.
  rewrite (failsPure_agree (crit1 "field") (crit2 "field"))
    by (apply Hagree; compute_done).
  rewrite (failsPure_agree (crit1 "keyword") (crit2 "keyword"))
    by (apply Hagree; compute_done).
  rewrite (failsPure_agree (crit1 "keytechnology") (crit2 "keytechnology"))
    by (apply Hagree; compute_done).
  rewrite (failsPure_agree (crit1 "program") (crit2 "program"))
    by (apply Hagree; compute_done).
  assert (agree (jsOr (crit1 "theme") (crit1 "affiliation"))
                (jsOr (crit2 "theme") (crit2 "affiliation"))) as Hq.
  { destruct (Hagree "theme") as [Hth | [Hth1 Hth2]]; [compute_done| |];
      (destruct (Hagree "affiliation") as [Haf | [Haf1 Haf2]]; [compute_done| |]).
    - left. by rewrite Hth, Haf.
    - rewrite Hth. unfold jsOr. destruct (truthy (crit2 "theme")); [by left|].
      by right.
    - unfold jsOr. rewrite Hth1, Hth2. by left.
    - unfold jsOr. rewrite Hth1, Hth2. by right. }
  destruct Hq as [-> | [Hq1 Hq2]]; [done|]. by rewrite Hq1, Hq2.
Qed.

(** An empty string at one of the six keys of the criteria object, and
    the same object without that key, give the same outcome. *)
Lemma filterResearchers_empty_key researchers filters h elems props key :
  key ∈ criteriaKeys →
  h !! researchers = Some (ObjArray elems) → researchers ≠ filters →
  outcome (filterResearchers toLowerCase researchers filters
             (<[filters := ObjFilters (<[key := JStr []]> props)]> h))
  = outcome (filterResearchers toLowerCase researchers filters
               (<[filters := ObjFilters (delete key props)]> h)).
Proof.
  intros Hkey Harr Hne.
  assert (∀ k, k ∈ criteriaKeys →
            agree (criterionOf (<[key := JStr []]> props) k)
                  (criterionOf (delete key props) k)) as Hagree.
  { intros k _. unfold criterionOf. destruct (decide (key = k)) as [<-|Hk].
    - rewrite lookup_insert_eq, lookup_delete_eq. by right.
    - rewrite lookup_insert_ne, lookup_delete_ne by done. by left. }
  rewrite (filterResearchers_outcome _ _ _ _ elems (<[key := JStr []]> props))
    by (by rewrite ?lookup_insert_eq, ?lookup_insert_ne).
  rewrite (filterResearchers_outcome _ _ _ _ elems (delete key props))
    by (by rewrite ?lookup_insert_eq, ?lookup_insert_ne).
  assert (size (<[key := JStr []]> props) ≠ 0) as Hsize.
  { intros Hsize%map_size_empty_iff. by apply insert_non_empty in Hsize. }
  apply Nat.eqb_neq in Hsize. rewrite Hsize.
  destruct (size (delete key props) =? 0)%nat eqn:Hdel.
  - apply Nat.eqb_eq, map_size_empty_iff in Hdel.
    rewrite (filterR_Ok elems _ (λ _, true)); [by rewrite filter_id|].
    intros l _. apply keepPure_noConstraint. intros k Hk.
    destruct (Hagree k Hk) as [-> | [? _]]; [|done].
    unfold criterionOf. by rewrite Hdel, lookup_empty.
  - apply filterR_ext. intros l. rewrite !recordOf_insert_filters.
    by apply keepPure_agree.
Qed.
End empty_criteria.

(** C10: an empty-string criterion behaves like an absent one.
    [matchField] answers true to the empty expression for every attribute
    value; replacing, at one of the six keys, an empty string by no key at
    all does not change what the filter returns; and criteria whose every
    value is the empty string give back the elements of the input array,
    in order. *)
Theorem empty_criterion_is_absent (toLowerCase : jsstring → jsstring) :
  (∀ v, matchField v (JStr []) = Ok true) ∧
  (∀ researchers filters h elems props key,
     key ∈ criteriaKeys →
     h !! researchers = Some (ObjArray elems) → researchers ≠ filters →
     outcome (filterResearchers toLowerCase researchers filters
                (<[filters := ObjFilters (<[key := JStr []]> props)]> h))
     = outcome (filterResearchers toLowerCase researchers filters
                  (<[filters := ObjFilters (delete key props)]> h))) ∧
  (∀ researchers filters h elems props,
     h !! researchers = Some (ObjArray elems) →
     h !! filters = Some (ObjFilters props) →
     (∀ key v, props !! key = Some v → v = JStr []) →
     outcome (filterResearchers toLowerCase researchers filters h) = Ok elems).
Proof.
  split; [exact matchField_empty_expression|]. split.
  - intros researchers filters h elems props key.
    apply filterResearchers_empty_key.
  - intros researchers filters h elems props Harr Hf Hempty.
    apply (filterResearchers_noConstraint _ _ _ _ _ props Harr Hf).
    intros key _. unfold criterionOf.
    destruct (props !! key) as [v|] eqn:Hv; [|done].
    by rewrite (Hempty key v Hv).
Qed.

Lemma empty_criterion_is_absent_witness :
  outcome (filterResearchers asciiLower 0 9
             (<[9 := ObjFilters (<["field" := JStr []]>
                                   {[ "affiliation" := JStr (utf16 "kuma") ]})]>
                (heapOf kumamotoRecords)))
  = outcome (filterResearchers asciiLower 0 9
               (<[9 := ObjFilters (delete "field"
                                     {[ "affiliation" := JStr (utf16 "kuma") ]})]>
                  (heapOf kumamotoRecords))) ∧
  outcome (filterResearchers asciiLower 0 9
             (filterHeap kumamotoRecords
                (list_to_map ((λ key, (key, JStr [])) <$> criteriaKeys))))
  = Ok [1; 2].
Proof.
  split.
  - apply (proj1 (proj2 (empty_criterion_is_absent asciiLower)) 0 9
             (heapOf kumamotoRecords) [1; 2]); [compute_done|reflexivity|done].
  - apply (proj2 (proj2 (empty_criterion_is_absent asciiLower)) 0 9 _ [1; 2]
             (list_to_map ((λ key, (key, JStr [])) <$> criteriaKeys)));
      [reflexivity|reflexivity|].
    intros key v Hv. apply elem_of_list_to_map_2 in Hv.
    apply list_elem_of_fmap in Hv as (k & [= _ ->] & _). reflexivity.
Defined.

(** ** Totality on typed input *)

Lemma splitByDelimiters_falsy v : truthy v = false → splitByDelimiters v = Ok [].
Proof. unfold splitByDelimiters. by intros ->. Qed.

Lemma tokens_falsy v : truthy v = false → tokens v = [].
Proof. intros Hv. unfold tokens. by rewrite splitByDelimiters_falsy. Qed.

Lemma attributeScore_absent w attr a b :
  truthy (attr a) = false ∨ truthy (attr b) = false →
  attributeScore w attr a b = 0%Z.
Proof.
  intros [Ha | Hb]; unfold attributeScore.
  - by rewrite (tokens_falsy _ Ha).
  - rewrite (tokens_falsy _ Hb), addMatches_sharedCount
      by apply tokens_Forall_nonEmpty.
    unfold sharedCount.
    replace (filter (λ t, t ∈ []) (tokens (attr a))) with (@nil jsstring);
      [simpl; lia|].
    induction (tokens (attr a)) as [|t l IH]; [done|].
    rewrite filter_cons_False by apply not_elem_of_nil. exact IH.
Qed.

Lemma filterR_total elems callback :
  (∀ l, l ∈ elems → ∃ b, callback l = Ok b) →
  ∃ kept, filterR elems callback = Ok kept ∧ kept `sublist_of` elems.
Proof.
  induction elems as [|l elems IH]; intros Hcb.
  - by exists [].
  - destruct (Hcb l) as [b Hb]; [left|].
    destruct IH as (kept & Hkept & Hsub).
    { intros l' Hl'. apply Hcb. by right. }
    simpl. rewrite Hb, Hkept. simpl.
    destruct b; eexists; (split; [done|]); by constructor.
Qed.

Section totality.
Variable toLowerCase : jsstring → jsstring.

Lemma textIncludes_total v q :
  stringOrAbsent v → ∃ b, textIncludes toLowerCase v (JStr q) = Ok b.
Proof.
  intros [-> | [s ->]]; [by eexists|].
  unfold textIncludes. destruct (truthy (JStr s)); by eexists.
Qed.

Lemma textMatchPure_total r q :
  wellTyped r → ∃ b, textMatchPure toLowerCase (Some r) (JStr q) = Ok b.
Proof.
  intros (_ & Hname & Haff & _ & Hth & _). unfold textMatchPure. simpl.
  destruct (textIncludes_total _ q Hname) as ([|] & ->); simpl; [by eexists|].
  destruct (textIncludes_total _ q Hth) as ([|] & ->); simpl; [by eexists|].
  apply textIncludes_total, Haff.
Qed.

Lemma keepPure_total props r :
  wellTyped r → typedCriteria props →
  ∃ b, keepPure toLowerCase (criterionOf props) (Some r) = Ok b.
Proof.
  intros Hr Hprops.
  pose proof (wellTyped_readable r Hr) as (Hkw & Hkt & Hf & _ & Hp).
  destruct (failsPure_typed (criterionOf props "field") r r_field Hf (Hprops _))
    as (b1 & H1 & _).
  destruct (failsPure_typed (criterionOf props "keyword") r r_keywords Hkw (Hprops _))
    as (b2 & H2 & _).
  destruct (failsPure_typed (criterionOf props "keytechnology") r r_keytechnology
              Hkt (Hprops _)) as (b3 & H3 & _).
  destruct (failsPure_typed (criterionOf props "program") r r_program Hp (Hprops _))
    as (b4 & H4 & _).
  unfold keepPure. rewrite H1, H2, H3, H4.
  set (th := criterionOf props "theme").
  set (af := criterionOf props "affiliation").
  assert (∃ bt, (if truthy (jsOr th af)
                 then textMatchPure toLowerCase (Some r) (jsOr (jsOr th af) (JStr []))
                 else Ok true) = Ok bt) as [bt ->].
  { destruct (truthy (jsOr th af)) eqn:Hactive; [|by eexists].
    assert (stringOrAbsent (jsOr th af)) as Htyped.
    { unfold jsOr. destruct (truthy th); apply Hprops. }
    destruct (truthy_typed _ Htyped Hactive) as (q & Hq & _).
    rewrite Hq. replace (jsOr (JStr q) (JStr [])) with (JStr q)
      by (unfold jsOr; by rewrite <- Hq, Hactive).
    by apply textMatchPure_total. }
  simpl. destruct bt, b1, b2, b3, b4; by eexists.
Qed.

Lemma filterResearchers_total h researchers filters elems rs props :
  h !! researchers = Some (ObjArray elems) →
  h !! filters = Some (ObjFilters props) →
  recordsAt h elems rs → Forall wellTyped rs → typedCriteria props →
  ∃ kept,
    outcome (filterResearchers toLowerCase researchers filters h) = Ok kept ∧
    kept `sublist_of` elems.
Proof.
  intros Harr Hf Hrec Htyped Hprops.
  rewrite (filterResearchers_outcome _ _ _ _ elems props Harr Hf).
  destruct (size props =? 0)%nat; [by exists elems|].
  apply filterR_total. intros l Hl.
  destruct (recordsAt_lookup h elems rs l Hrec Hl) as (r & Hr & Hlr).
  rewrite (recordOf_Some h l r Hlr). apply keepPure_total; [|done].
  by eapply (proj1 (Forall_forall _ _) Htyped).
Qed.
End totality.

(** C9: on strings and absent values nothing throws. The tokenizer returns
    a list for every string or absent value, the empty list for an absent
    or empty one, and an attribute that is absent or empty on either side
    adds nothing to a score. On an array of records whose fields are
    strings or absent the builder completes and every record has a
    [connections] list (possibly empty); with criteria whose values are
    strings or absent the filter completes with some of the elements of the
    input, in order (possibly none); and with none of the six criteria
    given it returns all of them. *)
Theorem total_on_typed_input (toLowerCase : jsstring → jsstring) :
  (∀ v, stringOrAbsent v → ∃ l, splitByDelimiters v = Ok l) ∧
  (∀ v, truthy v = false → splitByDelimiters v = Ok []) ∧
  (∀ w attr a b,
     truthy (attr a) = false ∨ truthy (attr b) = false →
     attributeScore w attr a b = 0%Z) ∧
  (∀ h researchers elems rs,
     h !! researchers = Some (ObjArray elems) →
     recordsAt h elems rs → Forall wellTyped rs →
     ∃ h', calculateConnections researchers h = (Ok (), h') ∧
           ∀ l, l ∈ elems → ∃ conns, connectionsAt h' l = Some conns) ∧
  (∀ h researchers filters elems rs props,
     h !! researchers = Some (ObjArray elems) →
     h !! filters = Some (ObjFilters props) →
     recordsAt h elems rs → Forall wellTyped rs → typedCriteria props →
     ∃ kept,
       outcome (filterResearchers toLowerCase researchers filters h) = Ok kept ∧
       kept `sublist_of` elems) ∧
  (∀ h researchers filters elems props,
     h !! researchers = Some (ObjArray elems) →
     h !! filters = Some (ObjFilters props) →
     (∀ key, key ∈ criteriaKeys → props !! key = None) →
     outcome (filterResearchers toLowerCase researchers filters h) = Ok elems).
Proof.
  split; [exact stringOrAbsent_splittable|].
  split; [exact splitByDelimiters_falsy|].
  split; [exact attributeScore_absent|].
  split; [|split; [apply filterResearchers_total|]].
  - intros h researchers elems rs Harr Hrec Htyped.
    assert (Forall readable rs) as Hread.
    { eapply Forall_impl; [exact Htyped|]. apply wellTyped_readable. }
    destruct (calculateConnections_entries h researchers elems rs Harr Hrec Hread)
      as (h' & Hrun & _ & Hentries).
    exists h'. split; [done|]. intros l Hl.
    destruct (recordsAt_lookup h elems rs l Hrec Hl) as (a & _ & Hla).
    exists (connectionsOf a rs). unfold connectionsAt.
    by rewrite (Hentries l a Hl Hla).
  - intros h researchers filters elems props Harr Hf Habsent.
    apply (filterResearchers_noConstraint _ _ _ _ _ props Harr Hf).
    intros key Hkey. unfold criterionOf. by rewrite (Habsent key Hkey).
Qed.

Lemma total_on_typed_input_witness :
  (∃ l, splitByDelimiters (JStr (utf16 ", ,")) = Ok l) ∧
  (∃ h',
     calculateConnections 0 (heapOf kumamotoRecords) = (Ok (), h') ∧
     ∀ l, l ∈ [1; 2] → ∃ conns, connectionsAt h' l = Some conns) ∧
  (∃ kept,
     outcome (filterResearchers asciiLower 0 9
                (filterHeap kumamotoRecords {[ "field" := JStr (utf16 "AND:W") ]}))
     = Ok kept ∧
     kept `sublist_of` [1; 2]).
Proof.
  assert (Forall wellTyped kumamotoRecords) as Htyped.
  { unfold kumamotoRecords.
    repeat (apply Forall_cons; split); [| |apply Forall_nil];
      unfold wellTyped, stringOrAbsent; simpl; naive_solver. }
  split; [|split].
  - apply (proj1 (total_on_typed_input asciiLower)). right. by eexists.
  - apply (proj1 (proj2 (proj2 (proj2 (total_on_typed_input asciiLower))))
             _ 0 [1; 2] kumamotoRecords); [reflexivity|repeat constructor|done].
  - apply (proj1 (proj2 (proj2 (proj2 (proj2 (total_on_typed_input asciiLower)))))
             _ 0 9 [1; 2] kumamotoRecords {[ "field" := JStr (utf16 "AND:W") ]});
      [reflexivity|reflexivity|repeat constructor|done|].
    intros key. unfold criterionOf.
    destruct (decide (key = "field")) as [->|Hne].
    + right. by eexists.
    + left. by rewrite lookup_singleton_ne.
Defined.

(** * More of the code *)

(** ** Trimming *)

Lemma skipWhile_head f s :
  skipWhile f s = [] ∨ ∃ c t, skipWhile f s = c :: t ∧ f c = false.
Proof.
  induction s as [|c s IH]; [by left|].
  simpl. destruct (f c) eqn:Hc; [exact IH|]. right. by exists c, s.
Qed.

Lemma skipWhile_fixed f s :
  (∀ c, head s = Some c → f c = false) → skipWhile f s = s.
Proof.
  destruct s as [|c s]; [done|]. intros H. simpl. by rewrite (H c).
Qed.

Lemma skipWhile_idem f s : skipWhile f (skipWhile f s) = skipWhile f s.
Proof.
  apply skipWhile_fixed. intros c Hc.
  destruct (skipWhile_head f s) as [Hnil | (c' & t & Heq & Hc')].
  - by rewrite Hnil in Hc.
  - rewrite Heq in Hc. by injection Hc as <-.
Qed.

Lemma skipWhile_suffix f s : ∃ pre, s = pre ++ skipWhile f s.
Proof.
  induction s as [|c s [pre IH]]; [by exists []|].
  simpl. destruct (f c); [|by exists []].
  exists (c :: pre). simpl. by f_equal.
Qed.

(** A string that [trim] leaves as it is. *)
Lemma trim_fixed s :
  skipWhile isWhiteSpace s = s →
  skipWhile isWhiteSpace (rev s) = rev s →
  trim s = s.
Proof. intros H1 H2. unfold trim. by rewrite H1, H2, rev_involutive. Qed.

Lemma trim_head s c : head (trim s) = Some c → isWhiteSpace c = false.
Proof.
  unfold trim. intros Hc.
  destruct (skipWhile_suffix isWhiteSpace (rev (skipWhile isWhiteSpace s)))
    as [pre Hpre].
  apply (f_equal (@rev N)) in Hpre. rewrite rev_involutive, rev_app_distr in Hpre.
  destruct (rev (skipWhile isWhiteSpace (rev (skipWhile isWhiteSpace s))))
    as [|c0 rw]; [done|].
  injection Hc as ->.
  destruct (skipWhile_head isWhiteSpace s) as [Hnil | (c' & t & Heq & Hc')].
  - by rewrite Hnil in Hpre.
  - rewrite Heq in Hpre. by injection Hpre as -> _.
Qed.

Lemma trim_idem s : trim (trim s) = trim s.
Proof.
  apply trim_fixed.
  - apply skipWhile_fixed, trim_head.
  - unfold trim. rewrite rev_involutive. apply skipWhile_idem.
Qed.

Lemma trim_nonEmpty s : nonEmpty (trim s) = true → trim s ≠ [].
Proof. by destruct (trim s). Qed.

Lemma tokens_nonblank v t : t ∈ tokens v → nonEmpty (trim t) = true.
Proof.
  unfold tokens, splitByDelimiters.
  destruct (negb (truthy v)); [by intros ?%elem_of_nil|].
  destruct v; try by intros ?%elem_of_nil.
  intros Ht. by apply list_elem_of_In, filter_In in Ht as [_ Ht].
Qed.

(** ** The order of strings *)

Lemma stringLt_irrefl x : stringLt x x = false.
Proof.
  induction x as [|a x IH]; [done|].
  simpl. by rewrite N.ltb_irrefl, N.eqb_refl, IH.
Qed.

Lemma stringLt_trans x y z :
  stringLt x y = true → stringLt y z = true → stringLt x z = true.
Proof.
  revert y z. induction x as [|a x IH]; intros [|b y] [|c z]; simpl; try done.
  rewrite !orb_true_iff, !andb_true_iff, !N.ltb_lt, !N.eqb_eq.
  intros [Hab | [-> Hxy]] [Hbc | [-> Hyz]].
  - left. lia.
  - by left.
  - by left.
  - right. split; [done|]. by apply (IH y).
Qed.

Lemma stringLt_connex x y :
  stringLt x y = false → stringLt y x = false → x = y.
Proof.
  revert y. induction x as [|a x IH]; intros [|b y]; simpl; try done.
  rewrite !orb_false_iff, !andb_false_iff, !N.ltb_ge, !N.eqb_neq.
  intros [Hab Hxy] [Hba Hyx].
  assert (a = b) as -> by lia.
  f_equal. apply IH; [by destruct Hxy|by destruct Hyx].
Qed.

Lemma stringLt_asym x y : stringLt x y = true → stringLt y x = false.
Proof.
  intros Hxy. destruct (stringLt y x) eqn:Hyx; [|done].
  pose proof (stringLt_trans x y x Hxy Hyx) as Hxx.
  by rewrite stringLt_irrefl in Hxx.
Qed.

Lemma compareStrings_le x y :
  (compareStrings x y <=? 0)%Z = negb (stringLt y x).
Proof.
  unfold compareStrings. destruct (stringLt x y) eqn:Hxy.
  - by rewrite (stringLt_asym x y Hxy).
  - by destruct (stringLt y x).
Qed.

(** ** Sorting with any comparator *)

Lemma insertSorted_Permutation_any {A} (comparefn : A → A → Z) x l :
  insertSorted comparefn x l ≡ₚ x :: l.
Proof.
  induction l as [|y l IH]; simpl; [done|].
  destruct (comparefn x y <=? 0)%Z; [done|].
  rewrite IH. apply Permutation_swap.
Qed.

Lemma sort_Permutation_any {A} (comparefn : A → A → Z) l :
  sort comparefn l ≡ₚ l.
Proof.
  induction l as [|x l IH]; simpl; [done|].
  by rewrite insertSorted_Permutation_any, IH.
Qed.

Lemma insertSorted_strings x l :
  StronglySorted (λ a b, stringLt b a = false) l →
  StronglySorted (λ a b, stringLt b a = false) (insertSorted compareStrings x l).
Proof.
  induction 1 as [|y l Hl IH Hy]; simpl.
  - repeat constructor.
  - rewrite compareStrings_le. destruct (stringLt y x) eqn:Hyx; simpl.
    + constructor; [done|]. rewrite insertSorted_Permutation_any.
      constructor; [by apply stringLt_asym|done].
    + constructor; [by constructor|]. constructor; [done|].
      eapply Forall_impl; [exact Hy|]. simpl. intros z Hzy.
      destruct (stringLt z x) eqn:Hzx; [|done].
      destruct (stringLt y z) eqn:Hyz.
      * by rewrite (stringLt_trans y z x Hyz Hzx) in Hyx.
      * by rewrite (stringLt_connex y z Hyz Hzy), Hzx in Hyx.
Qed.

Lemma sort_strings l :
  StronglySorted (λ a b, stringLt b a = false) (sort compareStrings l).
Proof.
  induction l as [|x l IH]; simpl; [constructor|]. by apply insertSorted_strings.
Qed.

Lemma sorted_strict l :
  NoDup l → StronglySorted (λ a b, stringLt b a = false) l →
  StronglySorted (λ a b, stringLt a b = true) l.
Proof.
  intros Hnd Hs. induction Hs as [|x l Hl IH Hx]; [constructor|].
  apply NoDup_cons in Hnd as [Hx_notin Hnd].
  constructor; [by apply IH|].
  apply Forall_forall. intros y Hy.
  pose proof (proj1 (Forall_forall _ _) Hx y Hy) as Hyx. simpl in Hyx.
  destruct (stringLt x y) eqn:Hxy; [done|].
  assert (x = y) as -> by by apply stringLt_connex. done.
Qed.

(** ** The unique values of an attribute *)

Lemma setAdd_elem x y vs : y ∈ setAdd x vs ↔ y = x ∨ y ∈ vs.
Proof.
  unfold setAdd. case_bool_decide as Hx.
  - split; [by right|]. by intros [-> | ?].
  - rewrite elem_of_app, list_elem_of_singleton. tauto.
Qed.

Lemma setAdd_NoDup x vs : NoDup vs → NoDup (setAdd x vs).
Proof.
  intros Hnd. unfold setAdd. case_bool_decide as Hx; [done|].
  apply NoDup_app. split; [done|]. split; [|apply NoDup_singleton].
  intros y Hy ->%list_elem_of_singleton. done.
Qed.

Lemma addTrimmed_spec items vs :
  Forall (λ i, i ≠ []) items →
  (NoDup vs → NoDup (addTrimmed items vs)) ∧
  ∀ y, y ∈ addTrimmed items vs ↔ y ∈ trim <$> items ∨ y ∈ vs.
Proof.
  intros Hitems. revert vs. unfold addTrimmed.
  induction Hitems as [|i items Hi _ IH]; intros vs; simpl.
  - split; [done|]. intros y. rewrite elem_of_nil. tauto.
  - apply nonEmpty_true in Hi. rewrite Hi.
    destruct (IH (setAdd (trim i) vs)) as [Hnd Hmem]. split.
    + intros Hvs. by apply Hnd, setAdd_NoDup.
    + intros y. rewrite Hmem, setAdd_elem. csimpl. rewrite elem_of_cons. tauto.
Qed.

Lemma collectValues_run field vs l h r :
  h !! l = Some (ObjResearcher r) →
  ∃ vs', collectValues field vs l h = (Ok vs', h) ∧
         (NoDup vs → NoDup vs') ∧
         ∀ y, y ∈ vs' ↔ y ∈ valuesOf field r ∨ y ∈ vs.
Proof.
  intros Hl. unfold collectValues, valuesOf, bind at 1, getProperty. rewrite Hl.
  destruct (propertyOf field r) as [[| | | |s]|];
    try (exists vs; split; [done|]; split; [done|]; intros y;
         rewrite elem_of_nil; tauto).
  destruct (isMultiValued field).
  - rewrite (bind_split _ _ _ (stringOrAbsent_splittable (JStr s)
               (or_intror (ex_intro _ s eq_refl)))).
    eexists. split; [reflexivity|].
    apply addTrimmed_spec, tokens_Forall_nonEmpty.
  - change (truthy (JStr s)) with (nonEmpty s). destruct (nonEmpty s).
    + eexists. split; [reflexivity|]. split; [apply setAdd_NoDup|].
      intros y. rewrite setAdd_elem, list_elem_of_singleton. tauto.
    + exists vs. split; [done|]. split; [done|]. intros y.
      rewrite elem_of_nil. tauto.
Qed.

Lemma collectValues_loop field h elems rs vs :
  recordsAt h elems rs →
  ∃ vs', forEachAcc elems (collectValues field) vs h = (Ok vs', h) ∧
         (NoDup vs → NoDup vs') ∧
         ∀ y, y ∈ vs' ↔ (∃ r, r ∈ rs ∧ y ∈ valuesOf field r) ∨ y ∈ vs.
Proof.
  intros Hrec. revert vs. induction Hrec as [|l r elems rs Hl _ IH]; intros vs.
  - exists vs. split; [done|]. split; [done|]. intros y. split; [by right|].
    intros [(r & Hr & _) | ?]; [by apply elem_of_nil in Hr|done].
  - destruct (collectValues_run field vs l h r Hl) as (vs1 & Hrun1 & Hnd1 & Hmem1).
    destruct (IH vs1) as (vs' & Hrun & Hnd & Hmem).
    exists vs'. split; [|split].
    + simpl. by rewrite (bind_Ok _ _ _ _ _ Hrun1).
    + intros Hvs. by apply Hnd, Hnd1.
    + intros y. rewrite Hmem, Hmem1. split.
      * intros [(r' & Hr' & Hy) | [Hy | Hy]].
        -- left. exists r'. split; [by right|done].
        -- left. exists r. split; [by left|done].
        -- by right.
      * intros [(r' & Hr' & Hy) | Hy]; [|by right; right].
        apply elem_of_cons in Hr' as [-> | Hr'].
        -- right. by left.
        -- left. by exists r'.
Qed.

Lemma getUniqueValues_run h researchers elems rs field :
  h !! researchers = Some (ObjArray elems) → recordsAt h elems rs →
  ∃ vs, getUniqueValues researchers field h = (Ok vs, h) ∧
        NoDup vs ∧ ascending vs ∧
        ∀ y, y ∈ vs ↔ ∃ r, r ∈ rs ∧ y ∈ valuesOf field r.
Proof.
  intros Harr Hrec.
  destruct (collectValues_loop field h elems rs [] Hrec) as (vs & Hrun & Hnd & Hmem).
  exists (sort compareStrings vs).
  assert (NoDup (sort compareStrings vs)) as Hnd'.
  { rewrite sort_Permutation_any. apply Hnd, NoDup_nil_2. }
  split; [|split; [done|split]].
  - unfold getUniqueValues, bind at 1, getArray. rewrite Harr.
    by rewrite (bind_Ok _ _ _ _ _ Hrun).
  - apply sorted_strict; [done|apply sort_strings].
  - intros y. rewrite sort_Permutation_any, Hmem, elem_of_nil. tauto.
Qed.

(** X1: on an array of records, whatever the values of their fields,
    [getUniqueValues] completes, changes nothing in the heap, and returns a
    list that is strictly ascending in the order of strings, so without
    duplicates. *)
Theorem getUniqueValues_ascending h researchers elems rs field :
  h !! researchers = Some (ObjArray elems) → recordsAt h elems rs →
  ∃ vs, getUniqueValues researchers field h = (Ok vs, h) ∧
        ascending vs ∧ NoDup vs.
Proof.
  intros Harr Hrec.
  destruct (getUniqueValues_run h researchers elems rs field Harr Hrec)
    as (vs & Hrun & Hnd & Hasc & _).
  by exists vs.
Qed.

Lemma getUniqueValues_ascending_witness :
  ∃ vs,
    getUniqueValues 0 KKeywords
      (heapOf [sample "1" "" "" "b, a" "" ""; sample "2" "" "" "c ,a" "" ""])
    = (Ok vs, heapOf [sample "1" "" "" "b, a" "" ""; sample "2" "" "" "c ,a" "" ""]) ∧
    ascending vs ∧ NoDup vs.
Proof.
  apply (getUniqueValues_ascending _ 0 [1; 2]
           [sample "1" "" "" "b, a" "" ""; sample "2" "" "" "c ,a" "" ""]).
  - reflexivity.
  - repeat constructor.
Defined.

(** X2: the values [getUniqueValues] returns for a multi-valued attribute
    (keywords, keytechnology, field, program, theme) are exactly the trimmed
    tokens of the records whose attribute is a string; for any other key
    they are the trimmed values of the records where it is a non-empty
    string. Records where the value is not a string add nothing. *)
Theorem getUniqueValues_members h researchers elems rs field :
  h !! researchers = Some (ObjArray elems) → recordsAt h elems rs →
  ∃ vs, getUniqueValues researchers field h = (Ok vs, h) ∧
    (isMultiValued field = true →
     ∀ x, x ∈ vs ↔ ∃ r s t, r ∈ rs ∧ propertyOf field r = PValue (JStr s) ∧
                            t ∈ tokens (JStr s) ∧ x = trim t) ∧
    (isMultiValued field = false →
     ∀ x, x ∈ vs ↔ ∃ r s, r ∈ rs ∧ propertyOf field r = PValue (JStr s) ∧
                          s ≠ [] ∧ x = trim s).
Proof.
  intros Harr Hrec.
  destruct (getUniqueValues_run h researchers elems rs field Harr Hrec)
    as (vs & Hrun & _ & _ & Hmem).
  exists vs. split; [done|]. split; intros Hmulti x; rewrite Hmem; unfold valuesOf;
    rewrite Hmulti.
  - split.
    + intros (r & Hr & Hx). destruct (propertyOf field r) as [[| | | |s]|] eqn:Hp;
        try by apply elem_of_nil in Hx.
      apply list_elem_of_fmap in Hx as (t & -> & Ht). by exists r, s, t.
    + intros (r & s & t & Hr & Hp & Ht & ->). exists r. split; [done|].
      rewrite Hp. apply list_elem_of_fmap. by exists t.
  - split.
    + intros (r & Hr & Hx). destruct (propertyOf field r) as [[| | | |s]|] eqn:Hp;
        try by apply elem_of_nil in Hx.
      destruct s as [|c s]; [by apply elem_of_nil in Hx|].
      apply list_elem_of_singleton in Hx as ->. by exists r, (c :: s).
    + intros (r & s & Hr & Hp & Hs & ->). exists r. split; [done|].
      rewrite Hp. apply nonEmpty_true in Hs. rewrite Hs.
      by apply list_elem_of_singleton.
Qed.

Lemma getUniqueValues_members_witness :
  ∃ vs,
    getUniqueValues 0 KKeywords
      (heapOf [sample "1" "" "" "b, a" "" ""; sample "2" "" "" "c ,a" "" ""])
    = (Ok vs, heapOf [sample "1" "" "" "b, a" "" ""; sample "2" "" "" "c ,a" "" ""]) ∧
    ∀ x, x ∈ vs ↔
         ∃ r s t, r ∈ [sample "1" "" "" "b, a" "" ""; sample "2" "" "" "c ,a" "" ""] ∧
                  propertyOf KKeywords r = PValue (JStr s) ∧
                  t ∈ tokens (JStr s) ∧ x = trim t.
Proof.
  destruct (getUniqueValues_members
              (heapOf [sample "1" "" "" "b, a" "" ""; sample "2" "" "" "c ,a" "" ""])
              0 [1; 2]
              [sample "1" "" "" "b, a" "" ""; sample "2" "" "" "c ,a" "" ""]
              KKeywords eq_refl) as (vs & Hrun & Hmulti & _).
  - repeat constructor.
  - exists vs. split; [exact Hrun|]. exact (Hmulti eq_refl).
Defined.

Lemma getUniqueValues_trimmed h researchers elems rs field :
  h !! researchers = Some (ObjArray elems) → recordsAt h elems rs →
  isMultiValued field = true →
  ∃ vs, getUniqueValues researchers field h = (Ok vs, h) ∧
        ∀ x, x ∈ vs → x ≠ [] ∧ trim x = x.
Proof.
  intros Harr Hrec Hmulti.
  destruct (getUniqueValues_run h researchers elems rs field Harr Hrec)
    as (vs & Hrun & _ & _ & Hmem).
  exists vs. split; [done|].
  intros x (r & Hr & Hx)%Hmem. unfold valuesOf in Hx. rewrite Hmulti in Hx.
  destruct (propertyOf field r) as [[| | | |s]|]; try by apply elem_of_nil in Hx.
  apply list_elem_of_fmap in Hx as (t & -> & Ht).
  split; [|apply trim_idem]. by apply trim_nonEmpty, (tokens_nonblank (JStr s)).
Qed.

(** X3: every value [getUniqueValues] returns for a multi-valued attribute
    is a non-empty string without whitespace at either end, so the option
    list of the filter panel, which adds an empty entry and drops the blank
    ones, is the list of unique values itself. *)
Theorem options_are_the_unique_values h researchers elems rs field :
  h !! researchers = Some (ObjArray elems) → recordsAt h elems rs →
  isMultiValued field = true →
  ∃ vs, getUniqueValues researchers field h = (Ok vs, h) ∧
        (∀ x, x ∈ vs → x ≠ [] ∧ trim x = x) ∧
        filterOptions vs = vs.
Proof.
  intros Harr Hrec Hmulti.
  destruct (getUniqueValues_trimmed h researchers elems rs field Harr Hrec Hmulti)
    as (vs & Hrun & Htrimmed).
  exists vs. split; [done|]. split; [done|].
  unfold filterOptions. simpl. apply filter_id. intros x Hx.
  destruct (Htrimmed x Hx) as [Hne ->]. by apply nonEmpty_true.
Qed.

Lemma options_are_the_unique_values_witness :
  ∃ vs,
    getUniqueValues 0 KKeywords
      (heapOf [sample "1" "" "" "b, a" "" ""; sample "2" "" "" "c ,a" "" ""])
    = (Ok vs, heapOf [sample "1" "" "" "b, a" "" ""; sample "2" "" "" "c ,a" "" ""]) ∧
    (∀ x, x ∈ vs → x ≠ [] ∧ trim x = x) ∧
    filterOptions vs = vs.
Proof.
  apply (options_are_the_unique_values _ 0 [1; 2]
           [sample "1" "" "" "b, a" "" ""; sample "2" "" "" "c ,a" "" ""]).
  - reflexivity.
  - repeat constructor.
  - reflexivity.
Defined.

Lemma matchField_single_option v o :
  stringOrAbsent v → o ≠ [] → PIPE ∉ o → (¬ ∃ rest, o = AND_MARKER ++ rest) →
  matchField v (JStr o) = Ok (bool_decide (o ∈ tokens v)).
Proof.
  intros Hv Ho Hpipe Hand. destruct (truthy v) eqn:Htruthy.
  - rewrite (matchField_or v o Htruthy (stringOrAbsent_splittable v Hv) Ho Hand).
    rewrite (splitOn_no_sep PIPE o [] Hpipe). simpl. by rewrite orb_false_r.
  - rewrite (matchField_absent_value v o Ho Htruthy).
    rewrite (tokens_falsy v Htruthy). by rewrite bool_decide_eq_false_2
      by apply not_elem_of_nil.
Qed.

(** X4: when the tokens of a multi-valued attribute have no whitespace at
    either end, every value [getUniqueValues] offers for it that contains no
    "|" and does not start with "AND:" is accepted by [matchField] on the
    attribute of at least one record: choosing it never empties the view. *)
Theorem option_selects_a_record h researchers elems rs field :
  h !! researchers = Some (ObjArray elems) → recordsAt h elems rs →
  isMultiValued field = true →
  (∀ r s t, r ∈ rs → propertyOf field r = PValue (JStr s) →
            t ∈ tokens (JStr s) → trim t = t) →
  ∃ vs, getUniqueValues researchers field h = (Ok vs, h) ∧
    ∀ o, o ∈ vs → PIPE ∉ o → (¬ ∃ rest, o = AND_MARKER ++ rest) →
      ∃ r v, r ∈ rs ∧ propertyOf field r = PValue v ∧
             matchField v (JStr o) = Ok true.
Proof.
  intros Harr Hrec Hmulti Htrimmed.
  destruct (getUniqueValues_run h researchers elems rs field Harr Hrec)
    as (vs & Hrun & _ & _ & Hmem).
  exists vs. split; [done|]. intros o (r & Hr & Ho)%Hmem Hpipe Hand.
  unfold valuesOf in Ho. rewrite Hmulti in Ho.
  destruct (propertyOf field r) as [[| | | |s]|] eqn:Hp;
    try by apply elem_of_nil in Ho.
  apply list_elem_of_fmap in Ho as (t & -> & Ht).
  rewrite (Htrimmed r s t Hr Hp Ht) in *.
  exists r, (JStr s). split; [done|]. split; [done|].
  rewrite matchField_single_option; try done.
  - by rewrite bool_decide_eq_true_2.
  - right. by eexists.
  - by apply (tokens_nonEmpty (JStr s)).
Qed.

Lemma option_selects_a_record_witness :
  ∃ vs,
    getUniqueValues 0 KKeywords
      (heapOf [sample "1" "" "" "b, a" "" ""; sample "2" "" "" "c, a" "" ""])
    = (Ok vs, heapOf [sample "1" "" "" "b, a" "" ""; sample "2" "" "" "c, a" "" ""]) ∧
    ∀ o, o ∈ vs → PIPE ∉ o → (¬ ∃ rest, o = AND_MARKER ++ rest) →
      ∃ r v, r ∈ [sample "1" "" "" "b, a" "" ""; sample "2" "" "" "c, a" "" ""] ∧
             propertyOf KKeywords r = PValue v ∧
             matchField v (JStr o) = Ok true.
Proof.
  apply (option_selects_a_record _ 0 [1; 2]
           [sample "1" "" "" "b, a" "" ""; sample "2" "" "" "c, a" "" ""]).
  - reflexivity.
  - repeat constructor.
  - reflexivity.
  - intros r s t Hr Hp Ht.
    repeat (apply elem_of_cons in Hr as [-> | Hr]); [| |by apply elem_of_nil in Hr];
      injection Hp as <-; vm_compute in Ht;
      repeat (apply elem_of_cons in Ht as [-> | Ht]);
      try reflexivity; by apply elem_of_nil in Ht.
Defined.

(** X5: a value [getUniqueValues] offers that is not itself a token of any
    record (it is the trimmed form of tokens that carry whitespace), contains
    no "|" and does not start with "AND:", is rejected by [matchField] on
    every record whose attribute is a string or absent: choosing it empties
    the view. *)
Theorem untrimmed_option_selects_nothing h researchers elems rs field :
  h !! researchers = Some (ObjArray elems) → recordsAt h elems rs →
  isMultiValued field = true →
  ∃ vs, getUniqueValues researchers field h = (Ok vs, h) ∧
    ∀ o, o ∈ vs → PIPE ∉ o → (¬ ∃ rest, o = AND_MARKER ++ rest) →
      (∀ r v, r ∈ rs → propertyOf field r = PValue v → o ∉ tokens v) →
      ∀ r v, r ∈ rs → propertyOf field r = PValue v → stringOrAbsent v →
             matchField v (JStr o) = Ok false.
Proof.
  intros Harr Hrec Hmulti.
  destruct (getUniqueValues_trimmed h researchers elems rs field
              Harr Hrec Hmulti) as (vs & Hrun & Htrimmed).
  exists vs. split; [done|]. intros o Ho Hpipe Hand Hnot r v Hr Hp Hv.
  rewrite matchField_single_option; try done.
  - rewrite bool_decide_eq_false_2; [done|]. by apply (Hnot r v).
  - by apply Htrimmed.
Qed.

Lemma untrimmed_option_selects_nothing_witness :
  matchField (JStr (utf16 "c ,a")) (JStr (utf16 "c")) = Ok false.
Proof.
  destruct (untrimmed_option_selects_nothing
              (heapOf [sample "1" "" "" "b, a" "" ""; sample "2" "" "" "c ,a" "" ""])
              0 [1; 2]
              [sample "1" "" "" "b, a" "" ""; sample "2" "" "" "c ,a" "" ""]
              KKeywords eq_refl) as (vs & Hrun & Hnone).
  - repeat constructor.
  - reflexivity.
  - vm_compute in Hrun. injection Hrun as <-.
    apply (Hnone (utf16 "c")) with (r := sample "2" "" "" "c ,a" "" "").
    + repeat constructor.
    + change (utf16 "c") with [99%N]. by intros ?%list_elem_of_singleton.
    + intros [rest Hrest]. discriminate Hrest.
    + intros r v Hr Hp.
      repeat (apply elem_of_cons in Hr as [-> | Hr]); [| |by apply elem_of_nil in Hr];
        injection Hp as <-; compute_done.
    + repeat constructor.
    + reflexivity.
    + right. by eexists.
Defined.

(** ** The filter panel *)

Lemma selectedOf_withSelected field l prev :
  selectedOf field (withSelected field l prev) = l.
Proof. by destruct field. Qed.

Lemma selectedOf_withSelected_ne field field' l prev :
  field' ≠ field → selectedOf field' (withSelected field l prev) = selectedOf field' prev.
Proof. by destruct field, field'. Qed.

Lemma elem_of_remove (option x : jsstring) l :
  x ∈ List.filter (λ item, negb (bool_decide (item = option))) l ↔ x ≠ option ∧ x ∈ l.
Proof.
  rewrite list_elem_of_In, filter_In, <- list_elem_of_In, negb_true_iff,
    bool_decide_eq_false. tauto.
Qed.

Lemma NoDup_remove (option : jsstring) l :
  NoDup l → NoDup (List.filter (λ item, negb (bool_decide (item = option))) l).
Proof.
  induction 1 as [|x l Hx Hl IH]; simpl; [constructor|].
  destruct (negb (bool_decide (x = option))); [|done].
  constructor; [|done]. rewrite elem_of_remove. tauto.
Qed.

Lemma remove_absent (option : jsstring) l :
  option ∉ l → List.filter (λ item, negb (bool_decide (item = option))) l = l.
Proof.
  intros Hnot. apply filter_id. intros x Hx.
  apply negb_true_iff, bool_decide_eq_false. by intros ->.
Qed.

(** X6: ticking an option in the filter panel flips exactly that option:
    afterwards it is selected iff it was not before, every other option
    and every other attribute keep their state, a selection without
    duplicates stays without duplicates, and ticking twice an option that
    was not selected gives the selection back as it was. *)
Theorem toggle_flips_one_option field option prev :
  let next := handleMultiFilterChange field option prev in
  (option ∈ selectedOf field next ↔ option ∉ selectedOf field prev) ∧
  (∀ x, x ≠ option → (x ∈ selectedOf field next ↔ x ∈ selectedOf field prev)) ∧
  (∀ field', field' ≠ field → selectedOf field' next = selectedOf field' prev) ∧
  (NoDup (selectedOf field prev) → NoDup (selectedOf field next)) ∧
  (option ∉ selectedOf field prev →
   selectedOf field (handleMultiFilterChange field option next)
   = selectedOf field prev).
Proof.
  unfold handleMultiFilterChange, arrayIncludes. simpl.
  case_bool_decide as Hin.
  - rewrite selectedOf_withSelected. repeat split.
    + by intros [? _]%elem_of_remove.
    + done.
    + by intros [_ ?]%elem_of_remove.
    + intros Hx0. by apply elem_of_remove.
    + intros field' Hne. by apply selectedOf_withSelected_ne.
    + apply NoDup_remove.
    + done.
  - rewrite !selectedOf_withSelected. repeat split.
    + done.
    + intros _. apply elem_of_app. right. by apply list_elem_of_singleton.
    + intros [?|?%list_elem_of_singleton]%elem_of_app; done.
    + intros Hx0. apply elem_of_app. by left.
    + intros field' Hne. by apply selectedOf_withSelected_ne.
    + intros Hnd. apply NoDup_app. split; [done|]. split; [|apply NoDup_singleton].
      by intros x Hx ->%list_elem_of_singleton.
    + intros _. rewrite bool_decide_eq_true_2.
      * rewrite selectedOf_withSelected, List.filter_app, remove_absent by done.
        simpl. rewrite bool_decide_eq_true_2 by done. simpl. apply app_nil_r.
      * apply elem_of_app. right. by apply list_elem_of_singleton.
Qed.

Lemma toggle_flips_one_option_witness :
  NoDup (selectedOf FKeyword
           (handleMultiFilterChange FKeyword (utf16 "b")
              (mkFilterOption [] [utf16 "a"; utf16 "b"] [] []))) ∧
  selectedOf FKeyword
    (handleMultiFilterChange FKeyword (utf16 "c")
       (handleMultiFilterChange FKeyword (utf16 "c")
          (mkFilterOption [] [utf16 "a"; utf16 "b"] [] [])))
  = [utf16 "a"; utf16 "b"].
Proof.
  split.
  - apply (proj1 (proj2 (proj2 (proj2
             (toggle_flips_one_option FKeyword (utf16 "b")
                (mkFilterOption [] [utf16 "a"; utf16 "b"] [] [])))))).
    compute_done.
  - apply (proj2 (proj2 (proj2 (proj2
             (toggle_flips_one_option FKeyword (utf16 "c")
                (mkFilterOption [] [utf16 "a"; utf16 "b"] [] [])))))).
    compute_done.
Defined.

Lemma cleanFilters_lookup entries key v :
  cleanFilters entries !! key = Some v →
  ∃ s, v = JStr s ∧ s ≠ [] ∧ (key, s) ∈ entries.
Proof.
  unfold cleanFilters. intros Hv%elem_of_list_to_map_2.
  apply list_elem_of_fmap in Hv as ([k s] & [= -> ->] & He).
  apply list_elem_of_In, filter_In in He as [He Hs].
  exists s. split; [done|]. split; [by apply nonEmpty_true|].
  by apply list_elem_of_In.
Qed.

Lemma convertToLegacyFilter_keys mf fm st key s :
  (key, s) ∈ convertToLegacyFilter mf fm st → key ∈ criteriaKeys.
Proof.
  unfold convertToLegacyFilter, criteriaKeys. intros He.
  apply elem_of_app in He as [He | He].
  - repeat (apply elem_of_cons in He as [[= -> _] | He]); [..|by apply elem_of_nil in He];
      compute_done.
  - destruct (nonEmpty st); [|by apply elem_of_nil in He].
    repeat (apply elem_of_cons in He as [[= -> _] | He]); [..|by apply elem_of_nil in He];
      compute_done.
Qed.

Lemma panelCriteria_text mf fm st :
  criterionOf (panelCriteria mf fm st) "theme"
  = (if nonEmpty st then JStr st else JUndefined) ∧
  criterionOf (panelCriteria mf fm st) "affiliation"
  = (if nonEmpty st then JStr st else JUndefined).
Proof.
  unfold criterionOf, panelCriteria, cleanFilters, convertToLegacyFilter.
  destruct (nonEmpty st) eqn:Hst; simpl;
    destruct (nonEmpty (legacyValue (fm_field fm) (fo_field mf)));
    destruct (nonEmpty (legacyValue (fm_keyword fm) (fo_keyword mf)));
    destruct (nonEmpty (legacyValue (fm_keytechnology fm) (fo_keytechnology mf)));
    destruct (nonEmpty (legacyValue (fm_program fm) (fo_program mf)));
    simpl; rewrite ?Hst; simpl; by simplify_map_eq.
Qed.

(** X7: every property of the criteria object the filter panel sends is
    one of the six criteria keys and holds a non-empty string (empty values
    are removed, not sent), and the theme and the affiliation criterion are
    both the search text, or both missing when it is empty. *)
Theorem panelCriteria_values mf fm st :
  (∀ key v, panelCriteria mf fm st !! key = Some v →
            key ∈ criteriaKeys ∧ ∃ s, v = JStr s ∧ s ≠ []) ∧
  criterionOf (panelCriteria mf fm st) "theme"
  = (if nonEmpty st then JStr st else JUndefined) ∧
  criterionOf (panelCriteria mf fm st) "affiliation"
  = criterionOf (panelCriteria mf fm st) "theme".
Proof.
  split; [|split].
  - intros key v Hv. apply cleanFilters_lookup in Hv as (s & -> & Hs & He).
    split; [by eapply convertToLegacyFilter_keys|]. by exists s.
  - apply panelCriteria_text.
  - destruct (panelCriteria_text mf fm st) as [-> ->]. done.
Qed.

Lemma panelCriteria_values_witness :
  "field" ∈ criteriaKeys ∧
  ∃ s, JStr (utf16 "AND:X|Y") = JStr s ∧ s ≠ [].
Proof.
  apply (proj1 (panelCriteria_values
                  (mkFilterOption [utf16 "X"; utf16 "Y"] [] [] [])
                  (mkFilterModes AND OR OR OR) (utf16 "kuma")) "field").
  reflexivity.
Defined.

Lemma panelCriteria_typed mf fm st : typedCriteria (panelCriteria mf fm st).
Proof.
  intros key. unfold criterionOf.
  destruct (panelCriteria mf fm st !! key) as [v|] eqn:Hv; [|by left].
  apply cleanFilters_lookup in Hv as (s & -> & _). right. by exists s.
Qed.

(** X8: with the criteria object of the filter panel, the record filter
    completes on records whose fields are strings or absent, whatever is
    ticked or typed, and returns some of the elements of the input in
    order; and with nothing ticked and no search text the panel sends [{}]
    and the filter hands back the input array itself, the heap unchanged. *)
Theorem panel_then_filter (toLowerCase : jsstring → jsstring) :
  (∀ h researchers filters elems rs mf fm st,
     h !! researchers = Some (ObjArray elems) →
     h !! filters = Some (ObjFilters (panelCriteria mf fm st)) →
     recordsAt h elems rs → Forall wellTyped rs →
     ∃ kept,
       outcome (filterResearchers toLowerCase researchers filters h) = Ok kept ∧
       kept `sublist_of` elems) ∧
  (∀ h researchers filters elems fm,
     h !! researchers = Some (ObjArray elems) →
     h !! filters
     = Some (ObjFilters (panelCriteria (mkFilterOption [] [] [] []) fm [])) →
     filterResearchers toLowerCase researchers filters h = (Ok researchers, h)).
Proof.
  split.
  - intros h researchers filters elems rs mf fm st Harr Hf Hrec Htyped.
    apply (filterResearchers_total toLowerCase h researchers filters elems rs
             (panelCriteria mf fm st)); try done.
    apply panelCriteria_typed.
  - intros h researchers filters elems fm Harr Hf.
    by rewrite (filterResearchers_run _ _ _ _ elems _ Harr Hf).
Qed.

Lemma panel_then_filter_witness :
  (∃ kept,
     outcome (filterResearchers asciiLower 0 9
                (filterHeap kumamotoRecords
                   (panelCriteria (mkFilterOption [utf16 "X"] [] [] [])
                      (mkFilterModes AND OR OR OR) (utf16 "kuma"))))
     = Ok kept ∧
     kept `sublist_of` [1; 2]) ∧
  filterResearchers asciiLower 0 9
    (filterHeap kumamotoRecords
       (panelCriteria (mkFilterOption [] [] [] []) (mkFilterModes OR OR OR OR) []))
  = (Ok 0,
     filterHeap kumamotoRecords
       (panelCriteria (mkFilterOption [] [] [] []) (mkFilterModes OR OR OR OR) [])).
Proof.
  split.
  - apply (proj1 (panel_then_filter asciiLower) _ 0 9 [1; 2] kumamotoRecords
             (mkFilterOption [utf16 "X"] [] [] []) (mkFilterModes AND OR OR OR)
             (utf16 "kuma")); [reflexivity|reflexivity|repeat constructor|].
    unfold kumamotoRecords.
    repeat (apply Forall_cons; split); [| |apply Forall_nil];
      unfold wellTyped, stringOrAbsent; simpl; naive_solver.
  - by apply (proj2 (panel_then_filter asciiLower) _ 0 9 [1; 2]
                (mkFilterModes OR OR OR OR)).
Defined.

Lemma legacyValue_cons mode x xs :
  legacyValue mode (x :: xs)
  = match mode with
    | AND => AND_MARKER ++ joinWith PIPE (x :: xs)
    | OR => joinWith PIPE (x :: xs)
    end.
Proof. reflexivity. Qed.

Lemma joinWith_cons sep x xs :
  ∃ tail, joinWith sep (x :: xs) = x ++ tail ∧ (tail = [] ∨ ∃ t, tail = sep :: t).
Proof.
  destruct xs as [|y xs].
  - exists []. split; [by rewrite app_nil_r|by left].
  - eexists. split; [reflexivity|]. right. by eexists.
Qed.

Lemma prefix_before_separator (sep : N) (m x tail rest : jsstring) :
  sep ∉ m → (tail = [] ∨ ∃ t, tail = sep :: t) →
  x ++ tail = m ++ rest → ∃ rest', x = m ++ rest'.
Proof.
  intros Hm Htail. revert x. induction m as [|c m IH]; intros x Heq.
  - by exists x.
  - apply not_elem_of_cons in Hm as [Hc Hm].
    destruct x as [|c' x]; simpl in Heq.
    + destruct Htail as [-> | [t ->]]; [done|]. by injection Heq as -> _.
    + injection Heq as -> Heq. destruct (IH Hm x Heq) as [rest' ->].
      by exists rest'.
Qed.

(** What [matchField] reads in an expression of the AND mode. *)
Lemma legacyValue_and_decoded v selected :
  stringOrAbsent v → selected ≠ [] → Forall (λ x, PIPE ∉ x) selected →
  ∃ b, matchField v (JStr (legacyValue AND selected)) = Ok b ∧
       (b = true ↔ ∀ x, x ∈ selected → x ∈ tokens v).
Proof.
  intros Hv Hne Hpipe. destruct selected as [|x xs]; [done|].
  rewrite legacyValue_cons. destruct (truthy v) eqn:Htruthy.
  - rewrite (matchField_and v _ (joinWith PIPE (x :: xs)) Htruthy
               (stringOrAbsent_splittable v Hv) eq_refl).
    rewrite splitOn_joinWith by done.
    eexists. split; [done|]. apply forallb_arrayIncludes.
  - rewrite matchField_absent_value by done.
    exists false. split; [done|]. split; [done|]. intros Hall.
    specialize (Hall x (list_elem_of_here _ _)).
    rewrite (tokens_falsy v Htruthy) in Hall. by apply elem_of_nil in Hall.
Qed.

(** X9: the expression the panel builds in the AND mode is read back by
    [matchField] as the ticked options: when none of them contains "|", a
    record's attribute (a string or absent) is accepted iff every ticked
    option is one of its tokens. *)
Theorem and_selection_roundtrip v selected :
  stringOrAbsent v → selected ≠ [] → Forall (λ x, PIPE ∉ x) selected →
  ∃ b, matchField v (JStr (legacyValue AND selected)) = Ok b ∧
       (b = true ↔ ∀ x, x ∈ selected → x ∈ tokens v).
Proof.
  intros Hv Hne Hpipe. by apply legacyValue_and_decoded.
Qed.

Lemma and_selection_roundtrip_witness :
  ∃ b, matchField (JStr (utf16 "X,Y,Z"))
         (JStr (legacyValue AND [utf16 "X"; utf16 "Z"])) = Ok b ∧
       (b = true ↔ ∀ x, x ∈ [utf16 "X"; utf16 "Z"] →
                        x ∈ tokens (JStr (utf16 "X,Y,Z"))).
Proof.
  apply and_selection_roundtrip.
  - right. by eexists.
  - discriminate.
  - repeat constructor; compute_done.
Defined.

(** What [matchField] reads in an expression of the OR mode. *)
Lemma legacyValue_or_decoded v selected :
  stringOrAbsent v → selected ≠ [] →
  Forall (λ x, x ≠ [] ∧ PIPE ∉ x) selected →
  (∀ x rest, head selected = Some x → x ≠ AND_MARKER ++ rest) →
  ∃ b, matchField v (JStr (legacyValue OR selected)) = Ok b ∧
       (b = true ↔ ∃ x, x ∈ selected ∧ x ∈ tokens v).
Proof.
  intros Hv Hne Hsel Hhead. destruct selected as [|x xs]; [done|].
  rewrite legacyValue_cons.
  assert (Forall (λ x, PIPE ∉ x) (x :: xs)) as Hpipe.
  { eapply Forall_impl; [exact Hsel|]. by intros ? [_ ?]. }
  assert (joinWith PIPE (x :: xs) ≠ []) as Hjoin.
  { destruct (joinWith_cons PIPE x xs) as (tail & -> & _).
    apply Forall_cons in Hsel as [[Hx _] _]. by destruct x. }
  assert (¬ ∃ rest, joinWith PIPE (x :: xs) = AND_MARKER ++ rest) as Hand.
  { intros [rest Hrest].
    destruct (joinWith_cons PIPE x xs) as (tail & Heq & Htail).
    rewrite Heq in Hrest.
    destruct (prefix_before_separator PIPE AND_MARKER x tail rest) as [rest' ->];
      [compute_done|done|done|].
    by apply (Hhead _ rest' eq_refl). }
  destruct (truthy v) eqn:Htruthy.
  - rewrite (matchField_or v _ Htruthy (stringOrAbsent_splittable v Hv) Hjoin Hand).
    rewrite splitOn_joinWith by done.
    eexists. split; [done|]. apply existsb_arrayIncludes.
  - rewrite matchField_absent_value by done.
    exists false. split; [done|]. split; [done|]. intros (y & _ & Hy).
    rewrite (tokens_falsy v Htruthy) in Hy. by apply elem_of_nil in Hy.
Qed.

(** X10: the expression the panel builds in the OR mode is read back by
    [matchField] as the ticked options when none of them is empty or
    contains "|" and the first one does not start with "AND:": a record's
    attribute (a string or absent) is accepted iff at least one ticked
    option is one of its tokens. *)
Theorem or_selection_roundtrip v selected :
  stringOrAbsent v → selected ≠ [] →
  Forall (λ x, x ≠ [] ∧ PIPE ∉ x) selected →
  (∀ x rest, head selected = Some x → x ≠ AND_MARKER ++ rest) →
  ∃ b, matchField v (JStr (legacyValue OR selected)) = Ok b ∧
       (b = true ↔ ∃ x, x ∈ selected ∧ x ∈ tokens v).
Proof.
  intros Hv Hne Hsel Hhead. by apply legacyValue_or_decoded.
Qed.

Lemma or_selection_roundtrip_witness :
  ∃ b, matchField (JStr (utf16 "X,Y,Z"))
         (JStr (legacyValue OR [utf16 "W"; utf16 "Z"])) = Ok b ∧
       (b = true ↔ ∃ x, x ∈ [utf16 "W"; utf16 "Z"] ∧
                        x ∈ tokens (JStr (utf16 "X,Y,Z"))).
Proof.
  apply or_selection_roundtrip.
  - right. by eexists.
  - discriminate.
  - repeat constructor; try discriminate; compute_done.
  - intros x rest [= <-]. discriminate.
Defined.

(** ** Selecting a researcher *)

Lemma sort_sorted_id l :
  StronglySorted scoreNotBelow l → sort byScoreDesc l = l.
Proof.
  induction 1 as [|x l Hl IH Hx]; simpl; [done|].
  rewrite IH. destruct l as [|y l']; simpl; [done|].
  apply Forall_cons in Hx as [Hxy _]. unfold scoreNotBelow in Hxy.
  unfold byScoreDesc. destruct (Z.leb_spec (c_score y - c_score x) 0); [done|lia].
Qed.

Lemma sort_idem l : sort byScoreDesc (sort byScoreDesc l) = sort byScoreDesc l.
Proof. apply sort_sorted_id, sort_sorted. Qed.

Lemma recordOf_inv h l r : recordOf h l = Some r → h !! l = Some (ObjResearcher r).
Proof.
  unfold recordOf. destruct (h !! l) as [[]|]; try done. by intros [= ->].
Qed.

Lemma idAt_Some h l r : h !! l = Some (ObjResearcher r) → idAt h l = Some (r_id r).
Proof. unfold idAt, recordOf. by intros ->. Qed.

Lemma findById_run h elems id :
  Forall (λ l, is_Some (recordOf h l)) elems →
  findById elems id h = (Ok (firstWithId h elems id), h).
Proof.
  unfold firstWithId. induction 1 as [|l elems [r Hr] _ IH]; simpl; [done|].
  apply recordOf_inv in Hr.
  unfold bind at 1, getField. rewrite Hr. rewrite (idAt_Some h l r Hr).
  unfold strictEq. repeat case_bool_decide; try done; congruence.
Qed.

Lemma mapM_findById_run h elems ids :
  Forall (λ l, is_Some (recordOf h l)) elems →
  mapM ids (findById elems) h = (Ok (firstWithId h elems <$> ids), h).
Proof.
  intros Hrec. induction ids as [|id ids IH]; simpl; [done|].
  unfold bind at 1. rewrite (findById_run h elems id Hrec).
  unfold bind at 1. by rewrite IH.
Qed.

Lemma firstWithId_ext h h' elems id :
  (∀ l, l ∈ elems → idAt h' l = idAt h l) →
  firstWithId h' elems id = firstWithId h elems id.
Proof.
  unfold firstWithId. induction elems as [|l elems IH]; intros Hsame; simpl; [done|].
  rewrite (Hsame l) by left. rewrite IH; [done|].
  intros l' Hl'. apply Hsame. by right.
Qed.

Lemma firstWithId_Some h elems id l :
  firstWithId h elems id = Some l → l ∈ elems ∧ idAt h l = Some id.
Proof.
  unfold firstWithId. intros Hfind. apply find_some in Hfind as [Hin Hid].
  split; [by apply list_elem_of_In|]. by apply bool_decide_eq_true in Hid.
Qed.

Lemma firstWithId_None h elems id l :
  firstWithId h elems id = None → l ∈ elems → idAt h l ≠ Some id.
Proof.
  unfold firstWithId. intros Hfind Hl%list_elem_of_In Hid.
  pose proof (find_none _ _ Hfind l Hl) as Hnone. simpl in Hnone.
  by rewrite bool_decide_eq_true_2 in Hnone.
Qed.

(** Where ids tell the addresses apart, the first address with an id is
    the address with that id. *)
Lemma firstWithId_unique h elems id l :
  (∀ l1 l2, l1 ∈ elems → l2 ∈ elems → idAt h l1 = idAt h l2 → is_Some (idAt h l1) → l1 = l2) →
  l ∈ elems → idAt h l = Some id → firstWithId h elems id = Some l.
Proof.
  intros Hinj Hl Hid. destruct (firstWithId h elems id) as [l'|] eqn:Hfind.
  - apply firstWithId_Some in Hfind as [Hl' Hid'].
    f_equal. apply Hinj; [done|done|congruence|by rewrite Hid'].
  - by destruct (firstWithId_None h elems id l Hfind Hl).
Qed.

Lemma omap_id_fmap {A B} (f : A → option B) (l : list A) :
  omap (λ r, r) (f <$> l) = omap f l.
Proof. induction l as [|x l IH]; csimpl; [done|]. by rewrite IH. Qed.

(** A run of the handler on an array of records: the selected record gets
    its entries sorted, and each entry is looked up in the array. *)
Lemma handleSelectResearcher_run h shown kept id :
  h !! shown = Some (ObjArray kept) →
  Forall (λ l, is_Some (recordOf h l)) kept →
  handleSelectResearcher shown id h
  = match firstWithId h kept id with
    | None => (Ok [], h)
    | Some l =>
        match recordOf h l with
        | Some r =>
            match r_connections r with
            | Some c =>
                (Ok (omap (λ e, firstWithId h kept (c_id e)) (sort byScoreDesc c)),
                 <[l := ObjResearcher (withConnections r (sort byScoreDesc c))]> h)
            | None => (Ok [], h)
            end
        | None => (Ok [], h)
        end
    end.
Proof.
  intros Hshown Hrec. unfold handleSelectResearcher.
  unfold bind at 1, getArray. rewrite Hshown.
  unfold bind at 1. rewrite (findById_run h kept id Hrec).
  destruct (firstWithId h kept id) as [l|] eqn:Hfind; [|done].
  apply firstWithId_Some in Hfind as [Hl Hid].
  destruct (proj1 (Forall_forall _ _) Hrec l Hl) as [r Hr].
  rewrite Hr. apply recordOf_inv in Hr.
  unfold bind at 1, getConnections. rewrite Hr.
  destruct (r_connections r) as [c|] eqn:Hc; [|done].
  unfold bind at 1, setConnections. rewrite Hr.
  set (h' := <[l := _]> h).
  assert (∀ l', idAt h' l' = idAt h l') as Hsame.
  { intros l'. unfold idAt, recordOf, h'.
    destruct (decide (l' = l)) as [->|Hne].
    - by rewrite lookup_insert_eq, Hr.
    - by rewrite lookup_insert_ne. }
  assert (Forall (λ l, is_Some (recordOf h' l)) kept) as Hrec'.
  { eapply Forall_impl; [exact Hrec|]. intros l' [r' Hr'].
    specialize (Hsame l'). unfold idAt in Hsame. rewrite Hr' in Hsame.
    destruct (recordOf h' l'); [by eexists|done]. }
  unfold bind at 1. rewrite (mapM_findById_run h' kept _ Hrec'). unfold ret.
  rewrite <- list_fmap_compose, omap_id_fmap. f_equal. f_equal.
  apply list_omap_ext, Forall_Forall2_diag, Forall_forall. intros e _. simpl.
  apply firstWithId_ext. intros; apply Hsame.
Qed.

Lemma NoDup_fmap_eq {A B} (f : A → B) (l : list A) x y :
  NoDup (f <$> l) → x ∈ l → y ∈ l → f x = f y → x = y.
Proof.
  intros Hnd [i Hi]%list_elem_of_lookup [j Hj]%list_elem_of_lookup Hf.
  assert (i = j) as ->; [|congruence].
  eapply NoDup_lookup; [exact Hnd| |].
  - by rewrite list_lookup_fmap, Hi.
  - by rewrite list_lookup_fmap, Hj, Hf.
Qed.

Lemma built_lookup h elems rs l :
  recordsAt h elems (built rs) → l ∈ elems →
  ∃ a, a ∈ rs ∧ h !! l = Some (ObjResearcher (withConnections a (connectionsOf a rs))).
Proof.
  intros Hrec Hl.
  destruct (recordsAt_lookup h elems _ l Hrec Hl) as (a' & Ha' & Hla).
  apply list_elem_of_fmap in Ha' as (a & -> & Ha). eauto.
Qed.

Lemma built_inj h elems rs l1 l2 :
  recordsAt h elems (built rs) → NoDup (r_id <$> rs) →
  l1 ∈ elems → l2 ∈ elems → idAt h l1 = idAt h l2 → l1 = l2.
Proof.
  intros Hrec Hnd [i Hi]%list_elem_of_lookup [j Hj]%list_elem_of_lookup Hid.
  destruct (Forall2_lookup_l _ _ _ _ _ Hrec Hi) as (a1 & Ha1 & Hl1).
  destruct (Forall2_lookup_l _ _ _ _ _ Hrec Hj) as (a2 & Ha2 & Hl2).
  rewrite (idAt_Some _ _ _ Hl1), (idAt_Some _ _ _ Hl2) in Hid.
  unfold built in Ha1, Ha2. rewrite list_lookup_fmap in Ha1, Ha2.
  destruct (rs !! i) as [b1|] eqn:Hb1; [|done].
  destruct (rs !! j) as [b2|] eqn:Hb2; [|done].
  injection Ha1 as <-. injection Ha2 as <-. simpl in Hid.
  assert (i = j) as ->; [|congruence].
  eapply NoDup_lookup; [exact Hnd| |].
  - by rewrite list_lookup_fmap, Hb1.
  - rewrite list_lookup_fmap, Hb2. simpl. congruence.
Qed.

Lemma NoDup_omap_by {A B C} (f : A → option B) (g : A → C) (l : list A) :
  NoDup (g <$> l) →
  (∀ x y z, f x = Some z → f y = Some z → g x = g y) →
  NoDup (omap f l).
Proof.
  intros Hnd Hfg. induction l as [|x l IH]; csimpl; [constructor|].
  apply NoDup_cons in Hnd as [Hx Hnd].
  destruct (f x) as [z|] eqn:Hz; [|by apply IH].
  apply NoDup_cons. split; [|by apply IH].
  intros (y & Hy & Hfy)%list_elem_of_omap. apply Hx.
  rewrite (Hfg x y z Hz Hfy). by apply list_elem_of_fmap_2.
Qed.

Lemma StronglySorted_omap {A B} (R : A → A → Prop) (R' : B → B → Prop)
    (f : A → option B) (l : list A) :
  StronglySorted R l →
  (∀ x y x' y', x ∈ l → y ∈ l → f x = Some x' → f y = Some y' → R x y → R' x' y') →
  StronglySorted R' (omap f l).
Proof.
  induction 1 as [|x l Hl IH Hx]; intros HR; csimpl; [constructor|].
  assert (StronglySorted R' (omap f l)) as IH'.
  { apply IH. intros ???? ??. apply HR; by right. }
  destruct (f x) as [x'|] eqn:Hx'; [|done].
  constructor; [done|]. apply Forall_forall.
  intros y' (y & Hy & Hfy)%list_elem_of_omap.
  apply (HR x y); [by left|by right|done|done|].
  by apply (proj1 (Forall_forall _ _) Hx).
Qed.

Lemma relevance_withConnections a b ca cb :
  relevance (withConnections a ca) (withConnections b cb) = relevance a b.
Proof. reflexivity. Qed.

(** The entry the builder pushes, in terms of the weighted sum. *)
Lemma edge_relevance a b :
  edge a b
  = if strictEq (r_id a) (r_id b) then None
    else if (0 <? relevance a b)%Z
         then Some (mkConnection (r_id b) (relevance a b)) else None.
Proof. unfold edge. by rewrite scoreToward_relevance. Qed.

(** X11: after the builder has run on records with pairwise distinct ids,
    selecting an id in an array of some of these records (the filtered
    array) completes and leaves the heap as it is: the entries are sorted
    already. The records listed are distinct, they are exactly the records
    of the array with another id and a positive relevance to the selected
    one, and they stand in the order of descending relevance. *)
Theorem select_after_build h elems rs shown kept id :
  recordsAt h elems (built rs) → NoDup (r_id <$> rs) →
  h !! shown = Some (ObjArray kept) → kept ⊆ elems →
  ∃ related,
    handleSelectResearcher shown id h = (Ok related, h) ∧
    NoDup related ∧
    (∀ l', l' ∈ related ↔
       l' ∈ kept ∧
       ∃ l a b, l ∈ kept ∧ recordOf h l = Some a ∧ r_id a = id ∧
                recordOf h l' = Some b ∧ r_id b ≠ id ∧ (0 < relevance a b)%Z) ∧
    (∀ l a, l ∈ kept → recordOf h l = Some a → r_id a = id →
       StronglySorted
         (λ l1 l2, ∀ b1 b2, recordOf h l1 = Some b1 → recordOf h l2 = Some b2 →
                            (relevance a b2 ≤ relevance a b1)%Z)
         related).
Proof.
  intros Hrec Hnd Hshown Hkept.
  assert (∀ l, l ∈ kept →
            ∃ a, a ∈ rs ∧ h !! l = Some (ObjResearcher (withConnections a (connectionsOf a rs))))
    as Hbuilt.
  { intros l Hl. apply (built_lookup h elems rs l Hrec). by apply Hkept. }
  assert (Forall (λ l, is_Some (recordOf h l)) kept) as Hrecs.
  { apply Forall_forall. intros l Hl. destruct (Hbuilt l Hl) as (a & _ & Ha).
    rewrite (recordOf_Some _ _ _ Ha). by eexists. }
  assert (∀ l1 l2, l1 ∈ kept → l2 ∈ kept → idAt h l1 = idAt h l2 → l1 = l2) as Hinj.
  { intros l1 l2 Hl1 Hl2. apply (built_inj h elems rs); auto. }
  rewrite (handleSelectResearcher_run h shown kept id Hshown Hrecs).
  destruct (firstWithId h kept id) as [l|] eqn:Hfind.
  - apply firstWithId_Some in Hfind as [Hl Hid].
    destruct (Hbuilt l Hl) as (a & Ha & Hla).
    rewrite (idAt_Some _ _ _ Hla) in Hid. simpl in Hid. injection Hid as Hid.
    rewrite (recordOf_Some _ _ _ Hla). simpl.
    rewrite (sort_sorted_id _ (connectionsOf_sorted a rs)).
    eexists. split; [|split; [|split]].
    + f_equal. by apply insert_id.
    + apply (NoDup_omap_by _ c_id); [by apply connectionsOf_NoDup|].
      intros x y z [_ Hx]%firstWithId_Some [_ Hy]%firstWithId_Some. congruence.
    + intros l'. rewrite list_elem_of_omap. split.
      * intros (e & He & [Hl' Hide]%firstWithId_Some). split; [done|].
        apply elem_of_connectionsOf in He as (b & Hb & Hedge).
        destruct (Hbuilt l' Hl') as (b' & Hb' & Hlb').
        rewrite (idAt_Some _ _ _ Hlb') in Hide. simpl in Hide. injection Hide as Hide.
        apply edge_Some in Hedge as (Hne & Hce & Hscore & Hpos).
        assert (b' = b) as -> by (apply (NoDup_fmap_eq r_id rs); congruence).
        exists l, (withConnections a (connectionsOf a rs)),
               (withConnections b (connectionsOf b rs)).
        rewrite (recordOf_Some _ _ _ Hla), (recordOf_Some _ _ _ Hlb').
        rewrite relevance_withConnections, <- scoreToward_relevance. simpl.
        repeat split; try done; [congruence|lia].
      * intros (Hl' & l0 & a0 & b & Hl0 & Ha0 & Hida0 & Hb & Hne & Hpos).
        assert (l0 = l) as ->.
        { apply Hinj; [done|done|]. unfold idAt. rewrite Ha0.
          rewrite (recordOf_Some _ _ _ Hla). simpl. congruence. }
        rewrite (recordOf_Some _ _ _ Hla) in Ha0. injection Ha0 as <-.
        destruct (Hbuilt l' Hl') as (b' & Hb' & Hlb').
        rewrite (recordOf_Some _ _ _ Hlb') in Hb. injection Hb as <-.
        rewrite relevance_withConnections in Hpos. simpl in Hne.
        exists (mkConnection (r_id b') (relevance a b')). split.
        -- apply elem_of_connectionsOf. exists b'. split; [done|].
           rewrite edge_relevance. unfold strictEq.
           rewrite bool_decide_eq_false_2 by congruence.
           by destruct (Z.ltb_spec 0 (relevance a b')); [|lia].
        -- simpl. apply firstWithId_unique; [|done|by rewrite (idAt_Some _ _ _ Hlb')].
           intros l1 l2 ? ? ? _. by apply Hinj.
    + intros l0 a0 Hl0 Ha0 Hida0.
      assert (l0 = l) as ->.
      { apply Hinj; [done|done|]. unfold idAt. rewrite Ha0.
        rewrite (recordOf_Some _ _ _ Hla). simpl. congruence. }
      rewrite (recordOf_Some _ _ _ Hla) in Ha0. injection Ha0 as <-.
      eapply StronglySorted_omap; [apply connectionsOf_sorted|].
      intros x y l1 l2 Hx Hy [Hl1 Hid1]%firstWithId_Some [Hl2 Hid2]%firstWithId_Some Hxy.
      intros b1 b2 Hb1 Hb2.
      assert (∀ e l' b, e ∈ connectionsOf a rs → l' ∈ kept →
                idAt h l' = Some (c_id e) → recordOf h l' = Some b →
                c_score e = relevance (withConnections a (connectionsOf a rs)) b) as Hscore.
      { intros e l' b He Hl' Hide Hb.
        apply elem_of_connectionsOf in He as (b0 & Hb0 & Hedge).
        destruct (Hbuilt l' Hl') as (b' & Hb' & Hlb').
        rewrite (idAt_Some _ _ _ Hlb') in Hide. simpl in Hide. injection Hide as Hide.
        rewrite (recordOf_Some _ _ _ Hlb') in Hb. injection Hb as <-.
        apply edge_Some in Hedge as (_ & Hce & -> & _).
        assert (b' = b0) as -> by (apply (NoDup_fmap_eq r_id rs); congruence).
        by rewrite relevance_withConnections, scoreToward_relevance. }
      rewrite <- (Hscore x l1 b1), <- (Hscore y l2 b2); done.
  - exists []. split; [done|]. split; [constructor|]. split.
    + intros l'. split; [by intros ?%elem_of_nil|].
      intros (_ & l & a & b & Hl & Ha & Hid & _).
      destruct (firstWithId_None h kept id l Hfind Hl). unfold idAt. rewrite Ha. simpl. by rewrite Hid.
    + intros. constructor.
Qed.

Lemma select_after_build_witness :
  ∃ related,
    handleSelectResearcher 10 (JStr (utf16 "1")) shownHeap = (Ok related, shownHeap) ∧
    NoDup related ∧
    (∀ l', l' ∈ related ↔
       l' ∈ [1; 3] ∧
       ∃ l a b, l ∈ [1; 3] ∧ recordOf shownHeap l = Some a ∧ r_id a = JStr (utf16 "1") ∧
                recordOf shownHeap l' = Some b ∧ r_id b ≠ JStr (utf16 "1") ∧
                (0 < relevance a b)%Z) ∧
    (∀ l a, l ∈ [1; 3] → recordOf shownHeap l = Some a → r_id a = JStr (utf16 "1") →
       StronglySorted
         (λ l1 l2, ∀ b1 b2, recordOf shownHeap l1 = Some b1 →
                            recordOf shownHeap l2 = Some b2 →
                            (relevance a b2 ≤ relevance a b1)%Z)
         related).
Proof.
  apply (select_after_build shownHeap [1; 2; 3] shownRecords 10 [1; 3]).
  - repeat constructor; vm_compute; reflexivity.
  - compute_done.
  - vm_compute. reflexivity.
  - compute_done.
Defined.



(** ** The network view *)

Lemma addLinks_run ids id c acc :
  addLinks ids id c acc
  = acc ++ ((λ e, mkLink id (c_id e) (c_score e))
              <$> List.filter (λ e, (2 <=? c_score e)%Z && setHas ids (c_id e)) c).
Proof.
  unfold addLinks. revert acc. induction c as [|e c IH]; intros acc; simpl.
  - by rewrite app_nil_r.
  - rewrite IH. destruct (_ && _); simpl; [|done].
    by rewrite <- app_assoc.
Qed.

Lemma visitNode_run h ids acc l r :
  h !! l = Some (ObjResearcher r) →
  visitNode ids acc l h = (Ok (acc ++ linksFrom ids r), h).
Proof.
  intros Hl. unfold visitNode, linksFrom.
  unfold bind at 1, getConnections. rewrite Hl.
  destruct (r_connections r) as [c|]; [|by rewrite app_nil_r].
  rewrite (bind_getField _ _ _ _ _ Hl).
  destruct (setHas ids (r_id r)); unfold ret; [|by rewrite app_nil_r].
  by rewrite addLinks_run.
Qed.

Lemma visitNodes_run h ids acc elems rs :
  recordsAt h elems rs →
  forEachAcc elems (visitNode ids) acc h = (Ok (acc ++ (rs ≫= linksFrom ids)), h).
Proof.
  intros Hrec. revert acc.
  induction Hrec as [|l r elems rs Hl _ IH]; intros acc; simpl.
  - by rewrite app_nil_r.
  - unfold bind at 1. rewrite (visitNode_run h ids acc l r Hl).
    rewrite IH. by rewrite <- app_assoc.
Qed.

Lemma mapM_ids_run h elems rs :
  recordsAt h elems rs →
  mapM elems (λ n, getField n r_id) h = (Ok (r_id <$> rs), h).
Proof.
  induction 1 as [|l r elems rs Hl _ IH]; simpl; [done|].
  rewrite (bind_getField _ _ _ _ _ Hl). unfold bind at 1. by rewrite IH.
Qed.

Lemma links_run h shown kept rs :
  h !! shown = Some (ObjArray kept) → recordsAt h kept rs →
  links shown h = (Ok (rs ≫= linksFrom (r_id <$> rs)), h).
Proof.
  intros Hshown Hrec. unfold links.
  unfold bind at 1, getArray. rewrite Hshown.
  unfold bind at 1. rewrite (mapM_ids_run h kept rs Hrec).
  by rewrite (visitNodes_run h _ [] kept rs Hrec).
Qed.

Lemma elem_of_List_filter {A} (f : A → bool) (l : list A) x :
  x ∈ List.filter f l ↔ x ∈ l ∧ f x = true.
Proof. by rewrite !list_elem_of_In, filter_In. Qed.

Lemma elem_of_linksFrom ids r s t v :
  r_id r ∈ ids →
  mkLink s t v ∈ linksFrom ids r ↔
  ∃ c, r_id r = s ∧ r_connections r = Some c ∧ mkConnection t v ∈ c ∧
       (2 ≤ v)%Z ∧ t ∈ ids.
Proof.
  intros Hr. unfold linksFrom, setHas. rewrite (bool_decide_eq_true_2 _ Hr).
  destruct (r_connections r) as [c|]; [|split; [by intros ?%elem_of_nil|by intros (?&?&?&?)]].
  rewrite list_elem_of_fmap. split.
  - intros ([t' v'] & [= -> -> ->] & [He Hkeep]%elem_of_List_filter).
    simpl in Hkeep. apply andb_true_iff in Hkeep as [Hv Ht].
    apply Z.leb_le in Hv. apply bool_decide_eq_true in Ht. by exists c.
  - intros (c' & <- & [= <-] & He & Hv & Ht).
    exists (mkConnection t v). split; [done|].
    apply elem_of_List_filter. split; [done|]. simpl.
    apply andb_true_iff. split; [by apply Z.leb_le|by apply bool_decide_eq_true].
Qed.

(** The links are the entries of the shown records with a score of 2 or
    more and a shown peer. *)
Lemma links_members h shown kept rs :
  h !! shown = Some (ObjArray kept) → recordsAt h kept rs →
  ∃ ls, links shown h = (Ok ls, h) ∧
    ∀ s t v, mkLink s t v ∈ ls ↔
      ∃ a c, a ∈ rs ∧ r_id a = s ∧ r_connections a = Some c ∧
             mkConnection t v ∈ c ∧ (2 ≤ v)%Z ∧ t ∈ (r_id <$> rs).
Proof.
  intros Hshown Hrec. eexists. split; [by apply (links_run h shown kept rs)|].
  intros s t v. rewrite list_elem_of_bind. split.
  - intros (a & Hlink & Ha).
    apply elem_of_linksFrom in Hlink as (c & ? & ? & ? & ? & ?);
      [|by apply list_elem_of_fmap_2].
    by exists a, c.
  - intros (a & c & Ha & ? & ? & ? & ? & ?). exists a. split; [|done].
    apply elem_of_linksFrom; [by apply list_elem_of_fmap_2|]. by exists c.
Qed.

(** X13: on an array of records the links of the drawing are computed
    without a write, and they are exactly the entries of the shown records
    that have a score of 2 or more and a shown peer: every link joins the
    ids of two shown records and carries a value of 2 or more. The test on
    the source of a link never rejects one. *)
Theorem links_are_strong_entries h shown kept rs :
  h !! shown = Some (ObjArray kept) → recordsAt h kept rs →
  ∃ ls, links shown h = (Ok ls, h) ∧
    (∀ s t v, mkLink s t v ∈ ls ↔
       ∃ a c, a ∈ rs ∧ r_id a = s ∧ r_connections a = Some c ∧
              mkConnection t v ∈ c ∧ (2 ≤ v)%Z ∧ t ∈ (r_id <$> rs)) ∧
    Forall (λ l, source l ∈ (r_id <$> rs) ∧ target l ∈ (r_id <$> rs) ∧ (2 ≤ value l)%Z) ls.
Proof.
  intros Hshown Hrec.
  destruct (links_members h shown kept rs Hshown Hrec) as (ls & Hrun & Hmem).
  exists ls. split; [done|]. split; [done|].
  apply Forall_forall. intros [s t v] Hl. apply Hmem in Hl as (a & c & Ha & <- & _ & _ & Hv & Ht).
  simpl. split; [by apply list_elem_of_fmap_2|done].
Qed.

Lemma recordsAt_exists h elems :
  Forall (λ l, is_Some (recordOf h l)) elems → ∃ rs, recordsAt h elems rs.
Proof.
  induction 1 as [|l elems [r Hr] _ [rs IH]].
  - exists []. constructor.
  - exists (r :: rs). constructor; [by apply recordOf_inv|done].
Qed.

Lemma recordsAt_elem h elems rs r :
  recordsAt h elems rs → r ∈ rs → ∃ l, l ∈ elems ∧ h !! l = Some (ObjResearcher r).
Proof.
  intros Hrec [i Hi]%list_elem_of_lookup.
  destruct (Forall2_lookup_r _ _ _ _ _ Hrec Hi) as (l & Hl & Hlr).
  exists l. split; [by eapply list_elem_of_lookup_2|done].
Qed.

Lemma recordsAt_record h elems rs l r :
  recordsAt h elems rs → l ∈ elems → h !! l = Some (ObjResearcher r) → r ∈ rs.
Proof.
  intros Hrec Hl Hr. destruct (recordsAt_lookup h elems rs l Hrec Hl) as (a & Ha & Hla).
  congruence.
Qed.

Lemma noRepeats_withConnections a c : noRepeats (withConnections a c) ↔ noRepeats a.
Proof. reflexivity. Qed.

Lemma relevance_noRepeats a b : noRepeats a → noRepeats b → relevance a b = relevance b a.
Proof.
  intros (?&?&?&?&_) (?&?&?&?&_). by apply relevance_sym.
Qed.

(** X14: after the builder has run on records with pairwise distinct ids,
    the links drawn for an array of some of these records join exactly the
    pairs of shown records with different ids whose relevance is 2 or more,
    with that relevance as value; when no record repeats a tag, the reverse
    of every link is a link too. *)
Theorem links_after_build h elems rs shown kept :
  recordsAt h elems (built rs) → NoDup (r_id <$> rs) →
  h !! shown = Some (ObjArray kept) → kept ⊆ elems →
  ∃ ls, links shown h = (Ok ls, h) ∧
    (∀ s t v, mkLink s t v ∈ ls ↔
       ∃ la lb a b, la ∈ kept ∧ lb ∈ kept ∧
          recordOf h la = Some a ∧ recordOf h lb = Some b ∧
          r_id a = s ∧ r_id b = t ∧ s ≠ t ∧ v = relevance a b ∧ (2 ≤ v)%Z) ∧
    (Forall noRepeats rs → ∀ s t v, mkLink s t v ∈ ls → mkLink t s v ∈ ls).
Proof.
  intros Hrec Hnd Hshown Hkept.
  assert (∀ l, l ∈ kept →
            ∃ a, a ∈ rs ∧ h !! l = Some (ObjResearcher (withConnections a (connectionsOf a rs))))
    as Hbuilt.
  { intros l Hl. apply (built_lookup h elems rs l Hrec). by apply Hkept. }
  destruct (recordsAt_exists h kept) as [rs' Hrec'].
  { apply Forall_forall. intros l Hl. destruct (Hbuilt l Hl) as (a & _ & Ha).
    rewrite (recordOf_Some _ _ _ Ha). by eexists. }
  destruct (links_members h shown kept rs' Hshown Hrec') as (ls & Hrun & Hmem).
  assert (∀ s t v, mkLink s t v ∈ ls ↔
       ∃ la lb a b, la ∈ kept ∧ lb ∈ kept ∧
          recordOf h la = Some a ∧ recordOf h lb = Some b ∧
          r_id a = s ∧ r_id b = t ∧ s ≠ t ∧ v = relevance a b ∧ (2 ≤ v)%Z) as Hchar.
  { intros s t v. rewrite Hmem. split.
    - intros (a' & c & Ha' & <- & Hc & He & Hv & Ht).
      destruct (recordsAt_elem h kept rs' a' Hrec' Ha') as (la & Hla & Hha).
      destruct (Hbuilt la Hla) as (a & Ha & Hha'). rewrite Hha in Hha'.
      injection Hha' as ->. simpl in Hc. injection Hc as <-.
      apply elem_of_connectionsOf in He as (b & Hb & Hedge).
      apply edge_Some in Hedge as (Hne & Hid & Hscore & _). simpl in Hid, Hscore.
      apply list_elem_of_fmap in Ht as (b' & -> & Hb').
      destruct (recordsAt_elem h kept rs' b' Hrec' Hb') as (lb & Hlb & Hhb).
      destruct (Hbuilt lb Hlb) as (b0 & Hb0 & Hhb'). rewrite Hhb in Hhb'.
      injection Hhb' as ->. simpl in Hid.
      assert (b0 = b) as -> by (apply (NoDup_fmap_eq r_id rs); congruence).
      exists la, lb, (withConnections a (connectionsOf a rs)),
             (withConnections b (connectionsOf b rs)).
      rewrite (recordOf_Some _ _ _ Hha), (recordOf_Some _ _ _ Hhb).
      rewrite relevance_withConnections, <- scoreToward_relevance. simpl.
      repeat split; try done.
    - intros (la & lb & a' & b' & Hla & Hlb & Ha' & Hb' & <- & <- & Hne & -> & Hv).
      apply recordOf_inv in Ha', Hb'.
      destruct (Hbuilt la Hla) as (a & Ha & Hha). rewrite Ha' in Hha. injection Hha as ->.
      destruct (Hbuilt lb Hlb) as (b & Hb & Hhb). rewrite Hb' in Hhb. injection Hhb as ->.
      rewrite relevance_withConnections in Hv |- *. simpl in Hne.
      exists (withConnections a (connectionsOf a rs)), (connectionsOf a rs).
      split; [by apply (recordsAt_record h kept rs' la)|].
      split; [done|]. split; [done|]. split; [|split; [done|]].
      + apply elem_of_connectionsOf. exists b. split; [done|].
        rewrite edge_relevance. unfold strictEq.
        rewrite bool_decide_eq_false_2 by done.
        by destruct (Z.ltb_spec 0 (relevance a b)); [|lia].
      + apply list_elem_of_fmap. exists (withConnections b (connectionsOf b rs)).
        split; [done|]. by apply (recordsAt_record h kept rs' lb). }
  exists ls. split; [done|]. split; [done|].
  intros Hnr s t v Hl.
  apply Hchar in Hl as (la & lb & a' & b' & Hla & Hlb & Ha' & Hb' & <- & <- & Hne & -> & Hv).
  apply Hchar. exists lb, la, b', a'. repeat split; try done.
  apply recordOf_inv in Ha', Hb'.
  destruct (Hbuilt la Hla) as (a & Ha & Hha). rewrite Ha' in Hha. injection Hha as ->.
  destruct (Hbuilt lb Hlb) as (b & Hb & Hhb). rewrite Hb' in Hhb. injection Hhb as ->.
  rewrite !relevance_withConnections.
  apply relevance_noRepeats; by apply (proj1 (Forall_forall _ _) Hnr).
Qed.

(** *** The count shown beside the drawing *)

Lemma strongCount_entries r : strongCount (r_connections r) = Z.of_nat (strongEntries r).
Proof.
  unfold strongEntries, strongCount. destruct (r_connections r); lia.
Qed.

Lemma countLoop_run h elems rs (acc : Z) :
  recordsAt h elems rs →
  forEachAcc elems
    (λ count researcher,
       let* connections := getConnections researcher in
       ret (count + strongCount connections)%Z) acc h
  = (Ok (acc + Z.of_nat (sum_list_with strongEntries rs))%Z, h).
Proof.
  intros Hrec. revert acc.
  induction Hrec as [|l r elems rs Hl _ IH]; intros acc; simpl.
  - unfold ret. do 2 f_equal. lia.
  - unfold bind at 1. unfold bind at 1, getConnections. rewrite Hl. unfold ret.
    rewrite IH, strongCount_entries. do 2 f_equal. lia.
Qed.

Lemma connectionCount_run h shown kept rs :
  h !! shown = Some (ObjArray kept) → recordsAt h kept rs →
  connectionCount shown h
  = (Ok (QArith_base.Qdiv
           (QArith_base.inject_Z (Z.of_nat (sum_list_with strongEntries rs)))
           (QArith_base.inject_Z 2)), h).
Proof.
  intros Hshown Hrec. unfold connectionCount.
  unfold bind at 1, getArray. rewrite Hshown.
  unfold bind at 1. by rewrite (countLoop_run h kept rs 0 Hrec).
Qed.


Lemma length_bind {A B} (f : A → list B) (l : list A) :
  length (l ≫= f) = sum_list_with (λ x, length (f x)) l.
Proof.
  induction l as [|x l IH]; csimpl; [done|]. by rewrite length_app, IH.
Qed.


Lemma filter_and_all {A} (f g : A → bool) (l : list A) :
  (∀ x, x ∈ l → f x = true → g x = true) →
  List.filter (λ x, f x && g x) l = List.filter f l.
Proof.
  induction l as [|x l IH]; intros Hall; simpl; [done|].
  rewrite IH by (intros; apply Hall; [by right|done]).
  destruct (f x) eqn:Hf; [|done]. by rewrite (Hall x) by (done || by left).
Qed.


Lemma length_linksFrom_all ids r :
  r_id r ∈ ids →
  (∀ c e, r_connections r = Some c → e ∈ c → (2 ≤ c_score e)%Z → c_id e ∈ ids) →
  length (linksFrom ids r) = strongEntries r.
Proof.
  intros Hr Hall. unfold linksFrom, strongEntries, strongCount, setHas.
  rewrite (bool_decide_eq_true_2 _ Hr).
  destruct (r_connections r) as [c|]; simpl; [|lia].
  rewrite length_fmap, Nat2Z.id. f_equal. apply filter_and_all.
  intros e He Hv%Z.leb_le. apply bool_decide_eq_true. by apply (Hall c).
Qed.


Lemma sum_list_with_eq {A} (f g : A → nat) (l : list A) :
  (∀ x, x ∈ l → f x = g x) → sum_list_with f l = sum_list_with g l.
Proof.
  induction l as [|x l IH]; intros Heq; simpl; [done|].
  rewrite (Heq x) by left. rewrite IH; [done|]. intros. apply Heq. by right.
Qed.


(** *** Counting each pair once *)

Lemma length_filter_Permutation {A} (f : A → bool) (l l' : list A) :
  l ≡ₚ l' → length (List.filter f l) = length (List.filter f l').
Proof.
  induction 1 as [|x l l' _ IH|x y l|l l' l'' _ IH _ IH']; simpl.
  - done.
  - destruct (f x); simpl; by rewrite IH.
  - by destruct (f x), (f y).
  - by rewrite IH.
Qed.

Lemma length_filter_omap {A B} (f : B → bool) (g : A → option B) (l : list A) :
  length (List.filter f (omap g l))
  = length (List.filter (λ x, match g x with Some y => f y | None => false end) l).
Proof.
  induction l as [|x l IH]; csimpl; [done|].
  destruct (g x) as [y|]; simpl; [|done]. destruct (f y); simpl; by rewrite IH.
Qed.

Lemma length_filter_ext {A} (f g : A → bool) (l : list A) :
  (∀ x, x ∈ l → f x = g x) → length (List.filter f l) = length (List.filter g l).
Proof.
  induction l as [|x l IH]; intros Heq; simpl; [done|].
  rewrite (Heq x) by left.
  destruct (g x); simpl; rewrite IH; try done; intros; apply Heq; by right.
Qed.

(** The entries of score 2 or more of a record the builder has visited are
    as many as the other records with a relevance of 2 or more. *)
Lemma strongEntries_built a rs :
  strongEntries (withConnections a (connectionsOf a rs))
  = length (List.filter
              (λ b, negb (strictEq (r_id a) (r_id b)) && (2 <=? relevance a b)%Z) rs).
Proof.
  unfold strongEntries, strongCount. simpl. rewrite Nat2Z.id.
  rewrite (length_filter_Permutation _ _ _ (connectionsOf_relevantPeers a rs)).
  unfold relevantPeers. rewrite length_filter_omap.
  apply length_filter_ext. intros b _.
  destruct (strictEq (r_id a) (r_id b)); simpl; [done|].
  destruct (Z.ltb_spec 0 (relevance a b)); simpl; [done|].
  symmetry. apply Z.leb_gt. lia.
Qed.

Lemma sum_list_with_add {A} (f g : A → nat) (l : list A) :
  sum_list_with (λ x, f x + g x) l = sum_list_with f l + sum_list_with g l.
Proof. induction l as [|x l IH]; simpl; [done|]. rewrite IH. lia. Qed.

Lemma sum_list_with_indicator {A} (f : A → bool) (l : list A) :
  sum_list_with (λ x, if f x then 1 else 0) l = length (List.filter f l).
Proof.
  induction l as [|x l IH]; simpl; [done|]. rewrite IH. by destruct (f x).
Qed.

(** With pairwise distinct ids and a symmetric relevance, the entries of
    score 2 or more count every pair twice. *)
Lemma strong_degrees rs :
  NoDup (r_id <$> rs) →
  (∀ a b, a ∈ rs → b ∈ rs → relevance a b = relevance b a) →
  sum_list_with
    (λ a, length (List.filter
                    (λ b, negb (strictEq (r_id a) (r_id b)) && (2 <=? relevance a b)%Z) rs))
    rs
  = 2 * strongPairs rs.
Proof.
  induction rs as [|r rs IH]; intros Hnd Hsym; [done|].
  rewrite fmap_cons in Hnd. apply NoDup_cons in Hnd as [Hr Hnd].
  assert (∀ b, b ∈ rs → strictEq (r_id r) (r_id b) = false) as Hother.
  { intros b Hb. apply bool_decide_eq_false. intros Heq. apply Hr.
    rewrite Heq. by apply list_elem_of_fmap_2. }
  cbn [sum_list_with strongPairs List.filter].
  unfold strictEq at 1. rewrite bool_decide_eq_true_2 by done. cbn [negb andb].
  rewrite (length_filter_ext _ (λ b, (2 <=? relevance r b)%Z) rs)
    by (intros b Hb; by rewrite (Hother b Hb)).
  rewrite (sum_list_with_eq _
             (λ a, (if (2 <=? relevance r a)%Z then 1 else 0)
                   + length (List.filter
                       (λ b, negb (strictEq (r_id a) (r_id b)) && (2 <=? relevance a b)%Z)
                       rs)) rs).
  - rewrite sum_list_with_add, sum_list_with_indicator.
    rewrite IH; [lia|done|]. intros a b Ha Hb. apply Hsym; by right.
  - intros a Ha. unfold strictEq at 1.
    rewrite bool_decide_eq_false_2.
    + cbn [negb andb]. rewrite (Hsym a r); [|by right|by left].
      by destruct (2 <=? relevance r a)%Z.
    + intros Heq. pose proof (Hother a Ha) as Hne.
      apply bool_decide_eq_false in Hne. congruence.
Qed.

Lemma sum_list_with_fmap {A B} (g : A → B) (f : B → nat) (l : list A) :
  sum_list_with f (g <$> l) = sum_list_with (λ x, f (g x)) l.
Proof. induction l as [|x l IH]; csimpl; [done|]. by rewrite IH. Qed.

Lemma strongEntries_total rs :
  NoDup (r_id <$> rs) → Forall noRepeats rs →
  sum_list_with strongEntries (built rs) = 2 * strongPairs rs.
Proof.
  intros Hnd Hnr. unfold built. rewrite sum_list_with_fmap.
  rewrite (sum_list_with_eq _ _ rs (λ a _, strongEntries_built a rs)).
  apply strong_degrees; [done|]. intros a b Ha Hb.
  apply relevance_noRepeats; by apply (proj1 (Forall_forall _ _) Hnr).
Qed.

(** X16: on the whole array after the builder has run, with pairwise
    distinct ids and no record that repeats a tag, the connection count is
    the number of pairs of records, each pair taken once, whose relevance is
    2 or more, and twice as many links are drawn. *)
Theorem connectionCount_counts_pairs h all elems rs :
  h !! all = Some (ObjArray elems) → recordsAt h elems (built rs) →
  NoDup (r_id <$> rs) → Forall noRepeats rs →
  ∃ q ls,
    connectionCount all h = (Ok q, h) ∧
    QArith_base.Qeq q (QArith_base.inject_Z (Z.of_nat (strongPairs rs))) ∧
    links all h = (Ok ls, h) ∧
    length ls = 2 * strongPairs rs.
Proof.
  intros Hall Hrec Hnd Hnr. eexists _, _.
  split; [by apply (connectionCount_run h all elems (built rs))|].
  split; [|split; [by apply (links_run h all elems (built rs))|]].
  - rewrite (strongEntries_total rs Hnd Hnr).
    unfold QArith_base.Qeq, QArith_base.Qdiv, QArith_base.Qmult, QArith_base.Qinv.
    simpl. lia.
  - rewrite length_bind, <- (strongEntries_total rs Hnd Hnr).
    apply sum_list_with_eq. intros a' Ha'.
    apply length_linksFrom_all; [by apply list_elem_of_fmap_2|].
    intros c e Hc He _.
    apply list_elem_of_fmap in Ha' as (a & -> & Ha). simpl in Hc. injection Hc as <-.
    apply elem_of_connectionsOf in He as (b & Hb & Hedge).
    apply edge_Some in Hedge as (_ & -> & _).
    apply list_elem_of_fmap. exists (withConnections b (connectionsOf b rs)).
    split; [done|].
    by apply (list_elem_of_fmap_2 (λ r, withConnections r (connectionsOf r rs))).
Qed.

Lemma links_are_strong_entries_witness :
  ∃ ls, links 0 (heapOf linkedRecords) = (Ok ls, heapOf linkedRecords) ∧
    (∀ s t v, mkLink s t v ∈ ls ↔
       ∃ a c, a ∈ linkedRecords ∧ r_id a = s ∧ r_connections a = Some c ∧
              mkConnection t v ∈ c ∧ (2 ≤ v)%Z ∧ t ∈ (r_id <$> linkedRecords)) ∧
    Forall (λ l, source l ∈ (r_id <$> linkedRecords) ∧
                 target l ∈ (r_id <$> linkedRecords) ∧ (2 ≤ value l)%Z) ls.
Proof.
  apply (links_are_strong_entries (heapOf linkedRecords) 0 [1; 2] linkedRecords).
  - reflexivity.
  - repeat constructor.
Defined.

Lemma links_after_build_witness :
  ∃ ls, links 10 shownHeap = (Ok ls, shownHeap) ∧
    (∀ s t v, mkLink s t v ∈ ls ↔
       ∃ la lb a b, la ∈ [1; 3] ∧ lb ∈ [1; 3] ∧
          recordOf shownHeap la = Some a ∧ recordOf shownHeap lb = Some b ∧
          r_id a = s ∧ r_id b = t ∧ s ≠ t ∧ v = relevance a b ∧ (2 ≤ v)%Z) ∧
    (Forall noRepeats shownRecords →
     ∀ s t v, mkLink s t v ∈ ls → mkLink t s v ∈ ls).
Proof.
  apply (links_after_build shownHeap [1; 2; 3] shownRecords 10 [1; 3]).
  - repeat constructor; vm_compute; reflexivity.
  - compute_done.
  - vm_compute. reflexivity.
  - compute_done.
Defined.


Lemma connectionCount_counts_pairs_witness :
  ∃ q ls,
    connectionCount 0 builtHeap = (Ok q, builtHeap) ∧
    QArith_base.Qeq q (QArith_base.inject_Z (Z.of_nat (strongPairs shownRecords))) ∧
    links 0 builtHeap = (Ok ls, builtHeap) ∧
    length ls = 2 * strongPairs shownRecords.
Proof.
  apply (connectionCount_counts_pairs builtHeap 0 [1; 2; 3] shownRecords).
  - vm_compute. reflexivity.
  - repeat constructor; vm_compute; reflexivity.
  - compute_done.
  - repeat (apply Forall_cons; split); [| | |apply Forall_nil];
      repeat split; vm_compute tokens; compute_done.
Defined.

(** ** The loader *)

Lemma onlyConnections_refl h : onlyConnections h h.
Proof. intros l. by left. Qed.

Lemma onlyConnections_trans h1 h2 h3 :
  onlyConnections h1 h2 → onlyConnections h2 h3 → onlyConnections h1 h3.
Proof.
  intros H12 H23 l. destruct (H23 l) as [->|(r & c & Hr & ->)]; [apply H12|].
  right. destruct (H12 l) as [Heq|(r' & c' & Hr' & Hr2)].
  - exists r, c. by rewrite <- Heq.
  - exists r', c. split; [done|]. rewrite Hr in Hr2. by injection Hr2 as ->.
Qed.

Lemma annotates_readOnly {A} (m : M A) : readOnly m → annotates m.
Proof. intros Hm h. rewrite (Hm h). apply onlyConnections_refl. Qed.

Lemma annotates_bind {A B} (m : M A) (k : A → M B) :
  annotates m → (∀ a, annotates (k a)) → annotates (bind m k).
Proof.
  intros Hm Hk h. unfold bind. specialize (Hm h).
  destruct (m h) as [[a|e] h']; simpl in Hm; [|done].
  eapply onlyConnections_trans; [exact Hm|apply Hk].
Qed.

Lemma annotates_setConnections l c : annotates (setConnections l c).
Proof.
  intros h l'. unfold setConnections.
  destruct (h !! l) as [[r| |]|] eqn:Hl; simpl; try by left.
  destruct (decide (l' = l)) as [->|Hne].
  - right. exists r, c. by rewrite lookup_insert_eq.
  - left. by rewrite lookup_insert_ne.
Qed.

Lemma annotates_forEach {A} (l : list A) (callback : A → M unit) :
  (∀ x, annotates (callback x)) → annotates (forEach l callback).
Proof.
  intros Hcb. induction l as [|x l IH]; simpl.
  - apply annotates_readOnly, readOnly_ret.
  - apply annotates_bind; [apply Hcb|by intros _].
Qed.

Lemma annotates_visitResearcher elems l : annotates (visitResearcher elems l).
Proof.
  unfold visitResearcher.
  do 10 (apply annotates_bind; [apply annotates_readOnly; solve [auto with readonly]|intros ?]).
  apply annotates_bind; [|intros ?; apply annotates_setConnections].
  apply annotates_readOnly, readOnly_forEachAcc. intros. apply readOnly_visitOther.
Qed.

Lemma annotates_calculateConnections researchers :
  annotates (calculateConnections researchers).
Proof.
  unfold calculateConnections.
  apply annotates_bind; [apply annotates_readOnly, readOnly_getArray|intros elems].
  apply annotates_forEach. intros. apply annotates_visitResearcher.
Qed.

Lemma onlyConnections_array h h' l elems :
  onlyConnections h h' → h !! l = Some (ObjArray elems) → h' !! l = Some (ObjArray elems).
Proof.
  intros Hh Hl. destruct (Hh l) as [->|(r & c & Hr & _)]; [done|congruence].
Qed.

Lemma allocArray_run elems h :
  allocArray elems h = (Ok (fresh (dom h)), <[fresh (dom h) := ObjArray elems]> h).
Proof. reflexivity. Qed.

Lemma fresh_unused (h : heap) : h !! fresh (dom h) = None.
Proof. apply not_elem_of_dom, is_fresh. Qed.

(** X17: the loader never throws. When the fetch or the parse throws, it
    returns a new empty array. When they give an array of rows, it returns
    that array with every row annotated by the builder if the five
    attributes of every row can be split, and otherwise (one attribute is a
    number, say) a new empty array: the parsed array is still in the heap,
    and is not what is returned. *)
Theorem loadResearchersData_outcome fetchAndParse h :
  ∃ out h',
    loadResearchersData fetchAndParse h = (Ok out, h') ∧
    (∀ e h1, fetchAndParse h = (Throw e, h1) →
       h1 !! out = None ∧ h' = <[out := ObjArray []]> h1) ∧
    (∀ data h1 elems rs,
       fetchAndParse h = (Ok data, h1) →
       h1 !! data = Some (ObjArray elems) → recordsAt h1 elems rs →
       (Forall readable rs ∧ out = data ∧ h' = graphHeap h1 rs elems) ∨
       (¬ Forall readable rs ∧ out ≠ data ∧
        h' !! out = Some (ObjArray []) ∧ h' !! data = Some (ObjArray elems))).
Proof.
  unfold loadResearchersData, tryCatch. unfold bind at 1.
  destruct (fetchAndParse h) as [[data|e] h1] eqn:Hparse.
  - unfold bind at 1.
    pose proof (annotates_calculateConnections data h1) as Hframe.
    destruct (calculateConnections data h1) as [[[]|e] h2] eqn:Hrun; simpl in Hframe.
    + exists data, h2. split; [done|]. split; [done|].
      intros data' h1' elems rs Heq Harr Hrec.
      assert (data' = data ∧ h1' = h1) as [-> ->] by (split; congruence). left.
      pose proof (calculateConnections_Ok_readable _ _ _ _ _ Harr Hrec Hrun) as Hread.
      rewrite (calculateConnections_run _ _ _ _ Harr Hrec Hread) in Hrun.
      by injection Hrun as <-.
    + rewrite allocArray_run. eexists _, _. split; [done|]. split; [done|].
      intros data' h1' elems rs Heq Harr Hrec.
      assert (data' = data ∧ h1' = h1) as [-> ->] by (split; congruence). right.
      pose proof (onlyConnections_array _ _ _ _ Hframe Harr) as Harr2.
      split; [|split; [|split]].
      * intros Hread.
        by rewrite (calculateConnections_run _ _ _ _ Harr Hrec Hread) in Hrun.
      * intros Hout. pose proof (fresh_unused h2) as Hfresh.
        rewrite Hout in Hfresh. congruence.
      * by rewrite lookup_insert_eq.
      * rewrite lookup_insert_ne; [done|].
        intros Hout. pose proof (fresh_unused h2) as Hfresh.
        rewrite Hout in Hfresh. congruence.
  - rewrite allocArray_run. eexists _, _. split; [done|]. split; [|done].
    intros e' h1' Heq.
    assert (h1' = h1) as -> by congruence. split; [apply fresh_unused|done].
Qed.

Lemma loadResearchersData_outcome_witness :
  ∃ out h',
    loadResearchersData (λ _, (Ok 0, heapOf parsedRows)) ∅ = (Ok out, h') ∧
    out ≠ 0 ∧ h' !! out = Some (ObjArray []) ∧ h' !! 0 = Some (ObjArray [1; 2]).
Proof.
  destruct (loadResearchersData_outcome (λ _, (Ok 0, heapOf parsedRows)) ∅)
    as (out & h' & Hrun & _ & Hparsed).
  exists out, h'. split; [exact Hrun|].
  destruct (Hparsed 0 (heapOf parsedRows) [1; 2] parsedRows) as [[Hread _]|[_ Hempty]].
  - reflexivity.
  - reflexivity.
  - repeat constructor.
  - apply Forall_cons in Hread as [_ Hread]. apply Forall_cons in Hread as [Hread _].
    destruct Hread as [[l Hl] _]. discriminate Hl.
  - exact Hempty.
Defined.

(** ** The panel and the filter together *)

Lemma panelCriteria_attribute mf fm st field :
  criterionOf (panelCriteria mf fm st) (criterionKey field)
  = (if nonEmpty (legacyValue (modeOf field fm) (selectedOf field mf))
     then JStr (legacyValue (modeOf field fm) (selectedOf field mf))
     else JUndefined).
Proof.
  unfold criterionOf, panelCriteria, cleanFilters, convertToLegacyFilter.
  destruct field; simpl;
    destruct (nonEmpty (legacyValue (fm_field fm) (fo_field mf))) eqn:H1;
    destruct (nonEmpty (legacyValue (fm_keyword fm) (fo_keyword mf))) eqn:H2;
    destruct (nonEmpty (legacyValue (fm_keytechnology fm) (fo_keytechnology mf))) eqn:H3;
    destruct (nonEmpty (legacyValue (fm_program fm) (fo_program mf))) eqn:H4;
    destruct (nonEmpty st) eqn:Hst;
    simpl; rewrite ?Hst; simpl; by simplify_map_eq.
Qed.

Lemma legacyValue_nonEmpty mode selected :
  selected ≠ [] → encodable mode selected →
  nonEmpty (legacyValue mode selected) = true.
Proof.
  intros Hne [Hsel _]. destruct selected as [|x xs]; [done|].
  rewrite legacyValue_cons. destruct mode; [done|].
  destruct (joinWith_cons PIPE x xs) as (tail & -> & _).
  apply Forall_cons in Hsel as [[Hx _] _]. by destruct x.
Qed.

(** The check of one attribute with the criterion the panel sends is the
    selection read back. *)
Lemma passesAttribute_panel mf fm st field r :
  stringOrAbsent (attributeOf field r) →
  encodable (modeOf field fm) (selectedOf field mf) →
  passesAttribute (panelCriteria mf fm st) (criterionKey field) (attributeOf field) r
  ↔ satisfies (modeOf field fm) (selectedOf field mf) (attributeOf field r).
Proof.
  intros Hv Henc. unfold passesAttribute, satisfies, present.
  rewrite panelCriteria_attribute.
  destruct (selectedOf field mf) as [|x xs] eqn:Hsel.
  { simpl. split; [by left|done]. }
  rewrite legacyValue_nonEmpty by done.
  assert (truthy (JStr (legacyValue (modeOf field fm) (x :: xs))) = true) as Htruthy.
  { simpl. by apply legacyValue_nonEmpty. }
  destruct Henc as [Hopts Hhead].
  destruct (modeOf field fm).
  - destruct (legacyValue_and_decoded (attributeOf field r) (x :: xs) Hv) as (b & Hb & Hiff);
      [done|by eapply Forall_impl; [exact Hopts|intros ? [_ ?]]|].
    rewrite Hb. split.
    + intros Hpass. right. apply Hiff. specialize (Hpass Htruthy). congruence.
    + intros [?|Hall] _; [done|]. f_equal. by apply Hiff.
  - destruct (legacyValue_or_decoded (attributeOf field r) (x :: xs) Hv) as (b & Hb & Hiff);
      [done|done|by apply Hhead|].
    rewrite Hb. split.
    + intros Hpass. right. apply Hiff. specialize (Hpass Htruthy). congruence.
    + intros [?|Hall] _; [done|]. f_equal. by apply Hiff.
Qed.

Section panel_filter.
Variable toLowerCase : jsstring → jsstring.
Hypothesis toLowerCase_empty : ∀ s, toLowerCase s = [] ↔ s = [].

Lemma passesFreeText_panel mf fm st r :
  passesFreeText toLowerCase (panelCriteria mf fm st) r
  ↔ st = [] ∨ containsCI toLowerCase (r_name r) st
    ∨ containsCI toLowerCase (r_theme r) st
    ∨ containsCI toLowerCase (r_affiliation r) st.
Proof.
  unfold passesFreeText, present.
  destruct (panelCriteria_text mf fm st) as [-> ->].
  destruct st as [|c st]; simpl.
  - split; [by left|]. by intros _ [|].
  - split.
    + intros Hpass. right. destruct Hpass as (q & [= <-] & Hq); [by left|done].
    + intros [|Hq] _; [done|]. by eexists.
Qed.

(** The elements the filter keeps are those whose record passes. *)
Lemma filterResearchers_passes h researchers filters elems rs props :
  h !! researchers = Some (ObjArray elems) →
  h !! filters = Some (ObjFilters props) →
  recordsAt h elems rs → Forall wellTyped rs → typedCriteria props →
  ∃ keep : loc → bool,
    outcome (filterResearchers toLowerCase researchers filters h)
    = Ok (List.filter keep elems) ∧
    ∀ l r, l ∈ elems → h !! l = Some (ObjResearcher r) →
           (keep l = true ↔ Passes toLowerCase props r).
Proof using toLowerCase_empty.
  intros Harr Hf Hrec Htyped Hprops.
  set (keep := λ l, match keepPure toLowerCase (criterionOf props) (recordOf h l) with
                    | Ok b => b
                    | Throw _ => false
                    end).
  assert (∀ l r, l ∈ elems → h !! l = Some (ObjResearcher r) →
            keepPure toLowerCase (criterionOf props) (recordOf h l) = Ok (keep l) ∧
            (keep l = true ↔ Passes toLowerCase props r)) as Hkeep.
  { intros l r Hl Hlr. unfold keep. rewrite (recordOf_Some h l r Hlr).
    assert (wellTyped r) as Hr.
    { destruct (recordsAt_lookup h elems rs l Hrec Hl) as (r' & Hr' & Hlr').
      assert (r' = r) as -> by congruence.
      by eapply (proj1 (Forall_forall _ _) Htyped). }
    by destruct (keepPure_typed toLowerCase toLowerCase_empty props r Hr Hprops)
      as (b & -> & Hb). }
  exists keep. split; [|intros l r Hl Hlr; by apply (Hkeep l r)].
  rewrite (filterResearchers_outcome _ _ _ _ elems props Harr Hf).
  destruct (size props =? 0)%nat eqn:Hsize.
  - apply Nat.eqb_eq, map_size_empty_iff in Hsize. subst props.
    rewrite filter_id; [done|]. intros l Hl.
    destruct (recordsAt_lookup h elems rs l Hrec Hl) as (r & _ & Hlr).
    apply (Hkeep l r Hl Hlr). unfold Passes, passesFreeText, passesAttribute, present.
    rewrite !criterionOf_empty. simpl. repeat split; try done.
    by intros [|].
  - apply filterR_Ok. intros l Hl.
    destruct (recordsAt_lookup h elems rs l Hrec Hl) as (r & _ & Hlr).
    by apply (Hkeep l r).
Qed.

(** X18: the panel and the filter together. With the criteria object the
    panel builds from selections that can be read back, on records whose
    fields are strings or absent, the filter keeps, in order, exactly the
    elements whose record contains the search text in its name, theme or
    affiliation without regard to case (when there is a search text) and
    whose four attributes satisfy the selections: all ticked options among
    the tokens in the AND mode, at least one in the OR mode. *)
Theorem panel_filter_semantics h researchers filters elems rs mf fm st :
  h !! researchers = Some (ObjArray elems) →
  h !! filters = Some (ObjFilters (panelCriteria mf fm st)) →
  recordsAt h elems rs → Forall wellTyped rs →
  (∀ field, encodable (modeOf field fm) (selectedOf field mf)) →
  ∃ keep : loc → bool,
    outcome (filterResearchers toLowerCase researchers filters h)
    = Ok (List.filter keep elems) ∧
    ∀ l r, l ∈ elems → h !! l = Some (ObjResearcher r) →
      (keep l = true ↔
       (st = [] ∨ containsCI toLowerCase (r_name r) st
        ∨ containsCI toLowerCase (r_theme r) st
        ∨ containsCI toLowerCase (r_affiliation r) st) ∧
       ∀ field, satisfies (modeOf field fm) (selectedOf field mf) (attributeOf field r)).
Proof using toLowerCase_empty.
  intros Harr Hf Hrec Htyped Henc.
  destruct (filterResearchers_passes h researchers filters elems rs _
              Harr Hf Hrec Htyped (panelCriteria_typed mf fm st)) as (keep & Hrun & Hkeep).
  exists keep. split; [done|]. intros l r Hl Hlr.
  rewrite (Hkeep l r Hl Hlr). unfold Passes.
  rewrite passesFreeText_panel.
  assert (wellTyped r) as (_ & _ & _ & Hp & _ & Hfd & Hkw & Hkt).
  { destruct (recordsAt_lookup h elems rs l Hrec Hl) as (r' & Hr' & Hlr').
    assert (r' = r) as -> by congruence.
    by eapply (proj1 (Forall_forall _ _) Htyped). }
  rewrite (passesAttribute_panel mf fm st FField r Hfd (Henc FField)).
  rewrite (passesAttribute_panel mf fm st FKeyword r Hkw (Henc FKeyword)).
  rewrite (passesAttribute_panel mf fm st FKeytechnology r Hkt (Henc FKeytechnology)).
  rewrite (passesAttribute_panel mf fm st FProgram r Hp (Henc FProgram)).
  split.
  - intros (Ht & H1 & H2 & H3 & H4). split; [done|]. by intros [].
  - intros (Ht & Hall). split; [done|].
    repeat split; [apply (Hall FField)|apply (Hall FKeyword)
                   |apply (Hall FKeytechnology)|apply (Hall FProgram)].
Qed.
End panel_filter.

Lemma panel_filter_semantics_witness :
  ∃ keep : loc → bool,
    outcome (filterResearchers asciiLower 0 9
               (filterHeap shownRecords
                  (panelCriteria
                     (mkFilterOption [utf16 "X"] [utf16 "a"; utf16 "b"] [] [])
                     (mkFilterModes AND OR OR OR) [])))
    = Ok (List.filter keep [1; 2; 3]) ∧
    ∀ l r, l ∈ [1; 2; 3] →
      filterHeap shownRecords
        (panelCriteria (mkFilterOption [utf16 "X"] [utf16 "a"; utf16 "b"] [] [])
                       (mkFilterModes AND OR OR OR) []) !! l
      = Some (ObjResearcher r) →
      (keep l = true ↔
       (([] : jsstring) = [] ∨ containsCI asciiLower (r_name r) []
        ∨ containsCI asciiLower (r_theme r) []
        ∨ containsCI asciiLower (r_affiliation r) []) ∧
       ∀ field,
         satisfies (modeOf field (mkFilterModes AND OR OR OR))
           (selectedOf field (mkFilterOption [utf16 "X"] [utf16 "a"; utf16 "b"] [] []))
           (attributeOf field r)).
Proof.
  apply (panel_filter_semantics asciiLower asciiLower_empty _ 0 9 [1; 2; 3] shownRecords).
  - reflexivity.
  - reflexivity.
  - repeat constructor.
  - unfold shownRecords.
    repeat (apply Forall_cons; split); [| | |apply Forall_nil];
      unfold wellTyped, stringOrAbsent; simpl; naive_solver.
  - intros []; (split; [repeat constructor; compute_done|]); try done.
    all: intros _ x rest [= <-]; discriminate.
Defined.

(** ** The selected node and its neighbours *)

Lemma sharedCount_nonneg mine others : (0 ≤ sharedCount mine others)%Z.
Proof. unfold sharedCount. lia. Qed.

Lemma relevance_nonneg a b : (0 ≤ relevance a b)%Z.
Proof.
  unfold relevance.
  pose proof (sharedCount_nonneg (tokens (r_field a)) (tokens (r_field b))).
  pose proof (sharedCount_nonneg (tokens (r_theme a)) (tokens (r_theme b))).
  pose proof (sharedCount_nonneg (tokens (r_keywords a)) (tokens (r_keywords b))).
  pose proof (sharedCount_nonneg (tokens (r_keytechnology a)) (tokens (r_keytechnology b))).
  lia.
Qed.

(** The entry of [a] found for the id of [b] carries the relevance of the
    pair; none is found when the relevance is 0 or the ids are equal. *)
Lemma find_connection a b rs :
  NoDup (r_id <$> rs) → b ∈ rs →
  match List.find (λ c, strictEq (c_id c) (r_id b)) (connectionsOf a rs) with
  | Some e => r_id a ≠ r_id b ∧ c_score e = relevance a b ∧ (0 < relevance a b)%Z
  | None => r_id a = r_id b ∨ relevance a b = 0%Z
  end.
Proof.
  intros Hnd Hb.
  destruct (List.find _ _) as [e|] eqn:Hfind.
  - apply find_some in Hfind as [He Hid].
    apply list_elem_of_In, elem_of_connectionsOf in He as (b' & Hb' & Hedge).
    apply bool_decide_eq_true in Hid.
    apply edge_Some in Hedge as (Hne & Hce & Hscore & Hpos).
    assert (b' = b) as -> by (apply (NoDup_fmap_eq r_id rs); congruence).
    rewrite <- scoreToward_relevance. split; [done|]. split; [done|lia].
  - destruct (decide (r_id a = r_id b)) as [|Hne]; [by left|]. right.
    pose proof (relevance_nonneg a b) as Hnn.
    destruct (decide (relevance a b = 0%Z)) as [|Hpos]; [done|]. exfalso.
    assert (mkConnection (r_id b) (relevance a b) ∈ connectionsOf a rs) as He.
    { apply elem_of_connectionsOf. exists b. split; [done|].
      rewrite edge_relevance. unfold strictEq. rewrite bool_decide_eq_false_2 by done.
      by destruct (Z.ltb_spec 0 (relevance a b)); [|lia]. }
    apply list_elem_of_In in He.
    pose proof (find_none _ _ Hfind _ He) as Hnone. simpl in Hnone.
    unfold strictEq in Hnone. by rewrite bool_decide_eq_true_2 in Hnone.
Qed.

(** X19: after the builder has run on records with pairwise distinct ids,
    the score the detail panel shows for a record beside another one is the
    relevance of the pair: the score of the entry found, and 0 exactly when
    no entry is found, that is when the relevance is 0 or the two are the
    same record. *)
Theorem displayed_score_is_relevance h elems rs la lb a b :
  recordsAt h elems (built rs) → NoDup (r_id <$> rs) →
  la ∈ elems → lb ∈ elems →
  recordOf h la = Some a → recordOf h lb = Some b →
  displayedScore la lb h
  = (Ok (if decide (la = lb) then 0%Z else relevance a b), h).
Proof.
  intros Hrec Hnd Hla Hlb Ha Hb.
  destruct (built_lookup h elems rs la Hrec Hla) as (a0 & Ha0 & Hha).
  destruct (built_lookup h elems rs lb Hrec Hlb) as (b0 & Hb0 & Hhb).
  rewrite (recordOf_Some _ _ _ Hha) in Ha. injection Ha as <-.
  rewrite (recordOf_Some _ _ _ Hhb) in Hb. injection Hb as <-.
  unfold displayedScore. unfold bind at 1, getConnections. rewrite Hha.
  rewrite (bind_getField _ _ _ _ _ Hhb). unfold ret. simpl. f_equal.
  rewrite relevance_withConnections.
  pose proof (find_connection a0 b0 rs Hnd Hb0) as Hfind.
  destruct (List.find _ _) as [e|].
  - destruct Hfind as (Hne & -> & Hpos).
    destruct (decide (la = lb)) as [->|_].
    + rewrite Hha in Hhb. injection Hhb as Heq. by rewrite Heq in Hne.
    + f_equal. by destruct (Z.eqb_spec (relevance a0 b0) 0); [lia|].
  - destruct (decide (la = lb)) as [|Hll]; [done|].
    destruct Hfind as [Hid | ->]; [|done]. exfalso. apply Hll.
    apply (built_inj h elems rs la lb Hrec Hnd Hla Hlb).
    by rewrite (idAt_Some _ _ _ Hha), (idAt_Some _ _ _ Hhb); simpl; f_equal.
Qed.

Lemma displayed_score_is_relevance_witness :
  displayedScore 1 3 shownHeap
  = (Ok (if decide (1 = 3) then 0%Z
         else relevance (withConnections (sample "1" "X" "" "a,b" "" "P")
                           (connectionsOf (sample "1" "X" "" "a,b" "" "P") shownRecords))
                        (withConnections (sample "3" "X" "" "" "" "P")
                           (connectionsOf (sample "3" "X" "" "" "" "P") shownRecords))),
     shownHeap).
Proof.
  apply (displayed_score_is_relevance shownHeap [1; 2; 3] shownRecords).
  - repeat constructor; vm_compute; reflexivity.
  - compute_done.
  - compute_done.
  - compute_done.
  - vm_compute. reflexivity.
  - vm_compute. reflexivity.
Defined.

(** *** The highlighted nodes *)








(** ** A change of the criteria *)

Lemma someById_run h elems id :
  Forall (λ l, is_Some (recordOf h l)) elems →
  someById elems id h = (Ok (bool_decide (is_Some (firstWithId h elems id))), h).
Proof.
  unfold firstWithId. induction 1 as [|l elems [r Hr] _ IH]; simpl; [done|].
  apply recordOf_inv in Hr.
  rewrite (bind_getField _ _ _ _ _ Hr), (idAt_Some h l r Hr). unfold strictEq.
  destruct (decide (r_id r = id)) as [Heq|Hne].
  - rewrite (bool_decide_eq_true_2 (r_id r = id)) by done.
    rewrite (bool_decide_eq_true_2 (Some (r_id r) = Some id)) by congruence.
    unfold ret. by rewrite bool_decide_eq_true_2.
  - rewrite (bool_decide_eq_false_2 (r_id r = id)) by done.
    rewrite (bool_decide_eq_false_2 (Some (r_id r) = Some id)) by congruence.
    apply IH.
Qed.

Lemma onlyConnections_idAt h h' l :
  onlyConnections h h' → idAt h' l = idAt h l.
Proof.
  intros Hh. unfold idAt, recordOf.
  destruct (Hh l) as [->|(r & c & -> & ->)]; done.
Qed.

Lemma onlyConnections_insert h l r c :
  h !! l = Some (ObjResearcher r) →
  onlyConnections h (<[l := ObjResearcher (withConnections r c)]> h).
Proof.
  intros Hl l'. destruct (decide (l' = l)) as [->|Hne].
  - right. exists r, c. by rewrite lookup_insert_eq.
  - left. by rewrite lookup_insert_ne.
Qed.

(** The handler completes on an array of records, lists records of the
    array, and writes nothing but [connections]. *)
Lemma handleSelectResearcher_frame h shown kept id :
  h !! shown = Some (ObjArray kept) →
  Forall (λ l, is_Some (recordOf h l)) kept →
  ∃ related h',
    handleSelectResearcher shown id h = (Ok related, h') ∧
    related ⊆ kept ∧ onlyConnections h h'.
Proof.
  intros Hshown Hrecs.
  rewrite (handleSelectResearcher_run h shown kept id Hshown Hrecs).
  destruct (firstWithId h kept id) as [l|] eqn:Hfind.
  - apply firstWithId_Some in Hfind as [Hl Hid].
    destruct (proj1 (Forall_forall _ _) Hrecs l Hl) as [r Hr]. rewrite Hr.
    destruct (r_connections r) as [c|] eqn:Hc.
    + eexists _, _. split; [done|]. split.
      * intros l' (e & _ & [Hl' _]%firstWithId_Some)%list_elem_of_omap. done.
      * apply onlyConnections_insert. by apply recordOf_inv.
    + exists [], h. split; [done|]. split; [by intros ? ?%elem_of_nil|].
      apply onlyConnections_refl.
  - exists [], h. split; [done|]. split; [by intros ? ?%elem_of_nil|].
    apply onlyConnections_refl.
Qed.

Section page_proofs.
Variable toLowerCase : jsstring → jsstring.

(** The filter gives an array of some of the elements, in a heap that
    holds every object of the heap it was run in. *)
Lemma filterResearchers_array h researchers filters elems rs props :
  h !! researchers = Some (ObjArray elems) →
  h !! filters = Some (ObjFilters props) →
  recordsAt h elems rs → Forall wellTyped rs → typedCriteria props →
  ∃ filtered h1 kept,
    filterResearchers toLowerCase researchers filters h = (Ok filtered, h1) ∧
    h1 !! filtered = Some (ObjArray kept) ∧ kept `sublist_of` elems ∧ h ⊆ h1.
Proof.
  intros Harr Hf Hrec Htyped Hprops.
  rewrite (filterResearchers_run toLowerCase _ _ _ elems props Harr Hf).
  destruct (size props =? 0)%nat; [by exists researchers, h, elems|].
  destruct (filterR_total elems
              (λ l, keepPure toLowerCase (criterionOf props) (recordOf h l)))
    as (kept & -> & Hsub).
  { intros l Hl. destruct (recordsAt_lookup h elems rs l Hrec Hl) as (r & Hr & Hlr).
    rewrite (recordOf_Some h l r Hlr). apply keepPure_total; [|done].
    by eapply (proj1 (Forall_forall _ _) Htyped). }
  eexists _, _, kept. split; [done|]. split; [by rewrite lookup_insert_eq|].
  split; [done|]. apply insert_subseteq, fresh_unused.
Qed.

(** X21: on records whose fields are strings or absent and criteria that
    are strings or absent, [handleFilterChange] completes and the new
    filtered array holds some of the elements of the data array, in order.
    A selected id that is truthy stays selected only if a record of the new
    filtered array has it; if none has, the selection is cleared and no
    related researcher is listed. The related researchers listed for a
    selection that stays are records of the filtered array of the render
    the handler was made in; a falsy selected id leaves the selection and
    the list as they are. *)
Theorem handleFilterChange_selection h st filters elems rs props shown :
  h !! researchers st = Some (ObjArray elems) →
  recordsAt h elems rs → Forall wellTyped rs →
  h !! filters = Some (ObjFilters props) → typedCriteria props →
  h !! filteredResearchers st = Some (ObjArray shown) → shown ⊆ elems →
  ∃ st' h' kept,
    handleFilterChange toLowerCase st filters h = (Ok st', h') ∧
    researchers st' = researchers st ∧
    h' !! filteredResearchers st' = Some (ObjArray kept) ∧
    kept `sublist_of` elems ∧
    (truthy (selectedResearcherId st') = true →
     selectedResearcherId st' = selectedResearcherId st ∧
     ∃ l, l ∈ kept ∧ idAt h' l = Some (selectedResearcherId st')) ∧
    (truthy (selectedResearcherId st) = true →
     (∀ l, l ∈ kept → idAt h l ≠ Some (selectedResearcherId st)) →
     selectedResearcherId st' = JNull ∧ relatedResearchers st' = []) ∧
    (truthy (selectedResearcherId st) = true → relatedResearchers st' ⊆ shown) ∧
    (truthy (selectedResearcherId st) = false →
     selectedResearcherId st' = selectedResearcherId st ∧
     relatedResearchers st' = relatedResearchers st).
Proof.
  intros Harr Hrec Htyped Hf Hprops Hshown Hsub.
  destruct (filterResearchers_array h (researchers st) filters elems rs props
              Harr Hf Hrec Htyped Hprops) as (filtered & h1 & kept & Hrun & Hkept & Hsl & Hext).
  assert (∀ l, l ∈ elems → ∃ r, h !! l = Some (ObjResearcher r) ∧
                                 h1 !! l = Some (ObjResearcher r)) as Hrecs.
  { intros l Hl. destruct (recordsAt_lookup h elems rs l Hrec Hl) as (r & _ & Hr).
    exists r. split; [done|]. by eapply lookup_weaken. }
  assert (∀ l, l ∈ elems → idAt h1 l = idAt h l) as Hids.
  { intros l Hl. destruct (Hrecs l Hl) as (r & Hr & Hr1).
    by rewrite (idAt_Some _ _ _ Hr), (idAt_Some _ _ _ Hr1). }
  assert (kept ⊆ elems) as Hkeptsub.
  { by apply sublist_subseteq. }
  unfold handleFilterChange. unfold bind at 1. rewrite Hrun.
  destruct (truthy (selectedResearcherId st)) eqn:Hsel.
  2: { exists (mkPageState (researchers st) filtered (selectedResearcherId st)
                 (relatedResearchers st)), h1, kept.
       cbn [researchers filteredResearchers selectedResearcherId relatedResearchers].
       repeat split; try done; congruence. }
  unfold bind at 1, getArray. rewrite Hkept.
  unfold bind at 1. rewrite someById_run.
  2: { apply Forall_forall. intros l Hl.
       destruct (Hrecs l (Hkeptsub l Hl)) as (r & _ & Hr1).
       rewrite (recordOf_Some _ _ _ Hr1). by eexists. }
  case_bool_decide as Hfound; simpl.
  - destruct Hfound as [l Hfind].
    apply firstWithId_Some in Hfind as [Hl Hid].
    destruct (handleSelectResearcher_frame h1 (filteredResearchers st) shown
                (selectedResearcherId st)) as (related & h2 & Hrun2 & Hrel & Hframe).
    { by eapply lookup_weaken. }
    { apply Forall_forall. intros l' Hl'.
      destruct (Hrecs l' (Hsub l' Hl')) as (r & _ & Hr1).
      rewrite (recordOf_Some _ _ _ Hr1). by eexists. }
    unfold bind at 1. rewrite Hrun2.
    exists (mkPageState (researchers st) filtered (selectedResearcherId st) related),
           h2, kept.
    simpl. split; [done|]. split; [done|].
    split; [by apply (onlyConnections_array h1 h2)|]. split; [done|].
    split; [|split; [|split; [done|done]]].
    + intros _. split; [done|]. exists l. split; [done|].
      by rewrite (onlyConnections_idAt h1 h2 l Hframe).
    + intros _ Hnone. destruct (Hnone l Hl).
      by rewrite <- (Hids l (Hkeptsub l Hl)).
  - exists (mkPageState (researchers st) filtered JNull []), h1, kept.
    simpl. repeat split; try done.
    by intros _ ? ?%elem_of_nil.
Qed.
End page_proofs.

Lemma handleFilterChange_selection_witness :
  ∃ st' h' kept,
    handleFilterChange asciiLower (mkPageState 0 0 (JStr (utf16 "1")) []) 9
      (filterHeap shownRecords {[ "program" := JStr (utf16 "Q") ]})
    = (Ok st', h') ∧
    researchers st' = 0 ∧
    h' !! filteredResearchers st' = Some (ObjArray kept) ∧
    kept `sublist_of` [1; 2; 3] ∧
    (truthy (selectedResearcherId st') = true →
     selectedResearcherId st' = JStr (utf16 "1") ∧
     ∃ l, l ∈ kept ∧ idAt h' l = Some (selectedResearcherId st')) ∧
    (truthy (JStr (utf16 "1")) = true →
     (∀ l, l ∈ kept →
        idAt (filterHeap shownRecords {[ "program" := JStr (utf16 "Q") ]}) l
        ≠ Some (JStr (utf16 "1"))) →
     selectedResearcherId st' = JNull ∧ relatedResearchers st' = []) ∧
    (truthy (JStr (utf16 "1")) = true → relatedResearchers st' ⊆ [1; 2; 3]) ∧
    (truthy (JStr (utf16 "1")) = false →
     selectedResearcherId st' = JStr (utf16 "1") ∧ relatedResearchers st' = []).
Proof.
  apply (handleFilterChange_selection asciiLower
           (filterHeap shownRecords {[ "program" := JStr (utf16 "Q") ]})
           (mkPageState 0 0 (JStr (utf16 "1")) []) 9 [1; 2; 3] shownRecords
           {[ "program" := JStr (utf16 "Q") ]} [1; 2; 3]).
  - reflexivity.
  - repeat constructor.
  - unfold shownRecords.
    repeat (apply Forall_cons; split); [| | |apply Forall_nil];
      unfold wellTyped, stringOrAbsent; simpl; naive_solver.
  - reflexivity.
  - intros key. unfold criterionOf.
    destruct (decide (key = "program")) as [->|Hne].
    + right. by eexists.
    + left. by rewrite lookup_singleton_ne.
  - reflexivity.
  - done.
Defined.

(** ** Tokens and joined lists *)

Lemma Pieces_plain s ps : Pieces s ps → Forall plain ps.
Proof. induction 1; by constructor. Qed.

Lemma tokens_string_Pieces s ps : Pieces s ps → tokens (JStr s) = keptPieces ps.
Proof.
  intros Hps. apply tokens_Ok. rewrite splitByDelimiters_string.
  by rewrite (Pieces_split_regex s ps Hps).
Qed.

Lemma tokens_plain v t : t ∈ tokens v → plain t.
Proof.
  destruct v as [| | |z|s]; try by (unfold tokens, splitByDelimiters; simpl;
    try destruct (negb _); intros ?%elem_of_nil).
  destruct (Pieces_total s) as [ps Hps]. rewrite (tokens_string_Pieces s ps Hps).
  unfold keptPieces. intros [Ht _]%list_elem_of_In%filter_In.
  apply list_elem_of_In in Ht.
  by apply (proj1 (Forall_forall _ _) (Pieces_plain s ps Hps)).
Qed.

Lemma head_joinWith sep t ts c :
  head t = Some c → head (joinWith sep (t :: ts)) = Some c.
Proof. destruct t as [|c' t]; [done|]. intros [= ->]. by destruct ts. Qed.

Lemma nonblank_head t : nonEmpty (trim t) = true → ∃ c, head t = Some c.
Proof. destruct t as [|c t]; [done|]. by exists c. Qed.

Lemma Pieces_joinWith sep ts :
  ts ≠ [] → Forall plain ts → Forall (λ t, nonEmpty (trim t) = true) ts →
  sep = WIDE_COMMA ∨
    (sep = COMMA ∧ Forall (λ t, ∀ c, head t = Some c → isWhiteSpace c = false) ts) →
  Pieces (joinWith sep ts) ts.
Proof.
  intros Hne Hplain Hblank Hsep.
  induction ts as [|t ts IH]; [done|]. clear Hne.
  apply Forall_cons in Hplain as [Ht Hplain].
  apply Forall_cons in Hblank as [Hb Hblank].
  destruct ts as [|t' ts]; [by apply Pieces_last|].
  change (joinWith sep (t :: t' :: ts)) with (t ++ [sep] ++ joinWith sep (t' :: ts)).
  apply Pieces_more; [done| |].
  - destruct Hsep as [-> | [-> Hws]]; [apply Separator_wide|].
    apply (Separator_comma []); [constructor|].
    intros c Hc. apply Forall_cons in Hws as [_ Hws].
    apply Forall_cons in Hws as [Hws _].
    apply Forall_cons in Hblank as [Hb' _].
    destruct (nonblank_head t' Hb') as [c' Hc'].
    rewrite (head_joinWith COMMA t' ts c' Hc') in Hc. injection Hc as <-. by apply Hws.
  - apply IH; [done|done|done|].
    destruct Hsep as [? | [? Hws]]; [by left|right].
    split; [done|]. by apply Forall_cons in Hws as [_ ?].
Qed.

(** X22: a token never contains a comma or a wide comma, is not blank, and
    is split into itself. A list of such strings joined with wide commas is
    split back into the list; so is a list joined with commas, when no
    string of the list starts with whitespace (the separator takes the
    whitespace that follows a comma). *)
Theorem splitByDelimiters_join :
  (∀ v t, t ∈ tokens v →
          plain t ∧ nonEmpty (trim t) = true ∧ splitByDelimiters (JStr t) = Ok [t]) ∧
  (∀ sep ts,
     ts ≠ [] → Forall plain ts → Forall (λ t, nonEmpty (trim t) = true) ts →
     sep = WIDE_COMMA ∨
       (sep = COMMA ∧ Forall (λ t, ∀ c, head t = Some c → isWhiteSpace c = false) ts) →
     splitByDelimiters (JStr (joinWith sep ts)) = Ok ts).
Proof.
  assert (∀ sep ts,
     ts ≠ [] → Forall plain ts → Forall (λ t, nonEmpty (trim t) = true) ts →
     sep = WIDE_COMMA ∨
       (sep = COMMA ∧ Forall (λ t, ∀ c, head t = Some c → isWhiteSpace c = false) ts) →
     splitByDelimiters (JStr (joinWith sep ts)) = Ok ts) as Hjoin.
  { intros sep ts Hne Hplain Hblank Hsep.
    rewrite splitByDelimiters_string.
    rewrite (Pieces_split_regex _ ts (Pieces_joinWith sep ts Hne Hplain Hblank Hsep)).
    f_equal. unfold keptPieces. apply filter_id. intros t Ht.
    by apply (proj1 (Forall_forall _ _) Hblank). }
  split; [|exact Hjoin].
  intros v t Ht. pose proof (tokens_plain v t Ht) as Hp.
  pose proof (tokens_nonblank v t Ht) as Hb.
  split; [done|]. split; [done|].
  apply (Hjoin WIDE_COMMA [t]); [done|by constructor|by constructor|by left].
Qed.

Lemma splitByDelimiters_join_witness :
  splitByDelimiters (JStr (joinWith COMMA [utf16 "a b"; utf16 "c"; utf16 "d "]))
  = Ok [utf16 "a b"; utf16 "c"; utf16 "d "].
Proof.
  apply (proj2 splitByDelimiters_join COMMA).
  - discriminate.
  - repeat constructor; discriminate.
  - repeat constructor.
  - right. split; [done|]. repeat constructor; by intros c [= <-].
Defined.

(** ** Running the builder again *)

Lemma edge_withConnections a b ca cb :
  edge (withConnections a ca) (withConnections b cb) = edge a b.
Proof. reflexivity. Qed.

Lemma pushed_annotated a c (f : Researcher → list Connection) l :
  pushed (withConnections a c) ((λ r, withConnections r (f r)) <$> l) = pushed a l.
Proof.
  unfold pushed. induction l as [|b l IH]; csimpl; [done|].
  by rewrite edge_withConnections, IH.
Qed.

Lemma connectionsOf_built a c rs :
  connectionsOf (withConnections a c) (built rs) = connectionsOf a rs.
Proof. unfold connectionsOf, built. by rewrite pushed_annotated. Qed.

Lemma readable_withConnections a c : readable (withConnections a c) ↔ readable a.
Proof. reflexivity. Qed.

Lemma recordsAt_graphHeap h elems rs :
  recordsAt h elems rs → recordsAt (graphHeap h rs elems) elems (built rs).
Proof.
  intros Hrec. unfold built. apply Forall2_fmap_r.
  apply Forall2_same_length_lookup. split; [by eapply Forall2_length|].
  intros i l r Hl Hr.
  destruct (Forall2_lookup_l _ _ _ _ _ Hrec Hl) as (r' & Hr' & Hlr).
  assert (r' = r) as -> by congruence.
  apply graphHeap_visited; [by eapply list_elem_of_lookup_2|done].
Qed.

(** X23: a second run of the builder changes nothing: on records whose
    attributes can be split, the builder completes, and run again on the
    heap it left it completes and leaves that heap as it is. The entries
    are computed from the attributes only, not from earlier entries. *)
Theorem calculateConnections_idempotent h researchers elems rs :
  h !! researchers = Some (ObjArray elems) →
  recordsAt h elems rs → Forall readable rs →
  ∃ h1, calculateConnections researchers h = (Ok (), h1) ∧
        calculateConnections researchers h1 = (Ok (), h1).
Proof.
  intros Harr Hrec Hread. exists (graphHeap h rs elems).
  split; [by apply calculateConnections_run|].
  pose proof (recordsAt_graphHeap h elems rs Hrec) as Hrec1.
  assert (graphHeap h rs elems !! researchers = Some (ObjArray elems)) as Harr1.
  { by rewrite graphHeap_lookup, Harr; simpl; destruct (bool_decide _). }
  rewrite (calculateConnections_run _ researchers elems (built rs) Harr1 Hrec1).
  - f_equal. apply map_eq. intros l. rewrite graphHeap_lookup.
    destruct (decide (l ∈ elems)) as [Hl|Hl].
    + rewrite bool_decide_eq_true_2 by done.
      destruct (recordsAt_lookup _ elems _ l Hrec1 Hl) as (a' & Ha' & ->).
      apply list_elem_of_fmap in Ha' as (a & -> & _). simpl.
      by rewrite connectionsOf_built.
    + rewrite bool_decide_eq_false_2 by done. by destruct (_ !! l).
  - unfold built. apply Forall_fmap. eapply Forall_impl; [exact Hread|].
    by intros a Ha.
Qed.

Lemma calculateConnections_idempotent_witness :
  ∃ h1, calculateConnections 0 (heapOf shownRecords) = (Ok (), h1) ∧
        calculateConnections 0 h1 = (Ok (), h1).
Proof.
  apply (calculateConnections_idempotent (heapOf shownRecords) 0 [1; 2; 3] shownRecords).
  - reflexivity.
  - repeat constructor.
  - repeat constructor; apply readable_sample.
Defined.
